(** * A scalar reverse-mode autodiff engine (grad_eng.py), embedded in Rocq

    The Python class [Value] is embedded shallowly:

    - Python floats are IEEE binary64 numbers: Rocq's primitive [float] with
      its own [+], [*], [-], [/] and comparisons.  Integer literals of the
      source ([0], [1], [-1]) stand for the float they convert to when they
      meet a float operand.
    - Objects live in a store ([heap]); a reference is the index at which the
      object was allocated, so object identity is index equality.
    - A [_backward] closure is the record of its code and of the references
      and constants it captured.
    - Code that can raise runs in a state-and-exception monad; the state
      survives a raise, so what a failed call left behind can be inspected.
    - The builtins whose values the language leaves to the platform ([**],
      [math.exp], [math.tanh], the iteration order of a [set]) form a
      [runtime] record that every definition takes as a parameter. *)

From Stdlib Require Import Floats.
From stdpp Require Import gmap list.

(** ** Exceptions and results *)

Inductive exn : Set :=
| ZeroDivisionError
| AssertionError
| ValueError
| OverflowError
| RecursionError.

Inductive result (A : Type) : Type :=
| Ok (a : A)
| Raise (e : exn).
Arguments Ok {A} a.
Arguments Raise {A} e.

(** A reference to a [Value] object. *)
Abbreviation ref := nat (only parsing).

(** ** The platform *)

Record runtime := Runtime {
  (** [x ** y] on floats; raises [ZeroDivisionError] or [OverflowError]. *)
  float_pow : float -> float -> result float;
  (** [math.exp]; raises [OverflowError] when the result is out of range. *)
  math_exp : float -> result float;
  (** [math.tanh]. *)
  math_tanh : float -> float;
  (** The order in which [for parent in v._prev] enumerates a set. *)
  set_iter : gset ref -> list ref
}.

(** An enumeration of a set yields its elements and nothing else. *)
Definition set_iter_ok (rt : runtime) : Prop :=
  forall (s : gset ref) (x : ref), x ∈ set_iter rt s <-> x ∈ s.

(** [x / y] on floats. *)
Definition float_truediv (x y : float) : result float :=
  if (y =? 0)%float then Raise ZeroDivisionError else Ok (x / y)%float.

(** [max] over a non-empty iterable keeps the first of the largest items;
    on an empty one it raises [ValueError]. *)
Definition py_max (l : list float) : result float :=
  match l with
  | [] => Raise ValueError
  | x :: l' =>
      Ok (fold_left (fun cur item => if (cur <? item)%float then item else cur) l' x)
  end.

(** A comprehension over a function that can raise: the first raise wins. *)
Fixpoint result_map {A B} (f : A -> result B) (l : list A) : result (list B) :=
  match l with
  | [] => Ok []
  | x :: l' =>
      match f x with
      | Raise e => Raise e
      | Ok y =>
          match result_map f l' with
          | Raise e => Raise e
          | Ok ys => Ok (y :: ys)
          end
      end
  end.

(** [sum] adds from the left, starting from [0].  (CPython 3.12 and later
    carry a compensation term through a sum of floats; this is the plain
    sum of the language reference.) *)
Definition py_sum (l : list float) : float :=
  fold_left PrimFloat.add l 0%float.

(** [max(0, d)]: [d] replaces [0] only when [d > 0]. *)
Definition max0 (d : float) : float :=
  if (0 <? d)%float then d else 0%float.

(** A [bool] that meets a float in a product. *)
Definition float_of_bool (b : bool) : float :=
  if b then 1%float else 0%float.

(** ** Objects *)

(** The [_op] strings: [''], ['+'], ['*'], [f'**{exponent}'], ['ReLU'],
    ['tanh'], ['softmax']. *)
Inductive op : Set :=
| OpLeaf
| OpAdd
| OpMul
| OpPow (exponent : float)
| OpReLU
| OpTanh
| OpSoftmax.

(** The [_backward] closures, each with the variables it captured. *)
Inductive closure : Set :=
| NoOp
| AddBackward (self other out : ref)
| MulBackward (self other out : ref)
| PowBackward (self : ref) (exponent : float) (out : ref)
| ReluBackward (self out : ref)
| TanhBackward (self : ref) (t : float) (out : ref)
| SoftmaxBackward (values out : list ref).

Record Value := mkValue {
  data : float;
  grad : float;
  _prev : gset ref;
  _op : op;
  _backward : closure
}.

Global Instance Value_inhabited : Inhabited Value :=
  populate (mkValue 0%float 0%float ∅ OpLeaf NoOp).

Definition with_grad (g : float) (v : Value) : Value :=
  mkValue (data v) g (_prev v) (_op v) (_backward v).

Definition with_backward (c : closure) (v : Value) : Value :=
  mkValue (data v) (grad v) (_prev v) (_op v) c.

(** ** The store and its ghost log

    The log records, in order, every write to a [grad] field and every
    call of a [_backward] closure.  Nothing reads it. *)

Inductive event : Set :=
| EvSeed (root : ref)
| EvCall (node : ref)
| EvAcc (target : ref) (c : float).

Record state := mkState {
  heap : list Value;
  log : list event
}.

Definition M (A : Type) : Type := state -> result A * state.

Global Instance M_ret : MRet M := fun A a s => (Ok a, s).

Global Instance M_bind : MBind M := fun A B f m s =>
  match m s with
  | (Ok a, s') => f a s'
  | (Raise e, s') => (Raise e, s')
  end.

Definition lift {A} (r : result A) : M A := fun s => (r, s).

Definition get_data (r : ref) : M float :=
  fun s => (Ok (data (heap s !!! r)), s).

Definition get_grad (r : ref) : M float :=
  fun s => (Ok (grad (heap s !!! r)), s).

Definition get_backward (r : ref) : M closure :=
  fun s => (Ok (_backward (heap s !!! r)), s).

(** [[v.data for v in values]] *)
Definition get_datas (values : list ref) : M (list float) :=
  fun s => (Ok ((fun v => data (heap s !!! v)) <$> values), s).

(** [Value(data, _children, _op)]: a fresh object, [grad] at [0.0]. *)
Definition new_value (d : float) (children : list ref) (o : op) : M ref :=
  fun s =>
    (Ok (length (heap s)),
     mkState (heap s ++ [mkValue d 0%float (list_to_set children) o NoOp]) (log s)).

(** [out._backward = c] *)
Definition set_backward (r : ref) (c : closure) : M unit :=
  fun s => (Ok tt, mkState (alter (with_backward c) r (heap s)) (log s)).

(** [target.grad += c] *)
Definition iadd_grad (target : ref) (c : float) : M unit :=
  fun s =>
    (Ok tt,
     mkState (alter (fun v => with_grad (grad v + c)%float v) target (heap s))
             (log s ++ [EvAcc target c])).

(** [self.grad = 1.0] *)
Definition seed_grad (root : ref) : M unit :=
  fun s =>
    (Ok tt,
     mkState (alter (with_grad 1%float) root (heap s)) (log s ++ [EvSeed root])).

Definition note_call (node : ref) : M unit :=
  fun s => (Ok tt, mkState (heap s) (log s ++ [EvCall node])).

(** [for x in l: body(x)] *)
Fixpoint for_each {A} (l : list A) (body : A -> M unit) : M unit :=
  match l with
  | [] => mret tt
  | x :: l' => body x ;; for_each l' body
  end.

(** [[f(x) for x in l]] *)
Fixpoint map_each {A B} (l : list A) (f : A -> M B) : M (list B) :=
  match l with
  | [] => mret []
  | x :: l' => y ← f x; ys ← map_each l' f; mret (y :: ys)
  end.

(** A loop that threads an accumulator. *)
Fixpoint fold_each {A B} (l : list A) (acc : B) (body : B -> A -> M B) : M B :=
  match l with
  | [] => mret acc
  | x :: l' => acc' ← body acc x; fold_each l' acc' body
  end.

(** An operand of a binary operator: a number or a [Value]. *)
Inductive operand : Set :=
| ONum (x : float)
| ONode (v : ref).

(** Any object passed as an exponent. *)
Inductive pyobj : Set :=
| PyNum (x : float)
| PyValue (v : ref)
| PyNone.

Section Engine.

Variable rt : runtime.

(** [other if isinstance(other, Value) else Value(other)] *)
Definition as_value (other : operand) : M ref :=
  match other with
  | ONode v => mret v
  | ONum x => new_value x [] OpLeaf
  end.

Definition __add__ (self : ref) (other : operand) : M ref :=
  other ← as_value other;
  a ← get_data self;
  b ← get_data other;
  out ← new_value (a + b)%float [self; other] OpAdd;
  set_backward out (AddBackward self other out) ;;
  mret out.

Definition __mul__ (self : ref) (other : operand) : M ref :=
  other ← as_value other;
  a ← get_data self;
  b ← get_data other;
  out ← new_value (a * b)%float [self; other] OpMul;
  set_backward out (MulBackward self other out) ;;
  mret out.

Definition __pow__ (self : ref) (exponent : pyobj) : M ref :=
  match exponent with
  | PyNum n =>
      a ← get_data self;
      p ← lift (float_pow rt a n);
      out ← new_value p [self] (OpPow n);
      set_backward out (PowBackward self n out) ;;
      mret out
  | _ => lift (Raise AssertionError)
  end.

Definition relu (self : ref) : M ref :=
  a ← get_data self;
  out ← new_value (max0 a) [self] OpReLU;
  set_backward out (ReluBackward self out) ;;
  mret out.

Definition tanh (self : ref) : M ref :=
  a ← get_data self;
  let t := math_tanh rt a in
  out ← new_value t [self] OpTanh;
  set_backward out (TanhBackward self t out) ;;
  mret out.

Definition softmax (values : list ref) : M (list ref) :=
  datas ← get_datas values;
  max_val ← lift (py_max datas);
  exps ← map_each datas (fun d => lift (math_exp rt (d - max_val)%float));
  let sum_exps := py_sum exps in
  out ← fold_each (zip exps values) []
        (fun out ev =>
           s ← lift (float_truediv ev.1 sum_exps);
           o ← new_value s [ev.2] OpSoftmax;
           mret (out ++ [o]));
  for_each out (fun o => set_backward o (SoftmaxBackward values out)) ;;
  mret out.

(** ** The closures' code *)

Definition softmax_backward (values out : list ref) : M unit :=
  for_each (seq 0 (length values)) (fun i =>
    for_each (seq 0 (length values)) (fun j =>
      gi ← get_grad (out !!! i);
      di ← get_data (out !!! i);
      dj ← get_data (out !!! j);
      if decide (i = j)
      then iadd_grad (values !!! j) (gi * di * (1 - dj))%float
      else iadd_grad (values !!! j) (- gi * di * dj)%float)).

Definition call (c : closure) : M unit :=
  match c with
  | NoOp => mret tt
  | AddBackward self other out =>
      g ← get_grad out;
      iadd_grad self g ;;
      g ← get_grad out;
      iadd_grad other g
  | MulBackward self other out =>
      b ← get_data other;
      g ← get_grad out;
      iadd_grad self (b * g)%float ;;
      a ← get_data self;
      g ← get_grad out;
      iadd_grad other (a * g)%float
  | PowBackward self exponent out =>
      a ← get_data self;
      p ← lift (float_pow rt a (exponent - 1)%float);
      g ← get_grad out;
      iadd_grad self (exponent * p * g)%float
  | ReluBackward self out =>
      a ← get_data self;
      g ← get_grad out;
      iadd_grad self (float_of_bool (0 <? a)%float * g)%float
  | TanhBackward self t out =>
      p ← lift (float_pow rt t 2%float);
      g ← get_grad out;
      iadd_grad self ((1 - p) * g)%float
  | SoftmaxBackward values out => softmax_backward values out
  end.

(** ** Backpropagation *)

(** [build_topo]: the pair is ([visited], [topo]).  The recursion of the
    source is bounded here by [fuel]; [None] means the bound was hit, which
    [backward] reports as [RecursionError].  With the fuel [backward] gives,
    that does not happen on a store built by the operators
    ([build_topo_root] below); the interpreter's own recursion limit is not
    modelled. *)
Fixpoint build_topo (fuel : nat) (h : list Value) (v : ref)
    (vt : gset ref * list ref) : option (gset ref * list ref) :=
  match fuel with
  | O => None
  | S fuel' =>
      if decide (v ∈ vt.1) then Some vt
      else
        vt' ← foldl (fun acc parent => acc ≫= build_topo fuel' h parent)
                     (Some ({[v]} ∪ vt.1, vt.2))
                     (set_iter rt (_prev (h !!! v)));
        Some (vt'.1, vt'.2 ++ [v])
  end.

Definition call_backward (node : ref) : M unit :=
  c ← get_backward node;
  note_call node ;;
  call c.

Definition backward (self : ref) : M unit :=
  fun s =>
    match build_topo (S (length (heap s))) (heap s) self (∅, []) with
    | None => (Raise RecursionError, s)
    | Some vt =>
        (seed_grad self ;;
         for_each (rev vt.2) call_backward) s
    end.

(** ** Convenience operators *)

Definition __neg__ (self : ref) : M ref :=
  __mul__ self (ONum (-1)%float).

Definition __sub__ (self : ref) (other : operand) : M ref :=
  match other with
  | ONum x => __add__ self (ONum (- x)%float)
  | ONode v => n ← __neg__ v; __add__ self (ONode n)
  end.

Definition __radd__ (self : ref) (other : float) : M ref :=
  __add__ self (ONum other).

Definition __rmul__ (self : ref) (other : float) : M ref :=
  __mul__ self (ONum other).

Definition __rsub__ (self : ref) (other : float) : M ref :=
  n ← __neg__ self; __radd__ n other.

Definition __truediv__ (self : ref) (other : operand) : M ref :=
  match other with
  | ONum x => r ← lift (float_pow rt x (-1)%float); __mul__ self (ONum r)
  | ONode v => p ← __pow__ v (PyNum (-1)%float); __mul__ self (ONode p)
  end.

Definition __rtruediv__ (self : ref) (other : float) : M ref :=
  p ← __pow__ self (PyNum (-1)%float); __rmul__ p other.

End Engine.

(** * What a run leaves in the store *)

(** ** Replaying a log *)

Definition apply_event (h : list Value) (e : event) : list Value :=
  match e with
  | EvSeed root => alter (with_grad 1%float) root h
  | EvCall _ => h
  | EvAcc target c => alter (fun v => with_grad (grad v + c)%float v) target h
  end.

Definition replay_log (h : list Value) (evs : list event) : list Value :=
  foldl apply_event h evs.

(** [extends P s s']: from [s] to [s'] the log grew by events that all
    satisfy [P], and the store of [s'] is the store of [s] after those
    events. *)
Definition extends (P : event -> Prop) (s s' : state) : Prop :=
  exists evs,
    log s' = log s ++ evs /\
    heap s' = replay_log (heap s) evs /\
    Forall P evs.

(** A computation all of whose effects on the store are logged events
    satisfying [P]. *)
Definition writes (P : event -> Prop) {A} (m : M A) : Prop :=
  forall s, extends P s (m s).2.

Definition is_acc (e : event) : Prop :=
  exists target c, e = EvAcc target c.

Definition acc_into (targets : list ref) (e : event) : Prop :=
  exists target c, e = EvAcc target c /\ target ∈ targets.

Definition not_seed (e : event) : Prop :=
  forall root, e <> EvSeed root.

(** The nodes whose closure was called, in order. *)
Definition calls_of (evs : list event) : list ref :=
  omap (fun e => match e with EvCall n => Some n | _ => None end) evs.

(** The contributions added to the [grad] of [n], in order. *)
Definition contribs (n : ref) (evs : list event) : list float :=
  omap (fun e => match e with
                 | EvAcc target c => if decide (target = n) then Some c else None
                 | _ => None
                 end) evs.

(** The events that write the [grad] of [n]. *)
Definition touches (n : ref) (e : event) : Prop :=
  match e with
  | EvSeed root => root = n
  | EvCall _ => False
  | EvAcc target _ => target = n
  end.

(** The [grad] fields a closure adds to. *)
Definition closure_targets (c : closure) : list ref :=
  match c with
  | NoOp => []
  | AddBackward self other _ => [self; other]
  | MulBackward self other _ => [self; other]
  | PowBackward self _ _ => [self]
  | ReluBackward self _ => [self]
  | TanhBackward self _ _ => [self]
  | SoftmaxBackward values _ => values
  end.

(** A store built by the operators: parents and closure targets were
    allocated before the node that names them. *)
Definition wf_heap (h : list Value) : Prop :=
  forall (i : ref) (v : Value), h !! i = Some v ->
    (forall p, p ∈ _prev v -> p < i) /\
    (forall t, t ∈ closure_targets (_backward v) -> t < i).

(** [n] is [root] or one of its ancestors along [_prev]. *)
Definition reachable (h : list Value) (root n : ref) : Prop :=
  rtc (fun c p => p ∈ _prev (h !!! c)) root n.

(** Every node of [l] comes after all of its parents. *)
Definition topo_ordered (h : list Value) (l : list ref) : Prop :=
  forall (j : nat) (c p : ref), l !! j = Some c -> p ∈ _prev (h !!! c) ->
    exists i, i < j /\ l !! i = Some p.

(** What one node of the replay may log: its own call, or an addition
    into a target of the closure it carries. *)
Definition replay_event (h : list Value) (l : list ref) (e : event) : Prop :=
  (exists n, e = EvCall n /\ n ∈ l) \/
  (exists n, n ∈ l /\ acc_into (closure_targets (_backward (h !!! n))) e).

(** The invariant of ([visited], [topo]) between two visits. *)
Definition topo_inv (h : list Value) (vt : gset ref * list ref) : Prop :=
  NoDup vt.2 /\ (forall n, n ∈ vt.2 -> n ∈ vt.1) /\ topo_ordered h vt.2.

(** What visiting [roots] from [vt] yields: [topo] grows at its end by
    nodes reachable from the roots, every root is in it, and the nodes
    visited but not yet listed are the ones that were so before. *)
Definition visit_post (h : list Value) (roots : list ref)
    (vt vt' : gset ref * list ref) : Prop :=
  exists ext,
    vt'.2 = vt.2 ++ ext /\
    topo_inv h vt' /\
    (forall p, p ∈ roots -> p ∈ vt'.2) /\
    (forall n, n ∈ vt.1 -> n ∈ vt'.1) /\
    (forall n, n ∈ vt'.1 -> n ∉ vt'.2 -> n ∈ vt.1 /\ n ∉ vt.2) /\
    (forall n, n ∈ ext -> exists p, p ∈ roots /\ reachable h p n).

(** ** Allocation *)

(** The store of [s] with the objects [vs] allocated after it. *)
Definition push (s : state) (vs : list Value) : state :=
  mkState (heap s ++ vs) (log s).

(** [Value(x)] *)
Definition leaf (x : float) : Value := mkValue x 0%float ∅ OpLeaf NoOp.

(** [out] is an object of [s1] that [s] did not have, the objects of [s]
    are still there, and the parents of [out] are [parents]. *)
Definition allocated (s s1 : state) (out : ref) (parents : gset ref) : Prop :=
  heap s `prefix_of` heap s1 /\
  length (heap s) <= out /\
  out < length (heap s1) /\
  _prev (heap s1 !!! out) = parents.

(** ** The values of [softmax] *)

(** The [data] of the given nodes. *)
Definition datas_of (s : state) (values : list ref) : list float :=
  (fun v => data (heap s !!! v)) <$> values.

(** The exponentials [softmax] computes from the data and their maximum. *)
Definition softmax_exps (rt : runtime) (datas : list float) (max_val : float)
    : result (list float) :=
  result_map (fun d => math_exp rt (d - max_val)%float) datas.

(** An output of [softmax], once its closure is set. *)
Definition softmax_node (sum_exps : float) (c : closure) (ev : float * ref)
    : Value :=
  mkValue (ev.1 / sum_exps)%float 0%float (list_to_set [ev.2]) OpSoftmax c.

(** Whether a closure is the one shared by the outputs [out] of
    [softmax(values)]. *)
Definition is_shared_step (values out : list ref) (c : closure) : bool :=
  match c with
  | SoftmaxBackward values' out' =>
      bool_decide (values' = values) && bool_decide (out' = out)
  | _ => false
  end.

(** How many of the logged calls went to that closure. *)
Definition shared_step_calls (values out : list ref) (s : state) : nat :=
  length (filter (fun n => is_shared_step values out (_backward (heap s !!! n)) = true)
                 (calls_of (log s))).

(** ** Signs of floats *)






(** ** What is known of the platform *)


(** [x ** -1] for a zero [x]: "0.0 cannot be raised to a negative power". *)
Definition pow_zero_raises (rt : runtime) : Prop :=
  forall x, (x =? 0)%float = true ->
    float_pow rt x (-1)%float = Raise ZeroDivisionError.

(** ** A model platform

    It answers where the language fixes the builtins: [x ** 0] is [1.0],
    zero to a finite negative power raises, [x ** 1] is [x], [exp(0.0)] is
    [1.0], [tanh] of a zero is that zero.  Elsewhere it says NaN.  It serves
    to run the definitions on stores whose runs meet only those points. *)

Definition model_pow (x y : float) : result float :=
  if (y =? 0)%float then Ok 1%float
  else if ((x =? 0) && (y <? 0) && negb (y =? neg_infinity))%float
       then Raise ZeroDivisionError
  else if (y =? 1)%float then Ok x
  else Ok nan.

Definition model_exp (x : float) : result float :=
  if (x =? 0)%float then Ok 1%float else Ok nan.

Definition model_tanh (x : float) : float :=
  if (x =? 0)%float then x else nan.

Definition model_rt : runtime :=
  Runtime model_pow model_exp model_tanh elements.

(** The same, with sets enumerated the other way round. *)
Definition model_rt_rev : runtime :=
  Runtime model_pow model_exp model_tanh (fun s => reverse (elements s)).

(** ** Stores and programs used as instances *)

Definition s_empty : state := mkState [] [].

(** [a = Value(2.0); b = Value(3.0); m = a * b; c = m + a] *)
Definition ex_heap : list Value :=
  [ leaf 2%float;
    leaf 3%float;
    mkValue 6%float 0%float (list_to_set [0; 1]) OpMul (MulBackward 0 1 2);
    mkValue 8%float 0%float (list_to_set [2; 0]) OpAdd (AddBackward 2 0 3) ].

Definition ex_state : state := mkState ex_heap [].

(** [Value(2.0)] and [Value(0.0)]. *)
Definition zero_divisor_state : state :=
  mkState [leaf 2%float; leaf 0%float] [].

(** [Value(0.0)] alone. *)
Definition zero_base_state : state := mkState [leaf 0%float] [].


(** [a = Value(1.0); b = Value(1.0)] *)
Definition two_ones_state : state :=
  mkState [leaf 1%float; leaf 1%float] [].

(** [x = Value(3.0); y0 = x + x; y0.backward(); y = x + x; y.backward()],
    then [x.grad]. *)
Definition stale_grad_prog : M float :=
  x ← new_value 3%float [] OpLeaf;
  y0 ← __add__ x (ONode x);
  backward model_rt y0 ;;
  y ← __add__ x (ONode x);
  backward model_rt y ;;
  get_grad x.

(** [a = Value(1.0); b = Value(1.0); o = Value.softmax([a, b]);
    r = o[0] * 2 + o[1]; r.backward()] *)
Definition shared_step_prog (rt : runtime) : M unit :=
  a ← new_value 1%float [] OpLeaf;
  b ← new_value 1%float [] OpLeaf;
  o ← softmax rt [a; b];
  c ← __mul__ (o !!! 0) (ONum 2%float);
  r ← __add__ c (ONode (o !!! 1));
  backward rt r.

(** [x = Value(0.0); r = x.relu() * 2.0**600 * 2.0**600; r.backward()],
    then [x.grad]. *)
Definition relu_overflow_prog : M float :=
  x ← new_value 0%float [] OpLeaf;
  y ← relu x;
  z ← __mul__ y (ONum 0x1p600%float);
  r ← __mul__ z (ONum 0x1p600%float);
  backward model_rt r ;;
  get_grad x.

(** [a = Value(3.0); x = Value(1.0); b = x * 3.0;
    o = Value.softmax([a, b]); o[0].backward()], then [(b.grad, x.grad)]. *)
Definition softmax_below_input_prog (rt : runtime) : M (float * float) :=
  a ← new_value 3%float [] OpLeaf;
  x ← new_value 1%float [] OpLeaf;
  b ← __mul__ x (ONum 3%float);
  o ← softmax rt [a; b];
  backward rt (o !!! 0) ;;
  gb ← get_grad b;
  gx ← get_grad x;
  mret (gb, gx).

(** * Closures as lists of contributions

    Read off the source, the closure of [+], [*], [**], [relu] or [tanh]
    reads the [grad] of its output and adds a product to the [grad] of each
    operand; the closure of [softmax] reads the [grad] of every output and
    adds to every input. *)

(** The nodes whose [grad] a closure reads. *)
Definition closure_reads (c : closure) : list ref :=
  match c with
  | NoOp => []
  | AddBackward _ _ out => [out]
  | MulBackward _ _ out => [out]
  | PowBackward _ _ out => [out]
  | ReluBackward _ out => [out]
  | TanhBackward _ _ out => [out]
  | SoftmaxBackward values out => (fun i => out !!! i) <$> seq 0 (length values)
  end.

(** What the closure of [softmax] adds, and to whom, in the order of its
    two loops, computed from the store [h]. *)
Definition softmax_contributions (h : list Value) (values out : list ref)
    : list (ref * float) :=
  i ← seq 0 (length values);
  j ← seq 0 (length values);
  let gi := grad (h !!! (out !!! i)) in
  let di := data (h !!! (out !!! i)) in
  let dj := data (h !!! (out !!! j)) in
  [(values !!! j,
    if decide (i = j) then (gi * di * (1 - dj))%float
    else (- gi * di * dj)%float)].

(** What a closure adds, and to whom, in order, computed from the store
    [h].  A power that raises makes the closure raise before it writes. *)
Definition contributions (rt : runtime) (h : list Value) (c : closure)
    : result (list (ref * float)) :=
  match c with
  | NoOp => Ok []
  | AddBackward self other out =>
      Ok [(self, grad (h !!! out)); (other, grad (h !!! out))]
  | MulBackward self other out =>
      Ok [(self, (data (h !!! other) * grad (h !!! out))%float);
          (other, (data (h !!! self) * grad (h !!! out))%float)]
  | PowBackward self exponent out =>
      match float_pow rt (data (h !!! self)) (exponent - 1)%float with
      | Ok p => Ok [(self, (exponent * p * grad (h !!! out))%float)]
      | Raise e => Raise e
      end
  | ReluBackward self out =>
      Ok [(self, (float_of_bool (0 <? data (h !!! self)) * grad (h !!! out))%float)]
  | TanhBackward self t out =>
      match float_pow rt t 2%float with
      | Ok p => Ok [(self, ((1 - p) * grad (h !!! out))%float)]
      | Raise e => Raise e
      end
  | SoftmaxBackward values out => Ok (softmax_contributions h values out)
  end.

(** A closure as the operators build it: that of [softmax] has as many
    outputs as inputs, so that [out[i]] exists for every [i] it uses. *)
Definition closure_built (c : closure) : Prop :=
  match c with
  | SoftmaxBackward values out => length out = length values
  | _ => True
  end.

(** The log entries of a list of additions. *)
Definition acc_events (l : list (ref * float)) : list event :=
  (fun p => EvAcc p.1 p.2) <$> l.

(** [target.grad += c] for each pair of the list, in order. *)
Definition acc_all (l : list (ref * float)) : M unit :=
  for_each l (fun p => iadd_grad p.1 p.2).

(** What the call of the closure of [n] logs when the closure reads the
    store [hf]. *)
Definition block (rt : runtime) (hf : list Value) (n : ref) : list event :=
  EvCall n ::
  match contributions rt hf (_backward (hf !!! n)) with
  | Ok l => acc_events l
  | Raise _ => []
  end.

(** [a], or one of its ancestors, carries a closure that adds to
    [t.grad]. *)
Definition feeds (h : list Value) (a t : ref) : Prop :=
  exists n, reachable h a n /\ t ∈ closure_targets (_backward (h !!! n)).

(** Whether the power a closure evaluates returns, or raises [e]. *)
Definition closure_total (rt : runtime) (h : list Value) (c : closure) : Prop :=
  match c with
  | PowBackward self exponent _ =>
      exists p, float_pow rt (data (h !!! self)) (exponent - 1)%float = Ok p
  | TanhBackward _ t _ => exists p, float_pow rt t 2%float = Ok p
  | _ => True
  end.

Definition closure_raises (rt : runtime) (h : list Value) (c : closure)
    (e : exn) : Prop :=
  match c with
  | PowBackward self exponent _ =>
      float_pow rt (data (h !!! self)) (exponent - 1)%float = Raise e
  | TanhBackward _ t _ => float_pow rt t 2%float = Raise e
  | _ => False
  end.

(** ** Invariants of the store *)

(** A property of every object of a store, given its reference. *)
Definition heap_all (P : ref -> Value -> Prop) (h : list Value) : Prop :=
  forall i v, h !! i = Some v -> P i v.

(** The parents of the object at [i], and the nodes its closure adds to,
    are older than [i]: [wf_heap] is [heap_all node_wf]. *)
Definition node_wf (i : ref) (v : Value) : Prop :=
  (forall p, p ∈ _prev v -> p < i) /\
  (forall t, t ∈ closure_targets (_backward v) -> t < i).

(** The closure of the object at [i] reads the [grad] of [i] alone and
    adds to parents of [i] only. *)
Definition node_local (i : ref) (v : Value) : Prop :=
  (forall r, r ∈ closure_reads (_backward v) -> r = i) /\
  (forall t, t ∈ closure_targets (_backward v) -> t ∈ _prev v).

Definition closures_local (h : list Value) : Prop := heap_all node_local h.

(** The closure that [+], [*], [**], [relu] or [tanh] gives the node [i]
    it builds over the given children. *)
Inductive closure_of (i : ref) : list ref -> closure -> Prop :=
| closure_of_add a b : closure_of i [a; b] (AddBackward a b i)
| closure_of_mul a b : closure_of i [a; b] (MulBackward a b i)
| closure_of_pow a n : closure_of i [a] (PowBackward a n i)
| closure_of_relu a : closure_of i [a] (ReluBackward a i)
| closure_of_tanh a t : closure_of i [a] (TanhBackward a t i).

(** An operand that is a node is a node of the store. *)
Definition in_store (s : state) (other : operand) : Prop :=
  match other with
  | ONode v => v < length (heap s)
  | ONum _ => True
  end.

(** What an operator leaves behind when [I] held before: [I] holds again,
    no object is lost, and a returned reference is a node of the store. *)
Definition stays (I : list Value -> Prop) (s : state)
    (rs : result ref * state) : Prop :=
  I (heap rs.2) /\
  length (heap s) <= length (heap rs.2) /\
  match rs.1 with
  | Ok r => r < length (heap rs.2)
  | Raise _ => True
  end.

(** * Lemmas *)

Ltac munfold :=
  unfold mbind, M_bind, mret, M_ret, lift, get_data, get_grad, get_backward,
    get_datas, new_value, set_backward, iadd_grad, seed_grad, note_call in *.

Lemma set_iter_ok_model : set_iter_ok model_rt.
Proof. intros s x. simpl. apply elem_of_elements. Qed.

(** ** Replay and [extends] *)

Lemma replay_log_app h evs1 evs2 :
  replay_log h (evs1 ++ evs2) = replay_log (replay_log h evs1) evs2.
Proof. unfold replay_log. apply foldl_app. Qed.

Lemma extends_refl P s : extends P s s.
Proof. exists []. rewrite app_nil_r. by split_and!. Qed.

Lemma extends_trans P s1 s2 s3 :
  extends P s1 s2 -> extends P s2 s3 -> extends P s1 s3.
Proof.
  intros (e1 & Hl1 & Hh1 & HP1) (e2 & Hl2 & Hh2 & HP2).
  exists (e1 ++ e2). split_and!.
  - by rewrite Hl2, Hl1, app_assoc.
  - by rewrite Hh2, Hh1, replay_log_app.
  - by apply Forall_app.
Qed.

Lemma extends_weaken (P Q : event -> Prop) s s' :
  (forall e, P e -> Q e) -> extends P s s' -> extends Q s s'.
Proof.
  intros HPQ (e & Hl & Hh & HP). exists e. split_and!; [done..|].
  eapply Forall_impl; eauto.
Qed.

Lemma writes_weaken (P Q : event -> Prop) {A} (m : M A) :
  (forall e, P e -> Q e) -> writes P m -> writes Q m.
Proof. intros HPQ Hm s. eapply extends_weaken; eauto. Qed.

Lemma writes_ret P {A} (a : A) : writes P (mret a).
Proof. intros s. apply extends_refl. Qed.

Lemma writes_lift P {A} (r : result A) : writes P (lift r).
Proof. intros s. apply extends_refl. Qed.

Lemma writes_bind P {A B} (m : M A) (f : A -> M B) :
  writes P m -> (forall a, writes P (f a)) -> writes P (m ≫= f).
Proof.
  intros Hm Hf s. unfold mbind, M_bind.
  specialize (Hm s). destruct (m s) as [[a|e] s1]; simpl in *; [|done].
  eapply extends_trans; [exact Hm|apply Hf].
Qed.

Lemma writes_get_data P r : writes P (get_data r).
Proof. intros s. apply extends_refl. Qed.

Lemma writes_get_grad P r : writes P (get_grad r).
Proof. intros s. apply extends_refl. Qed.

Lemma writes_get_backward P r : writes P (get_backward r).
Proof. intros s. apply extends_refl. Qed.

Lemma writes_iadd_grad (P : event -> Prop) target c :
  P (EvAcc target c) -> writes P (iadd_grad target c).
Proof. intros HP s. exists [EvAcc target c]. simpl. split_and!; auto. Qed.

Lemma writes_seed_grad (P : event -> Prop) root :
  P (EvSeed root) -> writes P (seed_grad root).
Proof. intros HP s. exists [EvSeed root]. simpl. split_and!; auto. Qed.

Lemma writes_note_call (P : event -> Prop) node :
  P (EvCall node) -> writes P (note_call node).
Proof. intros HP s. exists [EvCall node]. simpl. split_and!; auto. Qed.

Lemma writes_for_each P {A} (l : list A) (body : A -> M unit) :
  (forall x, x ∈ l -> writes P (body x)) -> writes P (for_each l body).
Proof.
  induction l as [|x l IH]; intros Hb; simpl.
  - apply writes_ret.
  - apply writes_bind.
    + apply Hb. left.
    + intros _. apply IH. intros y Hy. apply Hb. by right.
Qed.

Lemma writes_softmax_backward values out :
  writes (acc_into values) (softmax_backward values out).
Proof.
  unfold softmax_backward.
  apply writes_for_each. intros i _.
  apply writes_for_each. intros j Hj.
  apply elem_of_seq in Hj as [_ Hj]. simpl in Hj.
  assert (Hin : values !!! j ∈ values).
  { apply list_elem_of_lookup_total_2. lia. }
  apply writes_bind; [apply writes_get_grad|intros gi].
  apply writes_bind; [apply writes_get_data|intros di].
  apply writes_bind; [apply writes_get_data|intros dj].
  destruct (decide (i = j)); apply writes_iadd_grad; eexists _, _; eauto.
Qed.

Ltac writes_step :=
  first [ apply writes_bind; [|intros ?]
        | apply writes_get_grad | apply writes_get_data | apply writes_lift
        | apply writes_iadd_grad; eexists _, _; split; [done|set_solver] ].

(** A closure adds to the [grad] of its targets and does nothing else. *)
Lemma writes_call rt c : writes (acc_into (closure_targets c)) (call rt c).
Proof.
  destruct c; simpl; try (repeat writes_step; fail).
  apply writes_softmax_backward.
Qed.

Lemma acc_into_is_acc ts e : acc_into ts e -> is_acc e.
Proof. intros (t & c & -> & _). by eexists _, _. Qed.

Lemma is_acc_not_seed e : is_acc e -> not_seed e.
Proof. intros (t & c & ->) root. done. Qed.

Lemma writes_call_backward rt node :
  writes not_seed (call_backward rt node).
Proof.
  unfold call_backward.
  apply writes_bind; [apply writes_get_backward|intros c].
  apply writes_bind; [by apply writes_note_call|intros _].
  eapply writes_weaken; [|apply writes_call].
  intros e He. eapply is_acc_not_seed, acc_into_is_acc, He.
Qed.

(** ** The frame of a replay: only [grad] fields change *)

Lemma lookup_total_alter_proj {X} (proj : Value -> X) (f : Value -> Value)
    (t i : nat) (h : list Value) :
  (forall v, proj (f v) = proj v) ->
  proj (alter f t h !!! i) = proj (h !!! i).
Proof.
  intros Hf. rewrite !list_lookup_total_alt.
  destruct (decide (t = i)) as [->|Hne].
  - rewrite list_lookup_alter_eq. destruct (h !! i); simpl; auto.
  - by rewrite list_lookup_alter_ne.
Qed.

Lemma apply_event_length h e : length (apply_event h e) = length h.
Proof. destruct e; simpl; auto using length_alter. Qed.

Lemma replay_log_length h evs : length (replay_log h evs) = length h.
Proof.
  revert h. induction evs as [|e evs IH]; intros h; simpl; [done|].
  unfold replay_log in *. simpl. by rewrite IH, apply_event_length.
Qed.

Lemma apply_event_proj {X} (proj : Value -> X) h e i :
  (forall g v, proj (with_grad g v) = proj v) ->
  proj (apply_event h e !!! i) = proj (h !!! i).
Proof.
  intros Hp. destruct e; simpl; auto; apply lookup_total_alter_proj; auto.
Qed.

Lemma replay_log_proj {X} (proj : Value -> X) h evs i :
  (forall g v, proj (with_grad g v) = proj v) ->
  proj (replay_log h evs !!! i) = proj (h !!! i).
Proof.
  intros Hp. revert h. induction evs as [|e evs IH]; intros h; [done|].
  unfold replay_log in *. simpl. by rewrite IH, apply_event_proj.
Qed.

Lemma replay_log_data h evs i : data (replay_log h evs !!! i) = data (h !!! i).
Proof. by apply replay_log_proj. Qed.

Lemma replay_log_prev h evs i : _prev (replay_log h evs !!! i) = _prev (h !!! i).
Proof. by apply replay_log_proj. Qed.

Lemma replay_log_op h evs i : _op (replay_log h evs !!! i) = _op (h !!! i).
Proof. by apply replay_log_proj. Qed.

Lemma replay_log_backward h evs i :
  _backward (replay_log h evs !!! i) = _backward (h !!! i).
Proof. by apply replay_log_proj. Qed.

(** ** The [grad] after a replay *)

Lemma grad_alter_eq (f : Value -> Value) (n : nat) (h : list Value) :
  n < length h -> grad (alter f n h !!! n) = grad (f (h !!! n)).
Proof.
  intros Hn. rewrite !list_lookup_total_alt, list_lookup_alter_eq.
  destruct (lookup_lt_is_Some_2 h n Hn) as [v ->]. done.
Qed.

Lemma grad_alter_ne (f : Value -> Value) (t n : nat) (h : list Value) :
  t <> n -> grad (alter f t h !!! n) = grad (h !!! n).
Proof.
  intros Hne. by rewrite !list_lookup_total_alt, list_lookup_alter_ne.
Qed.

(** Events that do not name [n] leave its [grad] alone. *)
Lemma replay_log_grad_untouched h evs n :
  Forall (fun e => ~ touches n e) evs ->
  grad (replay_log h evs !!! n) = grad (h !!! n).
Proof.
  revert h. induction evs as [|e evs IH]; intros h Hall; [done|].
  apply Forall_cons in Hall as [He Hall].
  unfold replay_log in *. simpl. rewrite IH by done.
  destruct e; simpl in *; auto using grad_alter_ne.
Qed.

(** Without a seed on [n], its [grad] is the old one plus the logged
    contributions, added one after the other. *)
Lemma replay_log_grad_acc h evs n :
  n < length h ->
  Forall not_seed evs ->
  grad (replay_log h evs !!! n)
  = fold_left PrimFloat.add (contribs n evs) (grad (h !!! n)).
Proof.
  revert h. induction evs as [|e evs IH]; intros h Hn Hall; [done|].
  apply Forall_cons in Hall as [He Hall].
  unfold replay_log in *. simpl.
  rewrite IH by (by rewrite ?apply_event_length).
  destruct e as [r|m|t c]; simpl.
  - by destruct (He r).
  - done.
  - destruct (decide (t = n)) as [->|Hne]; simpl.
    + by rewrite grad_alter_eq.
    + by rewrite grad_alter_ne.
Qed.

(** ** The replay loop of [backward] *)

Lemma calls_of_app evs1 evs2 :
  calls_of (evs1 ++ evs2) = calls_of evs1 ++ calls_of evs2.
Proof. apply omap_app. Qed.

Lemma calls_of_acc ts evs : Forall (acc_into ts) evs -> calls_of evs = [].
Proof.
  induction 1 as [|e evs (t & c & -> & _) _ IH]; [done|]. simpl. exact IH.
Qed.

Lemma call_backward_events rt n s :
  exists accs,
    log (call_backward rt n s).2 = log s ++ EvCall n :: accs /\
    heap (call_backward rt n s).2 = replay_log (heap s) accs /\
    Forall (acc_into (closure_targets (_backward (heap s !!! n)))) accs.
Proof.
  unfold call_backward. munfold.
  destruct (writes_call rt (_backward (heap s !!! n))
              (mkState (heap s) (log s ++ [EvCall n]))) as (accs & Hl & Hh & HP).
  simpl in *. exists accs.
  destruct (call rt _ _) as [[[]|e] s1]; simpl in *;
    rewrite Hl, <- app_assoc; auto.
Qed.

Lemma replay_events rt l s :
  exists evs,
    log (for_each l (call_backward rt) s).2 = log s ++ evs /\
    heap (for_each l (call_backward rt) s).2 = replay_log (heap s) evs /\
    Forall (replay_event (heap s) l) evs /\
    calls_of evs `prefix_of` l /\
    ((for_each l (call_backward rt) s).1 = Ok tt -> calls_of evs = l).
Proof.
  revert s. induction l as [|n l IH]; intros s; simpl.
  - exists []. rewrite app_nil_r. by split_and!.
  - unfold mbind, M_bind.
    destruct (call_backward_events rt n s) as (accs & Hl & Hh & HP).
    pose proof (calls_of_acc _ _ HP) as Hc.
    assert (Hhere : Forall (replay_event (heap s) (n :: l)) (EvCall n :: accs)).
    { constructor.
      - left. exists n. split; [done|left].
      - eapply Forall_impl; [exact HP|]. intros e He. right. exists n.
        split; [left|done]. }
    destruct (call_backward rt n s) as [[[]|e] s1]; simpl in *.
    + destruct (IH s1) as (evs & Hl2 & Hh2 & HP2 & Hpre & Hok).
      exists ((EvCall n :: accs) ++ evs). split_and!.
      * by rewrite Hl2, Hl, <- app_assoc.
      * rewrite Hh2, Hh. change (EvCall n :: accs) with ([EvCall n] ++ accs).
        by rewrite <- app_assoc, !replay_log_app.
      * apply Forall_app. split; [done|].
        eapply Forall_impl; [exact HP2|]. intros e [(m & -> & Hm)|(m & Hm & He)].
        -- left. exists m. split; [done|by right].
        -- right. exists m. split; [by right|].
           by rewrite Hh, replay_log_backward in He.
      * rewrite calls_of_app. simpl. rewrite Hc. simpl. by apply prefix_cons.
      * intros Hres. rewrite calls_of_app. simpl. rewrite Hc. simpl.
        by rewrite Hok.
    + exists (EvCall n :: accs). split_and!; auto.
      * simpl. rewrite Hc. apply prefix_cons, prefix_nil.
      * done.
Qed.

(** ** The depth-first traversal *)

Lemma wf_parent_lt h c p : wf_heap h -> p ∈ _prev (h !!! c) -> p < c.
Proof.
  intros Hwf Hp. rewrite list_lookup_total_alt in Hp.
  destruct (h !! c) as [v|] eqn:Hc; simpl in Hp.
  - destruct (Hwf c v Hc) as [Hlt _]. by apply Hlt.
  - set_solver.
Qed.

Lemma reachable_le h root n : wf_heap h -> reachable h root n -> n <= root.
Proof.
  intros Hwf. induction 1 as [|c p n Hp _ IH]; [done|].
  apply (wf_parent_lt _ _ _ Hwf) in Hp. lia.
Qed.

Lemma topo_ordered_snoc h l v :
  topo_ordered h l ->
  (forall p, p ∈ _prev (h !!! v) -> p ∈ l) ->
  topo_ordered h (l ++ [v]).
Proof.
  intros Hord Hv j c p Hj Hp.
  destruct (decide (j < length l)) as [Hlt|Hge].
  - rewrite lookup_app_l in Hj by done.
    destruct (Hord j c p Hj Hp) as (i & Hi & Hli).
    exists i. split; [done|]. rewrite lookup_app_l; [done|lia].
  - rewrite lookup_app_r in Hj by lia.
    apply list_lookup_singleton_Some in Hj as [Hj0 <-].
    apply Hv, list_elem_of_lookup in Hp as [i Hi].
    exists i. pose proof (lookup_lt_Some _ _ _ Hi).
    split; [lia|]. by rewrite lookup_app_l.
Qed.

Lemma build_topo_visited rt fuel h v vt :
  v ∈ vt.1 -> build_topo rt (S fuel) h v vt = Some vt.
Proof. intros Hv. simpl. by rewrite decide_True. Qed.

Lemma build_topo_unvisited rt fuel h v vt :
  v ∉ vt.1 ->
  build_topo rt (S fuel) h v vt
  = foldl (fun acc parent => acc ≫= build_topo rt fuel h parent)
          (Some ({[v]} ∪ vt.1, vt.2)) (set_iter rt (_prev (h !!! v)))
    ≫= fun vt' => Some (vt'.1, vt'.2 ++ [v]).
Proof. intros Hv. simpl. by rewrite decide_False. Qed.

(** The loop over the parents, given that each single visit is right. *)
Lemma visit_parents rt h fuel :
  (forall v vt, v < fuel -> topo_inv h vt ->
     (forall n, n ∈ vt.1 -> n ∉ vt.2 -> v < n) ->
     exists vt', build_topo rt fuel h v vt = Some vt' /\ visit_post h [v] vt vt') ->
  forall ps vt,
    (forall p, p ∈ ps -> p < fuel) ->
    topo_inv h vt ->
    (forall n, n ∈ vt.1 -> n ∉ vt.2 -> forall p, p ∈ ps -> p < n) ->
    exists vt',
      foldl (fun acc parent => acc ≫= build_topo rt fuel h parent) (Some vt) ps
      = Some vt' /\
      visit_post h ps vt vt'.
Proof.
  intros Hrec ps. induction ps as [|p ps IH]; intros vt Hfuel Hinv Hstack.
  - exists vt. split; [done|]. exists []. rewrite app_nil_r.
    split_and!; auto; set_solver.
  - simpl.
    destruct (Hrec p vt) as (vt1 & Hrun & ext1 & Hext1 & Hinv1 & Hin1 & Hmono1 & Hst1 & Hreach1).
    { apply Hfuel. left. }
    { done. }
    { intros n Hn Hn'. apply (Hstack n Hn Hn'). left. }
    rewrite Hrun.
    destruct (IH vt1) as (vt2 & Hfold & ext2 & Hext2 & Hinv2 & Hin2 & Hmono2 & Hst2 & Hreach2).
    { intros q Hq. apply Hfuel. by right. }
    { done. }
    { intros n Hn Hn' q Hq. destruct (Hst1 n Hn Hn') as [Hv Ht].
      apply (Hstack n Hv Ht). by right. }
    exists vt2. split; [done|]. exists (ext1 ++ ext2). split_and!.
    + by rewrite Hext2, Hext1, app_assoc.
    + done.
    + intros q [->|Hq]%elem_of_cons; [|by apply Hin2].
      rewrite Hext2. apply elem_of_app. left. apply Hin1. left.
    + auto.
    + intros n Hn Hn'. destruct (Hst2 n Hn Hn') as [Hv Ht]. by apply Hst1.
    + intros n [Hn|Hn]%elem_of_app.
      * destruct (Hreach1 n Hn) as (q & ->%list_elem_of_singleton & Hq).
        exists p. split; [left|done].
      * destruct (Hreach2 n Hn) as (q & Hq & Hr). exists q. split; [by right|done].
Qed.

(** One visit of an unvisited node, given what the loop over its parents
    yields. *)
Lemma visit_node rt h v vt vt2 :
  wf_heap h -> set_iter_ok rt ->
  v ∉ vt.1 ->
  topo_inv h vt ->
  visit_post h (set_iter rt (_prev (h !!! v))) ({[v]} ∪ vt.1, vt.2) vt2 ->
  visit_post h [v] vt (vt2.1, vt2.2 ++ [v]).
Proof.
  intros Hwf Hiter Hv (Hnd & Hsub & Hord)
    (ext & Hext & (Hnd2 & Hsub2 & Hord2) & Hin & Hmono & Hst & Hreach).
  simpl in *.
  assert (Hparent : forall p, p ∈ set_iter rt (_prev (h !!! v)) -> p < v).
  { intros p Hp. apply Hiter in Hp. by apply (wf_parent_lt h). }
  assert (Hfresh : v ∉ vt2.2).
  { rewrite Hext. intros [Hv'|Hv']%elem_of_app; [by apply Hv, Hsub|].
    destruct (Hreach v Hv') as (p & Hp & Hr).
    apply (reachable_le _ _ _ Hwf) in Hr. apply Hparent in Hp. lia. }
  exists (ext ++ [v]). simpl. split_and!.
  - by rewrite Hext, app_assoc.
  - split_and!; simpl.
    + apply NoDup_app. split_and!; [done| |apply NoDup_singleton].
      intros n Hn ->%list_elem_of_singleton. done.
    + intros n [Hn| ->%list_elem_of_singleton]%elem_of_app; [by apply Hsub2|].
      apply Hmono, elem_of_union. left. by apply elem_of_singleton.
    + apply topo_ordered_snoc; [done|]. intros p Hp. by apply Hin, Hiter.
  - intros p ->%list_elem_of_singleton. apply elem_of_app. right. left.
  - intros n Hn. apply Hmono, elem_of_union. by right.
  - intros n Hn Hn'.
    assert (n ∉ vt2.2) as Hn2 by (intros ?; apply Hn', elem_of_app; by left).
    destruct (Hst n Hn Hn2) as [Hn3 Hn4]. split; [|done].
    apply elem_of_union in Hn3 as [->%elem_of_singleton|]; [|done].
    exfalso. apply Hn', elem_of_app. right. left.
  - intros n [Hn| ->%list_elem_of_singleton]%elem_of_app.
    + destruct (Hreach n Hn) as (p & Hp & Hr). exists v. split; [left|].
      eapply rtc_l; [|exact Hr]. simpl. by apply Hiter.
    + exists v. split; [left|apply rtc_refl].
Qed.

(** A visit with enough fuel returns, and returns the right thing. *)
Lemma build_topo_spec rt h :
  wf_heap h -> set_iter_ok rt ->
  forall fuel v vt,
    v < fuel -> topo_inv h vt ->
    (forall n, n ∈ vt.1 -> n ∉ vt.2 -> v < n) ->
    exists vt', build_topo rt fuel h v vt = Some vt' /\ visit_post h [v] vt vt'.
Proof.
  intros Hwf Hiter fuel. induction fuel as [|fuel IH]; intros v vt Hfuel Hinv Hstack.
  - lia.
  - destruct (decide (v ∈ vt.1)) as [Hv|Hv].
    + exists vt. split; [by apply build_topo_visited|].
      exists []. rewrite app_nil_r. split_and!; auto; [|set_solver].
      intros p Hp%list_elem_of_singleton. subst p.
      destruct (decide (v ∈ vt.2)) as [|Hp]; [done|].
      specialize (Hstack v Hv Hp). lia.
    + assert (Hparent : forall p, p ∈ set_iter rt (_prev (h !!! v)) -> p < v).
      { intros p Hp. apply Hiter in Hp. by apply (wf_parent_lt h). }
      destruct (visit_parents rt h fuel IH (set_iter rt (_prev (h !!! v)))
                  ({[v]} ∪ vt.1, vt.2)) as (vt2 & Hfold & Hpost).
      { intros p Hp. apply Hparent in Hp. lia. }
      { destruct Hinv as (Hnd & Hsub & Hord). split_and!; simpl; auto.
        intros n Hn. apply Hsub in Hn. set_solver. }
      { simpl. intros n Hn Hn' p Hp. apply Hparent in Hp.
        apply elem_of_union in Hn as [->%elem_of_singleton|Hn]; [done|].
        specialize (Hstack n Hn Hn'). lia. }
      exists (vt2.1, vt2.2 ++ [v]). split.
      * rewrite build_topo_unvisited by done. by rewrite Hfold.
      * by apply (visit_node rt).
Qed.

(** A list in which parents come first contains, with a node, all of its
    ancestors. *)
Lemma topo_ordered_closed h l c n :
  topo_ordered h l -> c ∈ l -> reachable h c n -> n ∈ l.
Proof.
  intros Hord Hc Hr. induction Hr as [|c p n Hp _ IH]; [done|].
  apply IH. apply list_elem_of_lookup in Hc as [j Hj].
  destruct (Hord j c p Hj Hp) as (i & _ & Hi).
  by apply list_elem_of_lookup_2 in Hi.
Qed.

(** The traversal from a root of a well-formed store. *)
Lemma build_topo_root rt h root :
  wf_heap h -> set_iter_ok rt -> root < length h ->
  exists visited T,
    build_topo rt (S (length h)) h root (∅, []) = Some (visited, T ++ [root]) /\
    NoDup (T ++ [root]) /\
    topo_ordered h (T ++ [root]) /\
    (forall n, n ∈ T ++ [root] <-> reachable h root n) /\
    (forall n, n ∈ T -> exists p, p ∈ _prev (h !!! root) /\ reachable h p n).
Proof.
  intros Hwf Hiter Hroot.
  assert (Hinv0 : topo_inv h (∅, [])).
  { split_and!; simpl; [constructor|set_solver|].
    intros j c p Hj. by rewrite lookup_nil in Hj. }
  assert (Hparent : forall p, p ∈ set_iter rt (_prev (h !!! root)) -> p < root).
  { intros p Hp. apply Hiter in Hp. by apply (wf_parent_lt h). }
  destruct (visit_parents rt h (length h) (build_topo_spec rt h Hwf Hiter (length h))
              (set_iter rt (_prev (h !!! root))) ({[root]} ∪ ∅, []))
    as (vt2 & Hfold & Hpost).
  { intros p Hp. apply Hparent in Hp. lia. }
  { split_and!; simpl; [constructor|set_solver|].
    intros j c p Hj. by rewrite lookup_nil in Hj. }
  { simpl. intros n Hn _ p Hp. apply Hparent in Hp.
    apply elem_of_union in Hn as [->%elem_of_singleton|Hn]; [done|].
    by apply not_elem_of_empty in Hn. }
  pose proof (visit_node rt h root (∅, []) vt2 Hwf Hiter) as Hnode.
  simpl in Hnode. specialize (Hnode (not_elem_of_empty _) Hinv0 Hpost).
  destruct Hpost as (T & HT & _ & _ & _ & _ & HreachT). simpl in HT.
  destruct Hnode as (ext & Hext & (Hnd & _ & Hord) & Hin & _ & _ & Hreach).
  simpl in Hext, Hnd, Hord, Hin, Hreach. subst ext.
  exists vt2.1, vt2.2. split_and!.
  - rewrite build_topo_unvisited by set_solver. simpl. by rewrite Hfold.
  - done.
  - done.
  - intros n. split.
    + intros Hn. destruct (Hreach n Hn) as (p & ->%list_elem_of_singleton & Hr). done.
    + apply topo_ordered_closed; [done|]. apply Hin. left.
  - intros n Hn. rewrite HT in Hn.
    destruct (HreachT n Hn) as (p & Hp & Hr). exists p. split; [|done].
    by apply Hiter.
Qed.

(** ** [backward] as a whole *)

Lemma backward_out_of_fuel rt root s :
  build_topo rt (S (length (heap s))) (heap s) root (∅, []) = None ->
  backward rt root s = (Raise RecursionError, s).
Proof. intros H. unfold backward. by rewrite H. Qed.

Lemma backward_unfold rt root s vt :
  build_topo rt (S (length (heap s))) (heap s) root (∅, []) = Some vt ->
  backward rt root s
  = (seed_grad root ;; for_each (rev vt.2) (call_backward rt)) s.
Proof. intros H. unfold backward. by rewrite H. Qed.

Lemma replay_event_heap h h' l e :
  (forall n, _backward (h' !!! n) = _backward (h !!! n)) ->
  replay_event h' l e -> replay_event h l e.
Proof.
  intros Hsame [(n & -> & Hn)|(n & Hn & He)].
  - left. eauto.
  - right. exists n. split; [done|]. by rewrite <- Hsame.
Qed.

Lemma replay_event_not_seed h l e : replay_event h l e -> not_seed e.
Proof.
  intros [(n & -> & _)|(n & _ & He)]; [done|].
  by eapply is_acc_not_seed, acc_into_is_acc.
Qed.

(** After the traversal: the seed, then the replay. *)
Lemma backward_events rt root s vt :
  build_topo rt (S (length (heap s))) (heap s) root (∅, []) = Some vt ->
  exists evs,
    log (backward rt root s).2 = log s ++ EvSeed root :: evs /\
    heap (backward rt root s).2 = replay_log (heap s) (EvSeed root :: evs) /\
    Forall (replay_event (heap s) (rev vt.2)) evs /\
    calls_of evs `prefix_of` rev vt.2 /\
    ((backward rt root s).1 = Ok tt -> calls_of evs = rev vt.2).
Proof.
  intros Htopo. rewrite (backward_unfold _ _ _ _ Htopo).
  unfold mbind, M_bind. simpl.
  set (s1 := mkState (alter (with_grad 1%float) root (heap s)) (log s ++ [EvSeed root])).
  destruct (replay_events rt (rev vt.2) s1) as (evs & Hl & Hh & HP & Hpre & Hok).
  exists evs. split_and!; [|exact Hh| |exact Hpre|exact Hok].
  - rewrite Hl. simpl. by rewrite <- app_assoc.
  - eapply Forall_impl; [exact HP|]. intros e. apply replay_event_heap.
    intros n. simpl. by apply lookup_total_alter_proj.
Qed.

(** ** What the operators allocate *)

Lemma alter_snoc {A} (f : A -> A) (l : list A) (x : A) :
  alter f (length l) (l ++ [x]) = l ++ [f x].
Proof. induction l as [|y l IH]; simpl; [done|]. by f_equal. Qed.

Lemma length_snoc {A} (l : list A) (x : A) : length (l ++ [x]) = S (length l).
Proof. rewrite length_app. simpl. lia. Qed.

Lemma lookup_total_snoc_old (h : list Value) (v : Value) i :
  i < length h -> (h ++ [v]) !!! i = h !!! i.
Proof. intros Hi. by rewrite lookup_total_app_l. Qed.

Lemma lookup_total_snoc_new (h : list Value) (v : Value) :
  (h ++ [v]) !!! length h = v.
Proof. by apply list_lookup_total_middle. Qed.

(** Allocation followed by [out._backward = c]. *)
Lemma alloc_spec d children o (c : ref -> closure) s :
  (out ← new_value d children o; set_backward out (c out) ;; mret out) s
  = (Ok (length (heap s)),
     push s [mkValue d 0%float (list_to_set children) o (c (length (heap s)))]).
Proof. munfold. simpl. unfold push. by rewrite alter_snoc. Qed.

Lemma add_node_spec self other s :
  __add__ self (ONode other) s
  = (Ok (length (heap s)),
     push s [mkValue (data (heap s !!! self) + data (heap s !!! other))%float
               0%float (list_to_set [self; other]) OpAdd
               (AddBackward self other (length (heap s)))]).
Proof.
  unfold __add__, as_value.
  exact (alloc_spec _ [self; other] OpAdd (AddBackward self other) s).
Qed.

Lemma mul_node_spec self other s :
  __mul__ self (ONode other) s
  = (Ok (length (heap s)),
     push s [mkValue (data (heap s !!! self) * data (heap s !!! other))%float
               0%float (list_to_set [self; other]) OpMul
               (MulBackward self other (length (heap s)))]).
Proof.
  unfold __mul__, as_value.
  exact (alloc_spec _ [self; other] OpMul (MulBackward self other) s).
Qed.

Lemma push_push s vs ws : push (push s vs) ws = push s (vs ++ ws).
Proof. unfold push. simpl. by rewrite app_assoc. Qed.

Lemma add_num_spec self x s :
  self < length (heap s) ->
  __add__ self (ONum x) s
  = (Ok (S (length (heap s))),
     push s [leaf x;
             mkValue (data (heap s !!! self) + x)%float
               0%float (list_to_set [self; length (heap s)]) OpAdd
               (AddBackward self (length (heap s)) (S (length (heap s))))]).
Proof.
  intros Hself. unfold __add__, as_value.
  pose proof (add_node_spec self (length (heap s)) (push s [leaf x])) as H.
  unfold __add__, as_value in H.
  unfold mbind at 1, M_bind at 1, new_value at 1.
  etrans; [exact H|]. simpl.
  rewrite length_snoc, lookup_total_snoc_old, lookup_total_snoc_new by done.
  by rewrite push_push.
Qed.

Lemma mul_num_spec self x s :
  self < length (heap s) ->
  __mul__ self (ONum x) s
  = (Ok (S (length (heap s))),
     push s [leaf x;
             mkValue (data (heap s !!! self) * x)%float
               0%float (list_to_set [self; length (heap s)]) OpMul
               (MulBackward self (length (heap s)) (S (length (heap s))))]).
Proof.
  intros Hself. unfold __mul__, as_value.
  pose proof (mul_node_spec self (length (heap s)) (push s [leaf x])) as H.
  unfold __mul__, as_value in H.
  unfold mbind at 1, M_bind at 1, new_value at 1.
  etrans; [exact H|]. simpl.
  rewrite length_snoc, lookup_total_snoc_old, lookup_total_snoc_new by done.
  by rewrite push_push.
Qed.

Lemma pow_num_spec rt self n s :
  __pow__ rt self (PyNum n) s
  = match float_pow rt (data (heap s !!! self)) n with
    | Ok p =>
        (Ok (length (heap s)),
         push s [mkValue p 0%float (list_to_set [self]) (OpPow n)
                   (PowBackward self n (length (heap s)))])
    | Raise e => (Raise e, s)
    end.
Proof.
  unfold __pow__. unfold mbind at 1, M_bind at 1, get_data at 1.
  unfold mbind at 1, M_bind at 1, lift at 1.
  destruct (float_pow rt _ n) as [p|e]; [|done].
  exact (alloc_spec p [self] (OpPow n) (PowBackward self n) s).
Qed.

Lemma pow_other_spec rt self exponent s :
  (forall n, exponent <> PyNum n) ->
  __pow__ rt self exponent s = (Raise AssertionError, s).
Proof. intros Hne. destruct exponent as [n| |]; [by destruct (Hne n)|done..]. Qed.

Lemma relu_spec self s :
  relu self s
  = (Ok (length (heap s)),
     push s [mkValue (max0 (data (heap s !!! self))) 0%float (list_to_set [self])
               OpReLU (ReluBackward self (length (heap s)))]).
Proof.
  unfold relu. unfold mbind at 1, M_bind at 1, get_data at 1.
  exact (alloc_spec _ [self] OpReLU (ReluBackward self) s).
Qed.

Lemma tanh_spec rt self s :
  tanh rt self s
  = (Ok (length (heap s)),
     push s [mkValue (math_tanh rt (data (heap s !!! self))) 0%float
               (list_to_set [self]) OpTanh
               (TanhBackward self (math_tanh rt (data (heap s !!! self)))
                  (length (heap s)))]).
Proof.
  unfold tanh. unfold mbind at 1, M_bind at 1, get_data at 1.
  exact (alloc_spec _ [self] OpTanh (TanhBackward self _) s).
Qed.

Lemma neg_spec self s :
  self < length (heap s) ->
  __neg__ self s
  = (Ok (S (length (heap s))),
     push s [leaf (-1)%float;
             mkValue (data (heap s !!! self) * -1)%float
               0%float (list_to_set [self; length (heap s)]) OpMul
               (MulBackward self (length (heap s)) (S (length (heap s))))]).
Proof. apply mul_num_spec. Qed.

Lemma lookup_total_app2_second (h : list Value) (x y : Value) :
  (h ++ [x; y]) !!! S (length h) = y.
Proof.
  change (h ++ [x; y]) with (h ++ [x] ++ [y]). rewrite app_assoc.
  apply list_lookup_total_middle. by rewrite length_snoc.
Qed.

Lemma length_app2 {A} (h : list A) (x y : A) :
  length (h ++ [x; y]) = S (S (length h)).
Proof. rewrite length_app. simpl. lia. Qed.

Lemma sub_node_spec self other s :
  self < length (heap s) -> other < length (heap s) ->
  __sub__ self (ONode other) s
  = (Ok (S (S (length (heap s)))),
     push s [leaf (-1)%float;
             mkValue (data (heap s !!! other) * -1)%float
               0%float (list_to_set [other; length (heap s)]) OpMul
               (MulBackward other (length (heap s)) (S (length (heap s))));
             mkValue (data (heap s !!! self) + data (heap s !!! other) * -1)%float
               0%float (list_to_set [self; S (length (heap s))]) OpAdd
               (AddBackward self (S (length (heap s))) (S (S (length (heap s)))))]).
Proof.
  intros Hself Hother. unfold __sub__.
  unfold mbind at 1, M_bind at 1. rewrite neg_spec by done.
  rewrite add_node_spec. simpl.
  rewrite length_app2, lookup_total_app_l, lookup_total_app2_second by done.
  by rewrite push_push.
Qed.

Lemma truediv_node_spec rt self other s :
  self < length (heap s) ->
  __truediv__ rt self (ONode other) s
  = match float_pow rt (data (heap s !!! other)) (-1)%float with
    | Ok p =>
        (Ok (S (length (heap s))),
         push s [mkValue p 0%float (list_to_set [other]) (OpPow (-1)%float)
                   (PowBackward other (-1)%float (length (heap s)));
                 mkValue (data (heap s !!! self) * p)%float
                   0%float (list_to_set [self; length (heap s)]) OpMul
                   (MulBackward self (length (heap s)) (S (length (heap s))))])
    | Raise e => (Raise e, s)
    end.
Proof.
  intros Hself. unfold __truediv__.
  unfold mbind at 1, M_bind at 1. rewrite pow_num_spec.
  destruct (float_pow rt _ _) as [p|e]; [|done].
  rewrite mul_node_spec. simpl.
  rewrite length_snoc, lookup_total_snoc_old, lookup_total_snoc_new by done.
  by rewrite push_push.
Qed.

(** A failed division by a [Value] leaves the state as it was, whatever
    the references are. *)
Lemma truediv_node_raise rt self other s e :
  float_pow rt (data (heap s !!! other)) (-1)%float = Raise e ->
  __truediv__ rt self (ONode other) s = (Raise e, s).
Proof.
  intros Hpow. unfold __truediv__.
  unfold mbind at 1, M_bind at 1. rewrite pow_num_spec. by rewrite Hpow.
Qed.

(** ** [softmax] *)

Lemma alter_middle {A} (f : A -> A) (l k : list A) (x : A) :
  alter f (length l) (l ++ x :: k) = l ++ f x :: k.
Proof. induction l as [|y l IH]; simpl; [done|]. by f_equal. Qed.

Lemma foldl_alter_seq {A} (f : A -> A) (h news : list A) :
  foldl (fun h o => alter f o h) (h ++ news) (seq (length h) (length news))
  = h ++ (f <$> news).
Proof.
  revert h. induction news as [|x news IH]; intros h; simpl; [done|].
  rewrite alter_middle.
  change (h ++ f x :: news) with (h ++ [f x] ++ news).
  rewrite app_assoc. rewrite <- (length_snoc h (f x)). rewrite IH.
  by rewrite <- app_assoc.
Qed.

Lemma set_backward_loop c outs s :
  for_each outs (fun o => set_backward o c) s
  = (Ok tt,
     mkState (foldl (fun h o => alter (with_backward c) o h) (heap s) outs) (log s)).
Proof.
  revert s. induction outs as [|o outs IH]; intros s; simpl.
  - by destruct s.
  - unfold mbind, M_bind, set_backward at 1. by rewrite IH.
Qed.

Lemma softmax_alloc_loop sum_exps l :
  (sum_exps =? 0)%float = false ->
  forall acc s,
    fold_each l acc
      (fun out ev =>
         q ← lift (float_truediv ev.1 sum_exps);
         o ← new_value q [ev.2] OpSoftmax;
         mret (out ++ [o])) s
    = (Ok (acc ++ seq (length (heap s)) (length l)),
       push s (softmax_node sum_exps NoOp <$> l)).
Proof.
  intros Hsum. induction l as [|ev l IH]; intros acc s; simpl.
  - unfold push. rewrite !app_nil_r. by destruct s.
  - unfold mbind at 1, M_bind at 1.
    unfold mbind at 1, M_bind at 1, lift at 1, float_truediv at 1.
    rewrite Hsum.
    unfold mbind at 1, M_bind at 1, new_value at 1.
    unfold mret at 1, M_ret at 1.
    rewrite IH. simpl. rewrite length_snoc.
    unfold push. simpl. by rewrite <- !app_assoc.
Qed.

Lemma softmax_alloc_raise sum_exps ev l acc s :
  (sum_exps =? 0)%float = true ->
  fold_each (ev :: l) acc
    (fun out ev =>
       q ← lift (float_truediv ev.1 sum_exps);
       o ← new_value q [ev.2] OpSoftmax;
       mret (out ++ [o])) s
  = (Raise ZeroDivisionError, s).
Proof.
  intros Hsum. simpl.
  unfold mbind at 1, M_bind at 1.
  unfold mbind at 1, M_bind at 1, lift at 1, float_truediv at 1.
  by rewrite Hsum.
Qed.

Lemma map_each_lift {A B} (f : A -> result B) (l : list A) s :
  map_each l (fun x => lift (f x)) s = (result_map f l, s).
Proof.
  induction l as [|x l IH]; simpl; [done|].
  unfold mbind at 1, M_bind at 1, lift at 1.
  destruct (f x) as [y|e]; [|done].
  unfold mbind at 1, M_bind at 1. rewrite IH.
  by destruct (result_map f l).
Qed.

Lemma result_map_length {A B} (f : A -> result B) (l : list A) (ys : list B) :
  result_map f l = Ok ys -> length ys = length l.
Proof.
  revert ys. induction l as [|x l IH]; intros ys; simpl.
  - by intros [= <-].
  - destruct (f x) as [y|e]; [|done].
    destruct (result_map f l) as [ys'|e]; [|done].
    intros [= <-]. simpl. by rewrite (IH ys').
Qed.

Lemma result_map_lookup {A B} (f : A -> result B) (l : list A) (ys : list B) i x :
  result_map f l = Ok ys -> l !! i = Some x ->
  exists y, ys !! i = Some y /\ f x = Ok y.
Proof.
  revert ys i. induction l as [|x' l IH]; intros ys i; simpl; [done|].
  destruct (f x') as [y'|e] eqn:Hfx; [|done].
  destruct (result_map f l) as [ys'|e]; [|done].
  intros [= <-]. destruct i as [|i]; simpl.
  - intros [= <-]. eauto.
  - intros Hi. by apply (IH ys').
Qed.


(** [softmax] in one piece. *)
Lemma softmax_spec rt values s :
  softmax rt values s
  = match py_max (datas_of s values) with
    | Raise e => (Raise e, s)
    | Ok max_val =>
        match softmax_exps rt (datas_of s values) max_val with
        | Raise e => (Raise e, s)
        | Ok exps =>
            if (py_sum exps =? 0)%float then (Raise ZeroDivisionError, s)
            else
              let out := seq (length (heap s)) (length values) in
              (Ok out,
               push s (softmax_node (py_sum exps) (SoftmaxBackward values out)
                         <$> zip exps values))
        end
    end.
Proof.
  unfold softmax.
  unfold mbind at 1, M_bind at 1, get_datas at 1.
  fold (datas_of s values).
  unfold mbind at 1, M_bind at 1, lift at 1.
  destruct (py_max _) as [max_val|e] eqn:Hmax; [|done].
  unfold mbind at 1, M_bind at 1. rewrite map_each_lift.
  fold (softmax_exps rt (datas_of s values) max_val).
  destruct (softmax_exps rt _ max_val) as [exps|e] eqn:Hexps; [|done].
  assert (Hlen : length (zip exps values) = length values).
  { rewrite length_zip_with. apply result_map_length in Hexps.
    unfold datas_of in Hexps. rewrite length_fmap in Hexps. lia. }
  destruct (py_sum exps =? 0)%float eqn:Hsum.
  - destruct values as [|v values]; [done|].
    destruct exps as [|e exps]; [done|].
    unfold mbind at 1, M_bind at 1. simpl zip.
    by rewrite (softmax_alloc_raise _ _ _ _ _ Hsum).
  - unfold mbind at 1, M_bind at 1.
    rewrite (softmax_alloc_loop _ _ Hsum). simpl app. rewrite Hlen.
    unfold mbind at 1, M_bind at 1.
    rewrite set_backward_loop. unfold mret, M_ret, push. simpl.
    rewrite <- Hlen at 2. rewrite <- (length_fmap (softmax_node (py_sum exps) NoOp)).
    rewrite foldl_alter_seq. rewrite <- list_fmap_compose. done.
Qed.

(** ** Well-formed stores *)

Lemma wf_heap_nil : wf_heap [].
Proof. intros i v Hi. by rewrite lookup_nil in Hi. Qed.

Lemma wf_heap_app h news :
  wf_heap h ->
  (forall k v, news !! k = Some v ->
     (forall p, p ∈ _prev v -> p < length h + k) /\
     (forall t, t ∈ closure_targets (_backward v) -> t < length h + k)) ->
  wf_heap (h ++ news).
Proof.
  intros Hwf Hnew i v Hi.
  apply lookup_app_Some in Hi as [Hi|[Hge Hi]]; [by apply Hwf|].
  destruct (Hnew _ _ Hi) as [Hp Ht].
  replace (length h + (i - length h)) with i in * by lia. done.
Qed.

Lemma wf_heap_snoc h v :
  wf_heap h ->
  (forall p, p ∈ _prev v -> p < length h) ->
  (forall t, t ∈ closure_targets (_backward v) -> t < length h) ->
  wf_heap (h ++ [v]).
Proof.
  intros Hwf Hp Ht. apply wf_heap_app; [done|].
  intros k w Hk. apply list_lookup_singleton_Some in Hk as [-> <-].
  rewrite Nat.add_0_r. done.
Qed.

Lemma wf_target_lt h n t :
  wf_heap h -> t ∈ closure_targets (_backward (h !!! n)) -> t < n.
Proof.
  intros Hwf Ht. rewrite list_lookup_total_alt in Ht.
  destruct (h !! n) as [v|] eqn:Hn; simpl in Ht.
  - destruct (Hwf n v Hn) as [_ Hlt]. by apply Hlt.
  - by apply elem_of_nil in Ht.
Qed.

(** Membership in a short list of references, then arithmetic. *)
Ltac refs_lt :=
  let p := fresh "p" in
  let Hp := fresh "Hp" in
  intros p Hp; set_unfold in Hp;
  repeat (destruct Hp as [Hp|Hp]);
  subst; simpl; first [lia | done].

Lemma ex_heap_built :
  (a ← new_value 2%float [] OpLeaf;
   b ← new_value 3%float [] OpLeaf;
   m ← __mul__ a (ONode b);
   __add__ m (ONode a)) s_empty
  = (Ok 3, ex_state).
Proof. vm_compute. reflexivity. Qed.

Lemma wf_ex_heap : wf_heap ex_heap.
Proof.
  intros i v Hi.
  destruct i as [|[|[|[|i]]]]; simpl in Hi; simplify_eq; simpl;
    split; refs_lt.
Qed.

(** ** The [grad] of a node all other nodes of the traversal precede

    When every parent of the root is [x] or older than [x], the closures
    called after the root's own belong to nodes no younger than [x], which
    add to nodes older than [x]: the [grad] of [x] is what the root's
    closure left. *)
Lemma backward_grad_after_root rt s root x :
  wf_heap (heap s) -> set_iter_ok rt -> root < length (heap s) ->
  (forall p, p ∈ _prev (heap s !!! root) -> p <= x) -> x < root ->
  grad (heap (backward rt root s).2 !!! x)
  = grad (heap (call rt (_backward (heap s !!! root))
                  (mkState (alter (with_grad 1%float) root (heap s))
                           (log s ++ [EvSeed root; EvCall root]))).2 !!! x).
Proof.
  intros Hwf Hiter Hroot Hparents Hx.
  destruct (build_topo_root rt (heap s) root Hwf Hiter Hroot)
    as (visited & T & Htopo & _ & _ & _ & HT).
  rewrite (backward_unfold _ _ _ _ Htopo). simpl snd.
  rewrite rev_unit. simpl for_each.
  unfold mbind at 1, M_bind at 1, seed_grad at 1.
  unfold mbind at 1, M_bind at 1.
  unfold call_backward at 1.
  unfold mbind at 1, M_bind at 1, get_backward at 1.
  unfold mbind at 1, M_bind at 1, note_call at 1.
  simpl heap. simpl log. rewrite <- app_assoc. simpl app.
  rewrite (lookup_total_alter_proj _backward) by done.
  set (s1 := mkState _ (log s ++ [EvSeed root; EvCall root])).
  destruct (writes_call rt (_backward (heap s !!! root)) s1) as (accs & _ & Hh1 & _).
  destruct (call rt (_backward (heap s !!! root)) s1) as [[[]|e] s2]; [|done].
  simpl in Hh1 |- *.
  destruct (replay_events rt (rev T) s2) as (evs & _ & Hh & HP & _).
  rewrite Hh. apply replay_log_grad_untouched.
  eapply Forall_impl; [exact HP|]. intros e [(n & -> & _)|(n & Hn & t & c & -> & Ht)].
  - simpl. tauto.
  - simpl. intros ->.
    rewrite Hh1, replay_log_backward in Ht.
    rewrite (lookup_total_alter_proj _backward) in Ht by done.
    apply (wf_target_lt _ _ _ Hwf) in Ht.
    apply list_elem_of_In, in_rev, list_elem_of_In in Hn.
    destruct (HT n Hn) as (p & Hp & Hr).
    apply (reachable_le _ _ _ Hwf) in Hr. apply Hparents in Hp. lia.
Qed.

(** * The scheduler *)



(** * The frame of [backward] *)

(** C10.  [backward] keeps the number of objects and, for every one of
    them, its [data], [_prev], [_op] and [_backward].  The store it leaves
    is the old one after the logged writes: none when the traversal fails,
    otherwise [root.grad = 1.0] followed by additions only.  So the [grad]
    of any other node ends as its old value plus the contributions, and the
    root's as [1.0] plus the contributions: a second call starts from what
    the first one left. *)
Theorem backward_frame rt root s :
  let s' := (backward rt root s).2 in
  length (heap s') = length (heap s) /\
  (forall i,
     data (heap s' !!! i) = data (heap s !!! i) /\
     _prev (heap s' !!! i) = _prev (heap s !!! i) /\
     _op (heap s' !!! i) = _op (heap s !!! i) /\
     _backward (heap s' !!! i) = _backward (heap s !!! i)) /\
  exists evs,
    log s' = log s ++ evs /\
    heap s' = replay_log (heap s) evs /\
    (evs = [] \/ exists accs, evs = EvSeed root :: accs /\ Forall not_seed accs) /\
    (forall n, n < length (heap s) -> n <> root ->
       grad (heap s' !!! n)
       = fold_left PrimFloat.add (contribs n evs) (grad (heap s !!! n))) /\
    (root < length (heap s) -> evs <> [] ->
       grad (heap s' !!! root)
       = fold_left PrimFloat.add (contribs root evs) 1%float).
Proof.
  intros s'.
  assert (Hevs : exists evs,
    log s' = log s ++ evs /\
    heap s' = replay_log (heap s) evs /\
    (evs = [] \/ exists accs, evs = EvSeed root :: accs /\ Forall not_seed accs)).
  { unfold s'.
    destruct (build_topo rt (S (length (heap s))) (heap s) root (∅, []))
      as [vt|] eqn:Htopo.
    - destruct (backward_events rt root s _ Htopo) as (evs & Hl & Hh & HP & _).
      exists (EvSeed root :: evs). split_and!; [done..|].
      right. exists evs. split; [done|].
      eapply Forall_impl; [exact HP|]. intros e. apply replay_event_not_seed.
    - rewrite (backward_out_of_fuel _ _ _ Htopo). exists [].
      rewrite app_nil_r. split_and!; auto. }
  destruct Hevs as (evs & Hl & Hh & Hshape).
  split_and!.
  - by rewrite Hh, replay_log_length.
  - intros i. rewrite Hh.
    by rewrite replay_log_data, replay_log_prev, replay_log_op, replay_log_backward.
  - exists evs. split_and!; try done.
    + intros n Hn Hne. rewrite Hh.
      destruct Hshape as [->|(accs & -> & Hacc)]; [done|].
      change (EvSeed root :: accs) with ([EvSeed root] ++ accs).
      rewrite replay_log_app, replay_log_grad_acc
        by (by rewrite ?replay_log_length).
      simpl. by rewrite grad_alter_ne.
    + intros Hroot Hne. rewrite Hh.
      destruct Hshape as [->|(accs & -> & Hacc)]; [done|].
      change (EvSeed root :: accs) with ([EvSeed root] ++ accs).
      rewrite replay_log_app, replay_log_grad_acc
        by (by rewrite ?replay_log_length).
      simpl. by rewrite grad_alter_eq.
Qed.

(** * IEEE facts the closures rely on *)

Lemma digits_shift52 (m : positive) :
  (Z.pos (digits2_pos
     (m~0~0~0~0~0~0~0~0~0~0~0~0~0~0~0~0~0~0~0~0~0~0~0~0~0~0
       ~0~0~0~0~0~0~0~0~0~0~0~0~0~0~0~0~0~0~0~0~0~0~0~0~0~0))
   = Z.pos (digits2_pos m) + 52)%Z.
Proof. cbn [digits2_pos]. lia. Qed.

(** [1.0 * y] is [y], bit for bit: the product of the mantissas is the
    mantissa of [y] shifted by the 52 places that rounding shifts back. *)
Lemma SFmul_one_l (y : spec_float) :
  valid_binary y = true ->
  SF64mul (S754_finite false 4503599627370496 (-52)) y = y.
Proof.
  destruct y as [s|s| |s m e]; intros Hv; try reflexivity.
  unfold SF64mul, SFmul. cbn [xorb].
  unfold valid_binary, bounded, canonical_mantissa in Hv.
  apply andb_prop in Hv as [Hc He].
  apply Z.eqb_eq in Hc.
  unfold binary_round_aux.
  change (Z.pos (4503599627370496 * m)) with
    (Z.pos (m~0~0~0~0~0~0~0~0~0~0~0~0~0~0~0~0~0~0~0~0~0~0~0~0~0~0
             ~0~0~0~0~0~0~0~0~0~0~0~0~0~0~0~0~0~0~0~0~0~0~0~0~0~0)).
  unfold shr_fexp at 1. unfold Zdigits2 at 1.
  rewrite digits_shift52.
  replace (Z.pos (digits2_pos m) + 52 + (-52 + e))%Z
    with (Z.pos (digits2_pos m) + e)%Z by lia.
  rewrite Hc.
  replace (e - (-52 + e))%Z with 52%Z by lia.
  unfold shr at 1. cbn [SpecFloat.iter_pos shr_1 shr_record_of_loc orb].
  cbn [shr_m loc_of_shr_record shr_r shr_s round_nearest_even].
  replace (-52 + e + 52)%Z with e by lia.
  unfold shr_fexp, Zdigits2. rewrite Hc.
  replace (e - e)%Z with 0%Z by lia. cbn [shr shr_record_of_loc shr_m].
  change (1024 - 53)%Z with 971%Z in *.
  rewrite He. reflexivity.
Qed.

Lemma mul_one_l (g : float) : (1 * g)%float = g.
Proof.
  apply Prim2SF_inj. rewrite FloatAxioms.mul_spec.
  change (Prim2SF 1) with (S754_finite false 4503599627370496 (-52)).
  apply SFmul_one_l, Prim2SF_valid.
Qed.



(** [True * g] is [g]. *)
Lemma float_of_bool_true_mul (g : float) : (float_of_bool true * g)%float = g.
Proof. apply mul_one_l. Qed.

(** Two floats that differ under [==] are different. *)
Lemma float_neq (x y : float) : (x =? y)%float = false -> (y =? y)%float = true -> x <> y.
Proof. intros Hxy Hyy ->. congruence. Qed.

(** ** Sums of floats that are not negative *)

Section IEEE.
Local Open Scope Z_scope.














(** ** Order and subtraction *)

Lemma pos_compare_cont_eq (a b : positive) :
  Pos.compare_cont Eq a b = (Z.pos a ?= Z.pos b).
Proof. reflexivity. Qed.












End IEEE.









(** * Fan-out: [y = x + x] *)

(** The closure of [x + x], called on the seeded store. *)
Lemma add_self_call rt (h : list Value) (v : Value) (x : ref) lg :
  x < length h ->
  grad (heap (call rt (AddBackward x x (length h))
                (mkState (alter (with_grad 1%float) (length h) (h ++ [v])) lg)).2
        !!! x)
  = (grad (h !!! x) + 1 + 1)%float.
Proof.
  intros Hx. rewrite alter_snoc. simpl. munfold. simpl.
  assert (Hne : x <> length h) by lia.
  rewrite grad_alter_eq by (rewrite length_alter, length_snoc; lia).
  simpl.
  rewrite (grad_alter_ne _ x (length h)) by done.
  rewrite grad_alter_eq by (rewrite length_snoc; lia).
  simpl.
  rewrite lookup_total_snoc_new, lookup_total_snoc_old by done.
  done.
Qed.

Lemma add_self_backward_grad rt s x :
  wf_heap (heap s) -> set_iter_ok rt -> x < length (heap s) ->
  grad (heap (backward rt (length (heap s)) (__add__ x (ONode x) s).2).2 !!! x)
  = (grad (heap s !!! x) + 1 + 1)%float.
Proof.
  intros Hwf Hiter Hx. rewrite add_node_spec. simpl snd.
  rewrite backward_grad_after_root.
  - unfold push. simpl heap. rewrite lookup_total_snoc_new. simpl _backward.
    apply add_self_call. done.
  - unfold push. simpl. apply wf_heap_snoc; [done|..]; simpl; refs_lt.
  - done.
  - unfold push. simpl. rewrite length_snoc. lia.
  - unfold push. simpl heap. rewrite lookup_total_snoc_new. simpl. refs_lt.
  - done.
Qed.

(** C3, amended.  A closure only ever adds to [grad] fields.  For every
    node [x] of a well-formed store, [y = x + x] followed by [y.backward()]
    adds [1.0] to [x.grad] twice: [x.grad] ends as [(g + 1.0) + 1.0] for
    the [g] it had, which is [2.0] when [g] was the initial [0.0]. *)
Theorem add_self_backward rt s x :
  wf_heap (heap s) -> set_iter_ok rt -> x < length (heap s) ->
  (forall c, writes is_acc (call rt c)) /\
  exists s1,
    __add__ x (ONode x) s = (Ok (length (heap s)), s1) /\
    grad (heap (backward rt (length (heap s)) s1).2 !!! x)
    = (grad (heap s !!! x) + 1 + 1)%float /\
    (grad (heap s !!! x) = 0%float ->
     grad (heap (backward rt (length (heap s)) s1).2 !!! x) = 2%float).
Proof.
  intros Hwf Hiter Hx. split.
  { intros c. eapply writes_weaken; [|apply writes_call].
    intros e. apply acc_into_is_acc. }
  pose proof (add_self_backward_grad rt s x Hwf Hiter Hx) as Hgrad.
  exists (__add__ x (ONode x) s).2. split_and!.
  - by rewrite add_node_spec.
  - exact Hgrad.
  - intros Hzero. rewrite Hgrad, Hzero. reflexivity.
Qed.

Lemma add_self_backward_witness :
  exists s1,
    __add__ 1 (ONode 1) ex_state = (Ok 4, s1) /\
    grad (heap (backward model_rt 4 s1).2 !!! 1) = 2%float.
Proof.
  destruct (add_self_backward model_rt ex_state 1) as (_ & s1 & Hadd & _ & Hz).
  - apply wf_ex_heap.
  - apply set_iter_ok_model.
  - simpl. lia.
  - exists s1. split; [exact Hadd|]. apply Hz. reflexivity.
Defined.

(** C3 as stated fails on a node that an earlier [backward] reached: its
    [grad] ends at [4.0], and [4.0 == 2.0] is false. *)
Lemma add_self_backward_stale_grad :
  fst (stale_grad_prog s_empty) = Ok 4%float /\ (4 =? 2)%float = false.
Proof. split; vm_compute; reflexivity. Qed.

(** * [relu] *)






(** C5 as stated fails when [out.grad] is infinite.  In
    [r = Value(0.0).relu() * 2.0**600 * 2.0**600] the two products pass
    [out.grad = inf] to the closure of [relu]; its gate is closed, and what
    it adds to [x.grad] is [0 * inf], NaN, not [0]. *)
Lemma relu_closed_gate_nan :
  fst (relu_overflow_prog s_empty) = Ok nan /\ (nan =? 0)%float = false.
Proof. split; vm_compute; reflexivity. Qed.

(** * Failures at construction *)

Lemma pow_zero_raises_model : pow_zero_raises model_rt.
Proof.
  intros x Hx. simpl. unfold model_pow.
  change (-1 =? 0)%float with false. change (-1 <? 0)%float with true.
  by rewrite Hx.
Qed.

(** C6.  Dividing a node by a node whose [data] is zero raises
    [ZeroDivisionError] from the construction itself, when [0 ** -1] is
    evaluated: the call returns the error with the state it was given, so
    no object was allocated and none was changed, and no closure exists
    that could fail later. *)
Theorem truediv_by_zero rt s a b :
  pow_zero_raises rt ->
  (data (heap s !!! b) =? 0)%float = true ->
  __truediv__ rt a (ONode b) s = (Raise ZeroDivisionError, s).
Proof.
  intros Hpow Hb. apply truediv_node_raise. by apply Hpow.
Qed.

Lemma truediv_by_zero_witness :
  __truediv__ model_rt 0 (ONode 1) zero_divisor_state
  = (Raise ZeroDivisionError, zero_divisor_state).
Proof.
  apply (truediv_by_zero model_rt zero_divisor_state 0 1).
  - apply pow_zero_raises_model.
  - reflexivity.
Defined.

(** The closure of [**], called on any store. *)
Lemma pow_call_any rt self n out st :
  call rt (PowBackward self n out) st
  = match float_pow rt (data (heap st !!! self)) (n - 1)%float with
    | Ok p => iadd_grad self (n * p * grad (heap st !!! out))%float st
    | Raise e => (Raise e, st)
    end.
Proof. simpl. munfold. by destruct (float_pow rt _ _). Qed.

(** C7, amended.  An exponent that is not a number makes [**] raise
    [AssertionError] and leaves the state as it was.  With a number [n],
    [**] evaluates [a.data ** n]: when that raises, the construction raises
    the same error and leaves the state as it was; otherwise the result is
    a new node with that value, [a] as its parent and a closure that, when
    [a.data ** (n - 1)] evaluates to [p], adds [n * p * out.grad] to
    [a.grad], and raises without a write when it does not. *)
Theorem pow_construction rt s a :
  (forall exponent, (forall n, exponent <> PyNum n) ->
     __pow__ rt a exponent s = (Raise AssertionError, s)) /\
  (forall v, __pow__ rt a (PyValue v) s = (Raise AssertionError, s)) /\
  (forall n,
     match float_pow rt (data (heap s !!! a)) n with
     | Ok p =>
         __pow__ rt a (PyNum n) s
         = (Ok (length (heap s)),
            push s [mkValue p 0%float (list_to_set [a]) (OpPow n)
                      (PowBackward a n (length (heap s)))])
     | Raise e => __pow__ rt a (PyNum n) s = (Raise e, s)
     end) /\
  (forall n out st,
     match float_pow rt (data (heap st !!! a)) (n - 1)%float with
     | Ok p =>
         call rt (PowBackward a n out) st
         = iadd_grad a (n * p * grad (heap st !!! out))%float st
     | Raise e => call rt (PowBackward a n out) st = (Raise e, st)
     end).
Proof.
  split_and!.
  - intros exponent Hne. by apply pow_other_spec.
  - intros v. done.
  - intros n. rewrite pow_num_spec. by destruct (float_pow rt _ n).
  - intros n out st. rewrite pow_call_any. by destruct (float_pow rt _ _).
Qed.

(** C7 as stated fails for a zero base and the numeric exponent [-1]: the
    construction raises [ZeroDivisionError]. *)
Lemma pow_zero_negative_raises :
  __pow__ model_rt 0 (PyNum (-1)%float) zero_base_state
  = (Raise ZeroDivisionError, zero_base_state).
Proof. reflexivity. Qed.

(** C8.  [softmax] of an empty sequence raises [ValueError] from the call
    itself, [max] having nothing to choose from, and returns the state it
    was given: no output exists and no object changed. *)
Theorem softmax_empty rt s :
  softmax rt [] s = (Raise ValueError, s).
Proof. by rewrite softmax_spec. Qed.

(** * Parents *)

(** A decidable closed proposition, settled by evaluation. *)
Ltac decide_eval :=
  match goal with
  | |- ?P =>
      let d := constr:(_ : Decision P) in
      apply (@bool_decide_unpack P d); vm_compute; exact I
  end.

Lemma children1 (a : ref) : (list_to_set [a] : gset ref) = {[a]}.
Proof. simpl. by rewrite (right_id_L ∅ (∪)). Qed.


(** The [k]-th of the objects pushed onto a store. *)
Lemma allocated_push s news k v :
  news !! k = Some v ->
  allocated s (push s news) (length (heap s) + k) (_prev v).
Proof.
  intros Hk. pose proof (lookup_lt_Some _ _ _ Hk) as Hlt.
  unfold allocated, push. simpl. split_and!.
  - by apply prefix_app_r.
  - lia.
  - rewrite length_app. lia.
  - rewrite lookup_total_app_r by lia.
    replace (length (heap s) + k - length (heap s)) with k by lia.
    by rewrite (list_lookup_total_correct _ _ _ Hk).
Qed.




Lemma push_lookup_0 s v news : heap (push s (v :: news)) !!! length (heap s) = v.
Proof. unfold push. simpl. by apply list_lookup_total_middle. Qed.

(** The outputs of [softmax]: as many as the inputs, each a new object with
    one parent, the input at its own position. *)
Lemma softmax_outputs rt values s outs s1 :
  softmax rt values s = (Ok outs, s1) ->
  outs = seq (length (heap s)) (length values) /\
  forall i v, values !! i = Some v ->
    allocated s s1 (length (heap s) + i) {[v]}.
Proof.
  rewrite softmax_spec.
  destruct (py_max _) as [max_val|e]; [|done].
  destruct (softmax_exps rt _ max_val) as [exps|e] eqn:Hexps; [|done].
  destruct (_ =? 0)%float; [done|]. cbn zeta.
  intros [= <- <-]. split; [done|].
  intros i v Hv.
  destruct (result_map_lookup _ _ _ i (data (heap s !!! v)) Hexps) as (e & He & _).
  { unfold datas_of. by rewrite list_lookup_fmap, Hv. }
  rewrite <- (children1 v).
  apply (allocated_push s _ i
           (softmax_node (py_sum exps)
              (SoftmaxBackward values (seq (length (heap s)) (length values)))
              (e, v))).
  rewrite list_lookup_fmap.
  assert (Hz : zip exps values !! i = Some (e, v)).
  { apply lookup_zip_with_Some. eauto. }
  by rewrite Hz.
Qed.




(** The outputs of [softmax] are outside that statement.  Line 105 gives
    the output at position [i] the one parent [values[i]], while the closure
    all outputs share writes the [grad] of every input: of
    [softmax([a, b])] the first output has [a] alone. *)
Lemma softmax_output_single_parent :
  fst (softmax model_rt [0; 1] two_ones_state) = Ok [2; 3] /\
  _prev (heap (snd (softmax model_rt [0; 1] two_ones_state)) !!! 2) = {[0]} /\
  (1 ∉ _prev (heap (snd (softmax model_rt [0; 1] two_ones_state)) !!! 2)).
Proof.
  split_and!.
  - vm_compute. reflexivity.
  - vm_compute. reflexivity.
  - decide_eval.
Qed.

(** So [backward] from one output never reaches what another input was
    computed from.  With [b = x * 3.0], after [softmax([a, b])[0].backward()]
    the [grad] of [b] is [-0.25] and the closure of [b] has not run: the
    [grad] of [x] is still [0.0], where the derivative is [-0.75]. *)
Lemma softmax_backward_misses_input :
  fst (softmax_below_input_prog model_rt s_empty) = Ok ((-0.25)%float, 0%float) /\
  fst (softmax_below_input_prog model_rt_rev s_empty) = Ok ((-0.25)%float, 0%float).
Proof. split; vm_compute; reflexivity. Qed.

(** * The values of [softmax] *)















(** * The closure shared by the outputs of [softmax] *)

(** When [backward] returns, it has called the closure of every node
    reachable from the root, each of them once. *)
Lemma backward_calls_reachable rt s root :
  wf_heap (heap s) -> set_iter_ok rt -> root < length (heap s) ->
  fst (backward rt root s) = Ok tt ->
  exists evs,
    log (snd (backward rt root s)) = log s ++ evs /\
    NoDup (calls_of evs) /\
    forall n, n ∈ calls_of evs <-> reachable (heap s) root n.
Proof.
  intros Hwf Hiter Hroot Hok.
  destruct (build_topo_root rt (heap s) root Hwf Hiter Hroot)
    as (visited & T & Htopo & Hnd & _ & Hreach & _).
  destruct (backward_events rt root s _ Htopo) as (evs & Hl & _ & _ & _ & Hcalls).
  specialize (Hcalls Hok). simpl in Hcalls.
  exists (EvSeed root :: evs). split_and!.
  - exact Hl.
  - simpl. rewrite Hcalls. by apply NoDup_ListNoDup, NoDup_rev, NoDup_ListNoDup.
  - intros n. simpl. rewrite Hcalls, <- Hreach.
    rewrite !list_elem_of_In. symmetry. apply in_rev.
Qed.

(** C1, on the code.  With two outputs of one [softmax] reachable from the
    root, [backward] calls their shared closure twice, once for each
    output, whichever way the sets are enumerated; the [grad] of the first
    input ends at [0.0] or at [0.5], where one joint step on the final
    output gradients would leave [0.25]. *)
Theorem shared_step_called_twice :
  (fst (shared_step_prog model_rt s_empty) = Ok tt /\
   shared_step_calls [0; 1] [2; 3] (snd (shared_step_prog model_rt s_empty)) = 2 /\
   calls_of (log (snd (shared_step_prog model_rt s_empty))) = [6; 3; 1; 5; 2; 0; 4] /\
   grad (heap (snd (shared_step_prog model_rt s_empty)) !!! 0) = 0%float) /\
  (fst (shared_step_prog model_rt_rev s_empty) = Ok tt /\
   shared_step_calls [0; 1] [2; 3] (snd (shared_step_prog model_rt_rev s_empty)) = 2 /\
   calls_of (log (snd (shared_step_prog model_rt_rev s_empty))) = [6; 5; 4; 2; 0; 3; 1] /\
   grad (heap (snd (shared_step_prog model_rt_rev s_empty)) !!! 0) = 0.5%float).
Proof. split; split_and!; vm_compute; reflexivity. Qed.

(** * What a closure does *)

Lemma bind_run {A B} (m : M A) (f : A -> M B) s :
  (m ≫= f) s
  = match m s with
    | (Ok a, s') => f a s'
    | (Raise e, s') => (Raise e, s')
    end.
Proof. reflexivity. Qed.

Lemma state_eta s : mkState (heap s) (log s) = s.
Proof. by destruct s. Qed.

Lemma acc_all_spec l s :
  acc_all l s
  = (Ok tt, mkState (replay_log (heap s) (acc_events l)) (log s ++ acc_events l)).
Proof.
  revert s. induction l as [|[t c] l IH]; intros s.
  - simpl. rewrite app_nil_r. by destruct s.
  - change (acc_all ((t, c) :: l) s) with ((iadd_grad t c ;; acc_all l) s).
    unfold mbind, M_bind, iadd_grad. rewrite IH. simpl. by rewrite <- app_assoc.
Qed.

Lemma acc_all_app l1 l2 s :
  acc_all (l1 ++ l2) s = (acc_all l1 ;; acc_all l2) s.
Proof.
  unfold mbind, M_bind. rewrite !acc_all_spec. simpl.
  unfold acc_events. rewrite fmap_app, replay_log_app, app_assoc. done.
Qed.

Lemma for_each_acc_all {A} (I : list Value -> Prop) (l : list A)
    (body : A -> M unit) (f : A -> list (ref * float)) :
  (forall x s, x ∈ l -> I (heap s) -> body x s = acc_all (f x) s) ->
  (forall x h, x ∈ l -> I h -> I (replay_log h (acc_events (f x)))) ->
  forall s, I (heap s) -> for_each l body s = acc_all (l ≫= f) s.
Proof.
  induction l as [|x l IH]; intros Hbody Hinv s Hs; simpl.
  - by rewrite acc_all_spec, app_nil_r; destruct s.
  - rewrite acc_all_app, !bind_run.
    rewrite Hbody by (done || left). rewrite acc_all_spec.
    apply IH.
    + intros y s' Hy. apply Hbody. by right.
    + intros y h Hy. apply Hinv. by right.
    + simpl. apply Hinv; [left|done].
Qed.

Lemma acc_events_untouched (l : list (ref * float)) (r : ref) :
  (forall p, p ∈ l -> p.1 <> r) ->
  Forall (fun e => ~ touches r e) (acc_events l).
Proof.
  intros Hl. apply Forall_fmap, Forall_forall. intros p Hp. simpl. by apply Hl.
Qed.

Lemma softmax_contributions_targets h values out p :
  p ∈ softmax_contributions h values out -> p.1 ∈ values.
Proof.
  unfold softmax_contributions. intros Hp.
  apply list_elem_of_bind in Hp as (i & Hp & _).
  apply list_elem_of_bind in Hp as (j & Hp & Hj).
  apply list_elem_of_singleton in Hp as ->. simpl.
  apply elem_of_seq in Hj. apply list_elem_of_lookup_total_2. lia.
Qed.

Lemma softmax_backward_contributions values out s :
  (forall r, r ∈ closure_reads (SoftmaxBackward values out) -> r ∉ values) ->
  softmax_backward values out s
  = acc_all (softmax_contributions (heap s) values out) s.
Proof.
  intros Hdisj. unfold softmax_backward, softmax_contributions.
  set (h0 := heap s).
  set (I := fun h : list Value =>
              (forall i, data (h !!! i) = data (h0 !!! i)) /\
              (forall i, i < length values ->
                 grad (h !!! (out !!! i)) = grad (h0 !!! (out !!! i)))).
  assert (Hinv : forall h l, (forall p, p ∈ l -> p.1 ∈ values) -> I h ->
                   I (replay_log h (acc_events l))).
  { intros h l Hl [Hd Hg]. split.
    - intros i. by rewrite replay_log_data.
    - intros i Hi. rewrite replay_log_grad_untouched; [by apply Hg|].
      apply acc_events_untouched. intros p Hp Heq. apply Hl in Hp.
      apply (Hdisj (out !!! i)); [|by rewrite <- Heq].
      simpl. apply list_elem_of_fmap. exists i. split; [done|].
      apply elem_of_seq. lia. }
  apply (for_each_acc_all I).
  - intros i s1 Hi HI. apply elem_of_seq in Hi as [_ Hi]. simpl in Hi.
    apply (for_each_acc_all I).
    + intros j s2 Hj [Hd Hg]. apply elem_of_seq in Hj as [_ Hj]. simpl in Hj.
      rewrite !bind_run. unfold get_grad at 1. rewrite !bind_run.
      unfold get_data at 1. rewrite !bind_run. unfold get_data at 1.
      rewrite !Hd, Hg by done.
      destruct (decide (i = j)); by rewrite acc_all_spec.
    + intros j h Hj HIh. apply Hinv; [|done].
      intros p ->%list_elem_of_singleton. simpl.
      apply elem_of_seq in Hj. apply list_elem_of_lookup_total_2. lia.
    + done.
  - intros i h Hi HIh. apply Hinv; [|done].
    intros p Hp. apply list_elem_of_bind in Hp as (j & Hp & Hj).
    apply list_elem_of_singleton in Hp as ->. simpl.
    apply elem_of_seq in Hj. apply list_elem_of_lookup_total_2. lia.
  - done.
Qed.

Lemma call_as_contributions rt c s :
  (forall r, r ∈ closure_reads c -> r ∉ closure_targets c) ->
  call rt c s
  = match contributions rt (heap s) c with
    | Ok l =>
        (Ok tt, mkState (replay_log (heap s) (acc_events l)) (log s ++ acc_events l))
    | Raise e => (Raise e, s)
    end.
Proof.
  intros Hdisj. destruct c as [|x y o|x y o|x n o|x o|x t o|values out]; simpl.
  - by rewrite app_nil_r, state_eta.
  - assert (Hx : x <> o).
    { intros ->. apply (Hdisj o); simpl; set_solver. }
    munfold. simpl. rewrite grad_alter_ne by done. by rewrite <- app_assoc.
  - assert (Hx : x <> o).
    { intros ->. apply (Hdisj o); simpl; set_solver. }
    munfold. simpl. rewrite grad_alter_ne by done.
    rewrite (lookup_total_alter_proj data) by done. by rewrite <- app_assoc.
  - munfold. by destruct (float_pow rt _ _).
  - munfold. done.
  - munfold. by destruct (float_pow rt _ _).
  - rewrite softmax_backward_contributions by done. apply acc_all_spec.
Qed.

Lemma contributions_targets rt h c l p :
  contributions rt h c = Ok l -> p ∈ l -> p.1 ∈ closure_targets c.
Proof.
  destruct c as [|x y o|x y o|x n o|x o|x t o|values out]; simpl.
  - intros [= <-] Hp. by apply elem_of_nil in Hp.
  - intros [= <-] Hp. apply elem_of_cons in Hp as [->|Hp]; [left|].
    apply list_elem_of_singleton in Hp as ->. right. left.
  - intros [= <-] Hp. apply elem_of_cons in Hp as [->|Hp]; [left|].
    apply list_elem_of_singleton in Hp as ->. right. left.
  - destruct (float_pow rt _ _); [|done]. intros [= <-] Hp.
    apply list_elem_of_singleton in Hp as ->. left.
  - intros [= <-] Hp. apply list_elem_of_singleton in Hp as ->. left.
  - destruct (float_pow rt _ _); [|done]. intros [= <-] Hp.
    apply list_elem_of_singleton in Hp as ->. left.
  - intros [= <-]. apply softmax_contributions_targets.
Qed.

Lemma list_bind_ext_in {A B} (f g : A -> list B) (l : list A) :
  (forall x, x ∈ l -> f x = g x) -> l ≫= f = l ≫= g.
Proof.
  induction l as [|x l IH]; intros H; [done|]. simpl.
  rewrite (H x) by left. f_equal. apply IH. intros y Hy. apply H. by right.
Qed.

Lemma contributions_view rt h h' c :
  (forall i, data (h' !!! i) = data (h !!! i)) ->
  (forall r, r ∈ closure_reads c -> grad (h' !!! r) = grad (h !!! r)) ->
  contributions rt h' c = contributions rt h c.
Proof.
  intros Hd Hg.
  destruct c as [|x y o|x y o|x n o|x o|x t o|values out]; simpl in *;
    rewrite ?Hd, ?(Hg o) by set_solver; try done.
  f_equal. unfold softmax_contributions.
  assert (Hread : forall i, i ∈ seq 0 (length values) ->
            grad (h' !!! (out !!! i)) = grad (h !!! (out !!! i))).
  { intros i Hi. apply Hg. apply list_elem_of_fmap. by exists i. }
  apply list_bind_ext_in. intros i Hi.
  apply list_bind_ext_in. intros j Hj.
  by rewrite !Hd, Hread.
Qed.

Lemma contribs_acc_cons (t : ref) (c : float) l (n : ref) :
  contribs n (acc_events ((t, c) :: l))
  = if decide (t = n) then c :: contribs n (acc_events l)
    else contribs n (acc_events l).
Proof. simpl. by destruct (decide (t = n)). Qed.

Lemma contribs_acc_nil (n : ref) : contribs n (acc_events []) = [].
Proof. done. Qed.

Lemma contribs_app t evs1 evs2 :
  contribs t (evs1 ++ evs2) = contribs t evs1 ++ contribs t evs2.
Proof. apply omap_app. Qed.

Lemma acc_events_app l1 l2 :
  acc_events (l1 ++ l2) = acc_events l1 ++ acc_events l2.
Proof. apply fmap_app. Qed.

Lemma contribs_bind {A} (t : ref) (l : list A) (g : A -> list (ref * float)) :
  contribs t (acc_events (l ≫= g))
  = l ≫= (fun a => contribs t (acc_events (g a))).
Proof.
  induction l as [|a l IH]; [done|].
  change ((a :: l) ≫= g) with (g a ++ (l ≫= g)).
  rewrite acc_events_app, contribs_app, IH. done.
Qed.

Lemma bind_singleton_fmap {A B} (f : A -> B) (l : list A) :
  l ≫= (fun a => [f a]) = f <$> l.
Proof. induction l as [|a l IH]; [done|]. simpl. by f_equal. Qed.

Lemma bind_select {A} (P : nat -> Prop) `{!forall i, Decision (P i)}
    (h : nat -> A) (js : list nat) (j : nat) :
  NoDup js -> j ∈ js -> (forall i, i ∈ js -> P i <-> i = j) ->
  js ≫= (fun i => if decide (P i) then [h i] else []) = [h j].
Proof.
  induction js as [|a js IH]; intros Hnd Hj HP.
  - by apply elem_of_nil in Hj.
  - apply NoDup_cons in Hnd as [Ha Hnd].
    change ((a :: js) ≫= (fun i => if decide (P i) then [h i] else []))
      with ((if decide (P a) then [h a] else [])
            ++ (js ≫= (fun i => if decide (P i) then [h i] else []))).
    apply elem_of_cons in Hj as [->|Hj].
    + rewrite decide_True by (apply HP; [left|done]).
      assert (Hrest : js ≫= (fun i => if decide (P i) then [h i] else []) = []).
      { clear IH. induction js as [|b js IHjs]; [done|].
        change ((b :: js) ≫= (fun i => if decide (P i) then [h i] else []))
          with ((if decide (P b) then [h b] else [])
                ++ (js ≫= (fun i => if decide (P i) then [h i] else []))).
        apply NoDup_cons in Hnd as [Hb Hnd].
        rewrite decide_False.
        - apply IHjs; [|done|].
          + intros Hin. apply Ha. by right.
          + intros i Hi. apply HP.
            apply elem_of_cons in Hi as [->|Hi]; [left|right; by right].
        - intros HPb. apply HP in HPb; [|right; left]. subst b.
          apply Ha. left. }
      by rewrite Hrest.
    + rewrite decide_False.
      * apply IH; [done..|]. intros i Hi. apply HP. by right.
      * intros HPa. apply HP in HPa; [|left]. by subst a.
Qed.

(** The contributions of [softmax]'s closure to one input: one per
    output, in the order of the outputs. *)
Lemma softmax_contribs_row h values out j :
  NoDup values -> j < length values ->
  contribs (values !!! j) (acc_events (softmax_contributions h values out))
  = (fun i =>
       if decide (i = j)
       then (grad (h !!! (out !!! i)) * data (h !!! (out !!! i))
             * (1 - data (h !!! (out !!! j))))%float
       else (- grad (h !!! (out !!! i)) * data (h !!! (out !!! i))
             * data (h !!! (out !!! j)))%float)
    <$> seq 0 (length values).
Proof.
  intros Hnd Hj. unfold softmax_contributions. rewrite contribs_bind.
  rewrite <- bind_singleton_fmap. apply list_bind_ext_in. intros i Hi.
  rewrite contribs_bind.
  etrans; [|apply (bind_select (fun j' => values !!! j' = values !!! j)
                     (fun j' =>
                        if decide (i = j')
                        then (grad (h !!! (out !!! i))
                              * data (h !!! (out !!! i))
                              * (1 - data (h !!! (out !!! j'))))%float
                        else (- grad (h !!! (out !!! i))
                              * data (h !!! (out !!! i))
                              * data (h !!! (out !!! j')))%float)
                     (seq 0 (length values)) j)].
  - apply list_bind_ext_in. intros j' Hj'.
    by rewrite contribs_acc_cons, contribs_acc_nil.
  - apply NoDup_seq.
  - apply elem_of_seq. lia.
  - intros j' Hj'. apply elem_of_seq in Hj'. split; [|by intros ->].
    intros Heq. eapply (NoDup_lookup values); [done|..].
    + apply list_lookup_lookup_total_lt. lia.
    + rewrite Heq. by apply list_lookup_lookup_total_lt.
Qed.

(** X1.  A closure as an operator builds it, which reads no [grad] that
    it writes, does exactly this: when
    a power it needs raises, it raises that error and writes nothing;
    otherwise it returns, having added the entries of its list of
    contributions, in order and each computed from the store as it was
    before the call, and every entry goes to one of the closure's
    targets.  For the closures of [+], [*], [**], [relu] and [tanh], which
    read [out.grad], the condition is that [out] is none of the operands;
    for [softmax]'s, that no output is an input. *)
Theorem closure_contributions rt c s :
  closure_built c ->
  (forall r, r ∈ closure_reads c -> r ∉ closure_targets c) ->
  match contributions rt (heap s) c with
  | Ok l =>
      call rt c s
      = (Ok tt, mkState (replay_log (heap s) (acc_events l))
                        (log s ++ acc_events l)) /\
      (forall p, p ∈ l -> p.1 ∈ closure_targets c)
  | Raise e => call rt c s = (Raise e, s)
  end.
Proof.
  intros _ Hdisj. rewrite call_as_contributions by done.
  destruct (contributions rt (heap s) c) as [l|e] eqn:Hl; [|done].
  split; [done|]. intros p. by apply (contributions_targets rt (heap s)).
Qed.

Lemma closure_contributions_witness :
  call model_rt (MulBackward 0 1 2) ex_state
  = (Ok tt,
     mkState (replay_log ex_heap [EvAcc 0 0%float; EvAcc 1 0%float])
             [EvAcc 0 0%float; EvAcc 1 0%float]).
Proof.
  refine (proj1 (closure_contributions model_rt (MulBackward 0 1 2) ex_state I _)).
  intros r Hr Ht. simpl in Hr, Ht. set_unfold in Hr. set_unfold in Ht. lia.
Defined.

(** X2.  The closure of [softmax], with as many outputs as inputs, called
    on inputs that are distinct nodes of the store, none of them an
    output: it returns, and the
    [grad] of the input at position [j] has received one contribution per
    output [i], in the order of the outputs, [out[i].grad * out[i].data *
    (1 - out[j].data)] for [i = j] and [-out[i].grad * out[i].data *
    out[j].data] otherwise, all read from the store before the call; a
    node that is not an input keeps its [grad]. *)
Theorem softmax_backward_grads rt values out s j :
  length out = length values ->
  NoDup values ->
  (forall v, v ∈ values -> v < length (heap s)) ->
  (forall i, i < length values -> out !!! i ∉ values) ->
  j < length values ->
  let term := fun i =>
    let gi := grad (heap s !!! (out !!! i)) in
    let di := data (heap s !!! (out !!! i)) in
    let dj := data (heap s !!! (out !!! j)) in
    if decide (i = j) then (gi * di * (1 - dj))%float
    else (- gi * di * dj)%float in
  exists s',
    call rt (SoftmaxBackward values out) s = (Ok tt, s') /\
    length (contribs (values !!! j) (drop (length (log s)) (log s')))
    = length values /\
    grad (heap s' !!! (values !!! j))
    = fold_left PrimFloat.add (term <$> seq 0 (length values))
        (grad (heap s !!! (values !!! j))) /\
    (forall i, i ∉ values -> grad (heap s' !!! i) = grad (heap s !!! i)).
Proof.
  intros _ Hnd Hin Hdisj Hj term.
  rewrite call_as_contributions; cycle 1.
  { intros r Hr. simpl in Hr. apply list_elem_of_fmap in Hr as (i & -> & Hi).
    apply elem_of_seq in Hi. simpl. apply Hdisj. lia. }
  cbn [contributions heap].
  pose proof (softmax_contribs_row (heap s) values out j Hnd Hj) as Hrow.
  eexists. split; [done|]. cbn [heap log]. split_and!.
  - rewrite drop_app_length, Hrow, length_fmap. apply length_seq.
  - rewrite replay_log_grad_acc.
    + by rewrite Hrow.
    + by apply Hin, list_elem_of_lookup_total_2.
    + apply Forall_fmap, Forall_forall. by intros p _ r.
  - intros i Hi. apply replay_log_grad_untouched, acc_events_untouched.
    intros p Hp Heq. apply Hi. rewrite <- Heq.
    by apply softmax_contributions_targets in Hp.
Qed.

Lemma softmax_backward_grads_witness :
  exists s',
    call model_rt (SoftmaxBackward [0; 1] [2; 3])
      (softmax model_rt [0; 1] two_ones_state).2 = (Ok tt, s') /\
    grad (heap s' !!! 0) = 0%float /\
    grad (heap s' !!! 2) = 0%float.
Proof.
  destruct (softmax_backward_grads model_rt [0; 1] [2; 3]
              (softmax model_rt [0; 1] two_ones_state).2 0)
    as (s' & Hcall & _ & Hg & Hother).
  - reflexivity.
  - decide_eval.
  - intros v Hv. set_unfold in Hv. assert (Hlt : v < 2) by lia.
    vm_compute. lia.
  - intros i Hi. destruct i as [|[|i]]; [| |simpl in Hi; lia]; decide_eval.
  - simpl. lia.
  - exists s'. split_and!; [exact Hcall|exact Hg|].
    etrans; [apply Hother; decide_eval|]. reflexivity.
Defined.

(** * Invariants of the store *)

Lemma heap_all_snoc P h v :
  heap_all P h -> P (length h) v -> heap_all P (h ++ [v]).
Proof.
  intros Hh Hv i w Hi.
  apply lookup_app_Some in Hi as [Hi|[Hge Hi]]; [by apply Hh|].
  apply list_lookup_singleton_Some in Hi as [Hi <-].
  by replace i with (length h) by lia.
Qed.

Lemma stays_raise I s e : I (heap s) -> stays I s (Raise e, s).
Proof. intros HI. by split_and!. Qed.

Lemma stays_ret I s r : I (heap s) -> r < length (heap s) -> stays I s (Ok r, s).
Proof. intros HI Hr. by split_and!. Qed.

Lemma stays_bind I s {A} (m : M A) (f : A -> M ref) :
  I (heap (m s).2) -> length (heap s) <= length (heap (m s).2) ->
  (forall r s1, m s = (Ok r, s1) -> stays I s1 (f r s1)) ->
  stays I s ((m ≫= f) s).
Proof.
  intros HI Hlen Hf. rewrite bind_run.
  destruct (m s) as [[r|e] s1] eqn:Hm; simpl in *.
  - destruct (Hf r s1 eq_refl) as (HI2 & Hlen2 & Hr2).
    split_and!; [done|lia|done].
  - by split_and!.
Qed.

Section Invariant.

Variable P : ref -> Value -> Prop.

(** [P] holds of a leaf and of a node with the closure its operator gives
    it, whenever the operands are older than the node. *)
Hypothesis P_leaf : forall i x, P i (leaf x).
Hypothesis P_node : forall i d o children c,
  (forall p, p ∈ children -> p < i) -> closure_of i children c ->
  P i (mkValue d 0%float (list_to_set children) o c).

Lemma leaf_stays x s :
  heap_all P (heap s) -> stays (heap_all P) s (new_value x [] OpLeaf s).
Proof.
  intros HP. unfold new_value, stays. simpl. split_and!.
  - apply heap_all_snoc; [done|]. apply P_leaf.
  - rewrite length_snoc. lia.
  - rewrite length_snoc. lia.
Qed.

Lemma node_stays d children o (c : ref -> closure) s :
  heap_all P (heap s) ->
  (forall p, p ∈ children -> p < length (heap s)) ->
  closure_of (length (heap s)) children (c (length (heap s))) ->
  stays (heap_all P) s
    ((out ← new_value d children o; set_backward out (c out) ;; mret out) s).
Proof.
  intros HP Hlt Hc. rewrite alloc_spec. unfold stays, push. simpl. split_and!.
  - apply heap_all_snoc; [done|]. by apply P_node.
  - rewrite length_snoc. lia.
  - rewrite length_snoc. lia.
Qed.

Lemma as_value_stays other s :
  heap_all P (heap s) ->
  in_store s other ->
  stays (heap_all P) s (as_value other s).
Proof.
  intros HP Hother. destruct other as [x|v]; simpl.
  - by apply leaf_stays.
  - by apply stays_ret.
Qed.

Lemma add_stays self other s :
  heap_all P (heap s) -> self < length (heap s) ->
  in_store s other ->
  stays (heap_all P) s (__add__ self other s).
Proof.
  intros HP Hself Hother. unfold __add__.
  destruct (as_value_stays other s HP Hother) as (HP1 & Hlen1 & Hr1).
  apply stays_bind; [done..|]. intros r s1 Hm. rewrite Hm in *. simpl in *.
  rewrite bind_run. unfold get_data at 1. rewrite bind_run. unfold get_data at 1.
  apply (node_stays _ [self; r] OpAdd (AddBackward self r)).
  - done.
  - refs_lt.
  - constructor.
Qed.

Lemma mul_stays self other s :
  heap_all P (heap s) -> self < length (heap s) ->
  in_store s other ->
  stays (heap_all P) s (__mul__ self other s).
Proof.
  intros HP Hself Hother. unfold __mul__.
  destruct (as_value_stays other s HP Hother) as (HP1 & Hlen1 & Hr1).
  apply stays_bind; [done..|]. intros r s1 Hm. rewrite Hm in *. simpl in *.
  rewrite bind_run. unfold get_data at 1. rewrite bind_run. unfold get_data at 1.
  apply (node_stays _ [self; r] OpMul (MulBackward self r)).
  - done.
  - refs_lt.
  - constructor.
Qed.

Lemma pow_stays rt self exponent s :
  heap_all P (heap s) -> self < length (heap s) ->
  stays (heap_all P) s (__pow__ rt self exponent s).
Proof.
  intros HP Hself. destruct exponent as [n|v|]; try by apply stays_raise.
  rewrite pow_num_spec.
  destruct (float_pow rt _ n) as [p|e] eqn:Hp; [|by apply stays_raise].
  rewrite <- (alloc_spec p [self] (OpPow n) (PowBackward self n) s).
  apply node_stays; [done|refs_lt|constructor].
Qed.

Lemma relu_stays self s :
  heap_all P (heap s) -> self < length (heap s) ->
  stays (heap_all P) s (relu self s).
Proof.
  intros HP Hself. rewrite relu_spec.
  rewrite <- (alloc_spec _ [self] OpReLU (ReluBackward self) s).
  apply node_stays; [done|refs_lt|constructor].
Qed.

Lemma tanh_stays rt self s :
  heap_all P (heap s) -> self < length (heap s) ->
  stays (heap_all P) s (tanh rt self s).
Proof.
  intros HP Hself. rewrite tanh_spec.
  rewrite <- (alloc_spec _ [self] OpTanh (TanhBackward self _) s).
  apply node_stays; [done|refs_lt|constructor].
Qed.

Lemma neg_stays self s :
  heap_all P (heap s) -> self < length (heap s) ->
  stays (heap_all P) s (__neg__ self s).
Proof. intros HP Hself. by apply mul_stays. Qed.

Lemma sub_stays self other s :
  heap_all P (heap s) -> self < length (heap s) ->
  in_store s other ->
  stays (heap_all P) s (__sub__ self other s).
Proof.
  intros HP Hself Hother. destruct other as [x|v]; unfold __sub__.
  - by apply add_stays.
  - destruct (neg_stays v s HP Hother) as (HP1 & Hlen1 & Hr1).
    apply stays_bind; [done..|]. intros r s1 Hm. rewrite Hm in *. simpl in *.
    apply add_stays; [done|lia|done].
Qed.

Lemma radd_stays self x s :
  heap_all P (heap s) -> self < length (heap s) ->
  stays (heap_all P) s (__radd__ self x s).
Proof. intros HP Hself. by apply add_stays. Qed.

Lemma rmul_stays self x s :
  heap_all P (heap s) -> self < length (heap s) ->
  stays (heap_all P) s (__rmul__ self x s).
Proof. intros HP Hself. by apply mul_stays. Qed.

Lemma rsub_stays self x s :
  heap_all P (heap s) -> self < length (heap s) ->
  stays (heap_all P) s (__rsub__ self x s).
Proof.
  intros HP Hself. unfold __rsub__.
  destruct (neg_stays self s HP Hself) as (HP1 & Hlen1 & Hr1).
  apply stays_bind; [done..|]. intros r s1 Hm. rewrite Hm in *. simpl in *.
  by apply radd_stays.
Qed.

Lemma truediv_stays rt self other s :
  heap_all P (heap s) -> self < length (heap s) ->
  in_store s other ->
  stays (heap_all P) s (__truediv__ rt self other s).
Proof.
  intros HP Hself Hother. destruct other as [x|v]; unfold __truediv__.
  - apply stays_bind; [done..|]. intros r s1 [= _ <-]. by apply mul_stays.
  - destruct (pow_stays rt v (PyNum (-1)%float) s HP Hother) as (HP1 & Hlen1 & Hr1).
    apply stays_bind; [done..|]. intros r s1 Hm. rewrite Hm in *. simpl in *.
    apply mul_stays; [done|lia|done].
Qed.

Lemma rtruediv_stays rt self x s :
  heap_all P (heap s) -> self < length (heap s) ->
  stays (heap_all P) s (__rtruediv__ rt self x s).
Proof.
  intros HP Hself. unfold __rtruediv__.
  destruct (pow_stays rt self (PyNum (-1)%float) s HP Hself) as (HP1 & Hlen1 & Hr1).
  apply stays_bind; [done..|]. intros r s1 Hm. rewrite Hm in *. simpl in *.
  by apply rmul_stays.
Qed.

(** [P] looks at no [grad]. *)
Hypothesis P_grad : forall i v g, P i v -> P i (with_grad g v).

Lemma heap_all_alter_grad (f : Value -> float) t h :
  heap_all P h -> heap_all P (alter (fun v => with_grad (f v) v) t h).
Proof.
  intros HP i v Hi.
  destruct (decide (t = i)) as [->|Hne].
  - rewrite list_lookup_alter_eq in Hi.
    destruct (h !! i) as [w|] eqn:Hw; simpl in Hi; [|done].
    injection Hi as <-. apply P_grad. by apply HP.
  - rewrite list_lookup_alter_ne in Hi by done. by apply HP.
Qed.

Lemma heap_all_replay evs h :
  heap_all P h -> heap_all P (replay_log h evs).
Proof.
  revert h. induction evs as [|e evs IH]; intros h HP; [done|].
  unfold replay_log in *. simpl. apply IH.
  destruct e as [r|n|t c]; simpl; [|done|].
  - by apply (heap_all_alter_grad (fun _ => 1%float)).
  - by apply (heap_all_alter_grad (fun v => (grad v + c)%float)).
Qed.

End Invariant.

Lemma node_wf_leaf i x : node_wf i (leaf x).
Proof. split; simpl; intros p Hp; [set_solver|by apply elem_of_nil in Hp]. Qed.

Lemma closure_of_targets i children c t :
  closure_of i children c -> t ∈ closure_targets c -> t ∈ children.
Proof. by intros []. Qed.

Lemma closure_of_reads i children c r :
  closure_of i children c -> r ∈ closure_reads c -> r = i.
Proof. intros []; simpl; by intros ->%list_elem_of_singleton. Qed.

Lemma node_wf_node i d o children c :
  (forall p, p ∈ children -> p < i) -> closure_of i children c ->
  node_wf i (mkValue d 0%float (list_to_set children) o c).
Proof.
  intros Hlt Hc. split; simpl.
  - intros p Hp. apply Hlt. by apply elem_of_list_to_set in Hp.
  - intros t Ht. by eapply Hlt, closure_of_targets.
Qed.

Lemma node_wf_grad i v g : node_wf i v -> node_wf i (with_grad g v).
Proof. done. Qed.

Lemma node_local_leaf i x : node_local i (leaf x).
Proof. split; simpl; intros p Hp; by apply elem_of_nil in Hp. Qed.

Lemma node_local_node i d o children c :
  (forall p, p ∈ children -> p < i) -> closure_of i children c ->
  node_local i (mkValue d 0%float (list_to_set children) o c).
Proof.
  intros _ Hc. split; simpl.
  - intros r. by eapply closure_of_reads.
  - intros t Ht. apply elem_of_list_to_set. by eapply closure_of_targets.
Qed.

Lemma node_local_grad i v g : node_local i v -> node_local i (with_grad g v).
Proof. done. Qed.

Lemma backward_heap_replay rt root s :
  exists evs, heap (backward rt root s).2 = replay_log (heap s) evs.
Proof.
  destruct (build_topo rt (S (length (heap s))) (heap s) root (∅, []))
    as [vt|] eqn:Htopo.
  - destruct (backward_events rt root s _ Htopo) as (evs & _ & Hh & _). eauto.
  - rewrite (backward_out_of_fuel _ _ _ Htopo). by exists [].
Qed.

Lemma softmax_stays_wf rt values s :
  wf_heap (heap s) -> (forall v, v ∈ values -> v < length (heap s)) ->
  wf_heap (heap (softmax rt values s).2) /\
  length (heap s) <= length (heap (softmax rt values s).2) /\
  forall outs, (softmax rt values s).1 = Ok outs ->
    forall o, o ∈ outs -> o < length (heap (softmax rt values s).2).
Proof.
  intros Hwf Hvalues. rewrite softmax_spec.
  destruct (py_max _) as [max_val|e]; [|by split_and!].
  destruct (softmax_exps rt _ max_val) as [exps|e] eqn:Hexps; [|by split_and!].
  destruct (_ =? 0)%float; [by split_and!|]. cbn zeta. unfold push. simpl.
  apply result_map_length in Hexps. unfold datas_of in Hexps.
  rewrite length_fmap in Hexps.
  split_and!.
  - apply wf_heap_app; [done|]. intros k v Hk.
    apply list_lookup_fmap_Some in Hk as ([e u] & -> & Hk).
    apply lookup_zip_with_Some in Hk as (e' & u' & [= <- <-] & _ & Hu).
    apply list_elem_of_lookup_2, Hvalues in Hu. split; simpl.
    + intros p Hp. rewrite (right_id_L ∅ (∪)) in Hp.
      apply elem_of_singleton in Hp as ->. lia.
    + intros t Ht. apply Hvalues in Ht. lia.
  - rewrite length_app. lia.
  - intros outs [= <-] o Ho. apply elem_of_seq in Ho.
    rewrite length_app, length_fmap, length_zip_with. lia.
Qed.

Lemma ex_values_in_store v : v ∈ [0; 1] -> v < length (heap ex_state).
Proof. intros Hv. set_unfold in Hv. simpl. lia. Qed.

(** X3.  Every operator, applied to nodes of a well-formed store, and
    [backward] leave the store well-formed: each object's parents, and
    the nodes its closure adds to, were allocated before it.  No object
    is lost, and a returned reference is a node of the new store. *)
Theorem operators_keep_wf rt s a x values :
  wf_heap (heap s) -> a < length (heap s) ->
  (forall v, v ∈ values -> v < length (heap s)) ->
  stays wf_heap s (new_value x [] OpLeaf s) /\
  (forall other, in_store s other ->
     stays wf_heap s (__add__ a other s) /\
     stays wf_heap s (__mul__ a other s) /\
     stays wf_heap s (__sub__ a other s) /\
     stays wf_heap s (__truediv__ rt a other s)) /\
  (forall exponent, stays wf_heap s (__pow__ rt a exponent s)) /\
  stays wf_heap s (relu a s) /\
  stays wf_heap s (tanh rt a s) /\
  stays wf_heap s (__neg__ a s) /\
  stays wf_heap s (__radd__ a x s) /\
  stays wf_heap s (__rmul__ a x s) /\
  stays wf_heap s (__rsub__ a x s) /\
  stays wf_heap s (__rtruediv__ rt a x s) /\
  (wf_heap (heap (softmax rt values s).2) /\
   length (heap s) <= length (heap (softmax rt values s).2) /\
   forall outs, (softmax rt values s).1 = Ok outs ->
     forall o, o ∈ outs -> o < length (heap (softmax rt values s).2)) /\
  (wf_heap (heap (backward rt a s).2) /\
   length (heap (backward rt a s).2) = length (heap s)).
Proof.
  intros Hwf Ha Hvalues.
  pose proof node_wf_leaf as Hleaf. pose proof node_wf_node as Hnode.
  destruct (softmax_stays_wf rt values s Hwf Hvalues) as (Hs1 & Hs2 & Hs3).
  split_and!.
  - by apply (leaf_stays node_wf).
  - intros other Hother. split_and!.
    + by apply (add_stays node_wf).
    + by apply (mul_stays node_wf).
    + by apply (sub_stays node_wf).
    + by apply (truediv_stays node_wf).
  - intros exponent. by apply (pow_stays node_wf).
  - by apply (relu_stays node_wf).
  - by apply (tanh_stays node_wf).
  - by apply (neg_stays node_wf).
  - by apply (radd_stays node_wf).
  - by apply (rmul_stays node_wf).
  - by apply (rsub_stays node_wf).
  - by apply (rtruediv_stays node_wf).
  - exact Hs1.
  - exact Hs2.
  - exact Hs3.
  - destruct (backward_heap_replay rt a s) as [evs ->].
    by apply (heap_all_replay node_wf node_wf_grad).
  - destruct (backward_heap_replay rt a s) as [evs ->].
    apply replay_log_length.
Qed.

Lemma operators_keep_wf_witness :
  stays wf_heap ex_state (__sub__ 3 (ONode 1) ex_state) /\
  wf_heap (heap (softmax model_rt [0; 1] ex_state).2) /\
  wf_heap (heap (backward model_rt 3 ex_state).2).
Proof.
  destruct (operators_keep_wf model_rt ex_state 3 1%float [0; 1])
    as (_ & Hbin & _ & _ & _ & _ & _ & _ & _ & _ & (Hsoft & _) & Hback & _).
  - apply wf_ex_heap.
  - simpl. lia.
  - apply ex_values_in_store.
  - destruct (Hbin (ONode 1)) as (_ & _ & Hsub & _); [simpl; lia|].
    split_and!; [exact Hsub|exact Hsoft|exact Hback].
Defined.

Lemma softmax_not_local rt values outs s s1 :
  2 <= length values ->
  softmax rt values s = (Ok outs, s1) ->
  ~ closures_local (heap s1).
Proof.
  intros Hlen. rewrite softmax_spec.
  destruct (py_max _) as [max_val|e]; [|done].
  destruct (softmax_exps rt _ max_val) as [exps|e] eqn:Hexps; [|done].
  destruct (_ =? 0)%float; [done|]. cbn zeta. intros [= <- <-] Hloc.
  apply result_map_length in Hexps. unfold datas_of in Hexps.
  rewrite length_fmap in Hexps.
  destruct values as [|v0 [|v1 values]]; simpl in Hlen; try lia.
  destruct exps as [|e0 [|e1 exps]]; simpl in Hexps; try lia.
  destruct (Hloc (length (heap s))
              (softmax_node (py_sum (e0 :: e1 :: exps))
                 (SoftmaxBackward (v0 :: v1 :: values)
                    (seq (length (heap s)) (length (v0 :: v1 :: values))))
                 (e0, v0))) as [Hreads _].
  { unfold push. simpl. by rewrite list_lookup_middle. }
  specialize (Hreads (S (length (heap s)))). simpl in Hreads.
  assert (S (length (heap s)) = length (heap s)); [|lia].
  apply Hreads. right. left.
Qed.

Lemma local_ex_heap : closures_local ex_heap.
Proof.
  intros i v Hi.
  destruct i as [|[|[|[|i]]]]; simpl in Hi; simplify_eq; simpl;
    split; intros p Hp; set_unfold in Hp; set_unfold; tauto.
Qed.

(** X4.  Every operator other than [softmax], and [backward], keep the
    closures local: each closure reads the [grad] of the node that
    carries it and adds to parents of that node only.  A [softmax] of two
    or more inputs does not: the closure its outputs share reads the
    [grad] of every output. *)
Theorem operators_keep_local rt s a x :
  closures_local (heap s) -> a < length (heap s) ->
  stays closures_local s (new_value x [] OpLeaf s) /\
  (forall other, in_store s other ->
     stays closures_local s (__add__ a other s) /\
     stays closures_local s (__mul__ a other s) /\
     stays closures_local s (__sub__ a other s) /\
     stays closures_local s (__truediv__ rt a other s)) /\
  (forall exponent, stays closures_local s (__pow__ rt a exponent s)) /\
  stays closures_local s (relu a s) /\
  stays closures_local s (tanh rt a s) /\
  stays closures_local s (__neg__ a s) /\
  stays closures_local s (__radd__ a x s) /\
  stays closures_local s (__rmul__ a x s) /\
  stays closures_local s (__rsub__ a x s) /\
  stays closures_local s (__rtruediv__ rt a x s) /\
  closures_local (heap (backward rt a s).2) /\
  (forall values outs s1,
     2 <= length values -> softmax rt values s = (Ok outs, s1) ->
     ~ closures_local (heap s1)).
Proof.
  intros Hloc Ha.
  pose proof node_local_leaf as Hleaf. pose proof node_local_node as Hnode.
  split_and!.
  - by apply (leaf_stays node_local).
  - intros other Hother. split_and!.
    + by apply (add_stays node_local).
    + by apply (mul_stays node_local).
    + by apply (sub_stays node_local).
    + by apply (truediv_stays node_local).
  - intros exponent. by apply (pow_stays node_local).
  - by apply (relu_stays node_local).
  - by apply (tanh_stays node_local).
  - by apply (neg_stays node_local).
  - by apply (radd_stays node_local).
  - by apply (rmul_stays node_local).
  - by apply (rsub_stays node_local).
  - by apply (rtruediv_stays node_local).
  - destruct (backward_heap_replay rt a s) as [evs ->].
    by apply (heap_all_replay node_local node_local_grad).
  - intros values outs s1. apply softmax_not_local.
Qed.

Lemma operators_keep_local_witness :
  stays closures_local ex_state (__truediv__ model_rt 3 (ONode 1) ex_state) /\
  closures_local (heap (backward model_rt 3 ex_state).2).
Proof.
  destruct (operators_keep_local model_rt ex_state 3 1%float)
    as (_ & Hbin & _ & _ & _ & _ & _ & _ & _ & _ & Hback & _).
  - apply local_ex_heap.
  - simpl. lia.
  - destruct (Hbin (ONode 1)) as (_ & _ & _ & Hdiv); [simpl; lia|].
    split; [exact Hdiv|exact Hback].
Defined.

(** * What [backward] writes *)

Lemma for_each_app {A} (l1 l2 : list A) (body : A -> M unit) s :
  for_each (l1 ++ l2) body s = (for_each l1 body ;; for_each l2 body) s.
Proof.
  revert s. induction l1 as [|x l1 IH]; intros s; simpl; [done|].
  rewrite !bind_run. destruct (body x s) as [[[]|e] s1]; [|done].
  rewrite IH. by rewrite bind_run.
Qed.

Lemma call_backward_unfold rt n s :
  call_backward rt n s
  = call rt (_backward (heap s !!! n)) (mkState (heap s) (log s ++ [EvCall n])).
Proof. reflexivity. Qed.

(** An entry of a replay that writes [t.grad] comes from a called node
    whose closure adds to [t]. *)
Lemma replay_event_touch h l e t :
  replay_event h l e -> touches t e ->
  exists n, n ∈ l /\ t ∈ closure_targets (_backward (h !!! n)).
Proof.
  intros [(n & -> & _)|(n & Hn & t' & c & -> & Ht)] Htouch; [done|].
  simpl in Htouch. subst t'. eauto.
Qed.

Lemma reachable_root_inv h root n :
  reachable h root n ->
  n = root \/ exists p, p ∈ _prev (h !!! root) /\ reachable h p n.
Proof. intros Hr. destruct Hr as [|root p n Hp Hr]; [by left|right; eauto]. Qed.

Lemma feeds_inv h p t :
  feeds h p t ->
  t ∈ closure_targets (_backward (h !!! p)) \/
  exists q, q ∈ _prev (h !!! p) /\ feeds h q t.
Proof.
  intros (n & Hn & Ht).
  apply reachable_root_inv in Hn as [->|(q & Hq & Hr)]; [by left|].
  right. exists q. split; [done|]. by exists n.
Qed.

Lemma feeds_lt h p t : wf_heap h -> feeds h p t -> t < p.
Proof.
  intros Hwf (n & Hn & Ht).
  apply (reachable_le _ _ _ Hwf) in Hn. apply (wf_target_lt _ _ _ Hwf) in Ht. lia.
Qed.

Lemma wf_not_feeds_self h x : wf_heap h -> ~ feeds h x x.
Proof.
  intros Hwf (n & Hn & Ht).
  apply (reachable_le _ _ _ Hwf) in Hn. apply (wf_target_lt _ _ _ Hwf) in Ht. lia.
Qed.

Lemma reachable_leaf h n m :
  _prev (h !!! n) = ∅ -> reachable h n m -> m = n.
Proof.
  intros Hprev Hr. destruct Hr as [|n q m Hq _]; [done|].
  rewrite Hprev in Hq. by apply not_elem_of_empty in Hq.
Qed.

Lemma leaf_not_feeds h n t :
  _prev (h !!! n) = ∅ -> _backward (h !!! n) = NoOp -> ~ feeds h n t.
Proof.
  intros Hprev Hclos (m & Hm & Ht).
  apply (reachable_leaf _ _ _ Hprev) in Hm as ->.
  rewrite Hclos in Ht. by apply elem_of_nil in Ht.
Qed.

Lemma ex_leaf_0 t : ~ feeds ex_heap 0 t.
Proof. by apply leaf_not_feeds. Qed.

Lemma ex_leaf_1 t : ~ feeds ex_heap 1 t.
Proof. by apply leaf_not_feeds. Qed.

Lemma root_grad_one rt s root :
  wf_heap (heap s) -> set_iter_ok rt -> root < length (heap s) ->
  grad (heap (backward rt root s).2 !!! root) = 1%float.
Proof.
  intros Hwf Hiter Hroot.
  destruct (build_topo_root rt (heap s) root Hwf Hiter Hroot)
    as (visited & T & Htopo & _ & _ & Hreach & _).
  destruct (backward_events rt root s _ Htopo) as (evs & _ & Hh & HP & _).
  rewrite Hh. change (EvSeed root :: evs) with ([EvSeed root] ++ evs).
  rewrite replay_log_app, replay_log_grad_untouched.
  - simpl. by rewrite grad_alter_eq.
  - eapply Forall_impl; [exact HP|]. intros e He Htouch.
    destruct (replay_event_touch _ _ _ _ He Htouch) as (n & Hn & Ht).
    apply (wf_target_lt _ _ _ Hwf) in Ht.
    apply list_elem_of_In, in_rev, list_elem_of_In, Hreach in Hn.
    apply (reachable_le _ _ _ Hwf) in Hn. simpl in *. lia.
Qed.

Lemma closures_local_feeds h a t :
  closures_local h -> feeds h a t -> reachable h a t.
Proof.
  intros Hloc (n & Hn & Ht).
  rewrite list_lookup_total_alt in Ht.
  destruct (h !! n) as [v|] eqn:Hv; simpl in Ht; [|by apply elem_of_nil in Ht].
  destruct (Hloc n v Hv) as [_ Hpar]. apply Hpar in Ht.
  eapply rtc_r; [exact Hn|]. simpl.
  by rewrite list_lookup_total_alt, Hv.
Qed.

Lemma closures_local_total h n :
  closures_local h ->
  (forall r, r ∈ closure_reads (_backward (h !!! n)) -> r = n) /\
  (forall t, t ∈ closure_targets (_backward (h !!! n)) -> t ∈ _prev (h !!! n)).
Proof.
  intros Hloc. rewrite list_lookup_total_alt.
  destruct (h !! n) as [v|] eqn:Hv; simpl.
  - by apply Hloc.
  - split; intros x Hx; by apply elem_of_nil in Hx.
Qed.

(** X5.  After [backward] on a well-formed store the [grad] of the root
    is [1.0], also when a closure raised on the way.  A node other than
    the root that no closure of the root or of its ancestors adds to has
    the [grad] it had; when the closures are local, that is every node
    that is not the root or an ancestor of it. *)
Theorem backward_untouched rt s root :
  wf_heap (heap s) -> set_iter_ok rt -> root < length (heap s) ->
  grad (heap (backward rt root s).2 !!! root) = 1%float /\
  (forall t, t <> root -> ~ feeds (heap s) root t ->
     grad (heap (backward rt root s).2 !!! t) = grad (heap s !!! t)) /\
  (closures_local (heap s) ->
   forall t, ~ reachable (heap s) root t ->
     grad (heap (backward rt root s).2 !!! t) = grad (heap s !!! t)).
Proof.
  intros Hwf Hiter Hroot.
  assert (Hfirst : forall t, t <> root -> ~ feeds (heap s) root t ->
     grad (heap (backward rt root s).2 !!! t) = grad (heap s !!! t)).
  { intros t Hne Hfeeds.
    destruct (build_topo_root rt (heap s) root Hwf Hiter Hroot)
      as (visited & T & Htopo & _ & _ & Hreach & _).
    destruct (backward_events rt root s _ Htopo) as (evs & _ & Hh & HP & _).
    rewrite Hh. change (EvSeed root :: evs) with ([EvSeed root] ++ evs).
    rewrite replay_log_app, replay_log_grad_untouched.
    - simpl. by rewrite grad_alter_ne.
    - eapply Forall_impl; [exact HP|]. intros e He Htouch.
      destruct (replay_event_touch _ _ _ _ He Htouch) as (n & Hn & Ht).
      apply list_elem_of_In, in_rev, list_elem_of_In, Hreach in Hn.
      apply Hfeeds. by exists n. }
  split; [by apply root_grad_one|]. split; [exact Hfirst|].
  intros Hloc t Hunreach. apply Hfirst.
  - intros ->. apply Hunreach. apply rtc_refl.
  - intros Hfeeds. by apply Hunreach, closures_local_feeds.
Qed.

Lemma backward_untouched_witness :
  grad (heap (backward model_rt 2 ex_state).2 !!! 2) = 1%float /\
  grad (heap (backward model_rt 2 ex_state).2 !!! 3) = 0%float.
Proof.
  destruct (backward_untouched model_rt ex_state 2) as (Hroot & Hfirst & _).
  - apply wf_ex_heap.
  - apply set_iter_ok_model.
  - simpl. lia.
  - split; [exact Hroot|]. apply (Hfirst 3); [lia|].
    intros Hf. apply (feeds_lt _ _ _ wf_ex_heap) in Hf. lia.
Defined.

(** ** The order of the calls *)

(** In the order of the calls, no node is a parent of itself or of a node
    called at or after it. *)
Lemma rev_topo_quiet h topo l1 n l2 m :
  wf_heap h -> NoDup topo -> topo_ordered h topo ->
  rev topo = l1 ++ n :: l2 -> m ∈ n :: l2 -> n ∉ _prev (h !!! m).
Proof.
  intros Hwf Hnd Hord Hrev Hm Hn.
  assert (Htopo : topo = rev l2 ++ n :: rev l1).
  { rewrite <- (rev_involutive topo), Hrev, rev_app_distr. simpl.
    by rewrite <- app_assoc. }
  assert (Hpos : topo !! length (rev l2) = Some n).
  { rewrite Htopo. by apply list_lookup_middle. }
  apply elem_of_cons in Hm as [->|Hm].
  - apply (wf_parent_lt _ _ _ Hwf) in Hn. lia.
  - apply list_elem_of_In, in_rev, list_elem_of_In in Hm.
    apply list_elem_of_lookup in Hm as [j Hj].
    pose proof (lookup_lt_Some _ _ _ Hj) as Hlt.
    assert (Hj' : topo !! j = Some m).
    { rewrite Htopo. by rewrite lookup_app_l. }
    destruct (Hord j m n Hj' Hn) as (i & Hi & Hin).
    pose proof (NoDup_lookup _ _ _ _ Hnd Hin Hpos). lia.
Qed.

(** On a well-formed store with local closures, the order of the calls
    is one in which no node is written once its closure has been called. *)
Lemma rev_topo_targets_quiet h topo l1 n l2 m :
  wf_heap h -> closures_local h -> NoDup topo -> topo_ordered h topo ->
  rev topo = l1 ++ n :: l2 -> m ∈ n :: l2 ->
  n ∉ closure_targets (_backward (h !!! m)).
Proof.
  intros Hwf Hloc Hnd Hord Hrev Hm Hn.
  apply (closures_local_total h m Hloc) in Hn.
  by apply (rev_topo_quiet h topo l1 n l2 m).
Qed.

Lemma app_split_acc (a X e1 e2 : list event) (n : ref) :
  Forall is_acc a -> a ++ X = e1 ++ EvCall n :: e2 ->
  exists e1', e1 = a ++ e1' /\ X = e1' ++ EvCall n :: e2.
Proof.
  revert e1. induction a as [|x a IH]; intros e1 Ha Heq.
  - by exists e1.
  - apply Forall_cons in Ha as [(t & c & ->) Ha].
    destruct e1 as [|y e1]; simpl in Heq; [done|].
    injection Heq as <- Heq.
    destruct (IH e1 Ha Heq) as (e1' & -> & HX). by exists e1'.
Qed.

Lemma replay_no_late rt l :
  forall s evs e1 n e2,
    (forall l1 k l2 m, l = l1 ++ k :: l2 -> m ∈ k :: l2 ->
       k ∉ closure_targets (_backward (heap s !!! m))) ->
    log (for_each l (call_backward rt) s).2 = log s ++ evs ->
    evs = e1 ++ EvCall n :: e2 ->
    Forall (fun e => ~ touches n e) e2.
Proof.
  induction l as [|k l IH]; intros s evs e1 n e2 Hquiet Hlog Hsplit.
  - simpl in Hlog. rewrite <- (app_nil_r (log s)) in Hlog at 1.
    apply app_inv_head in Hlog. subst evs. by destruct e1.
  - simpl in Hlog. rewrite bind_run in Hlog.
    destruct (call_backward_events rt k s) as (accs & Hl1 & Hh1 & Hacc).
    assert (Hk : Forall (fun e => ~ touches k e) accs).
    { eapply Forall_impl; [exact Hacc|]. intros e (t & c & -> & Ht) Htouch.
      simpl in Htouch. subst t. by apply (Hquiet [] k l k); [|left|]. }
    assert (Haccs : Forall is_acc accs).
    { eapply Forall_impl; [exact Hacc|]. intros e. apply acc_into_is_acc. }
    destruct (call_backward rt k s) as [[[]|e] s1]; simpl in Hl1, Hh1.
    + destruct (replay_events rt l s1) as (evs' & Hl2 & _ & HP & _).
      rewrite Hl2, Hl1, <- app_assoc in Hlog. apply app_inv_head in Hlog.
      rewrite <- Hlog in Hsplit. clear Hlog. rename Hsplit into Hlog.
      simpl in Hlog.
      destruct e1 as [|y e1]; simpl in Hlog.
      * injection Hlog as <- <-. apply Forall_app. split; [done|].
        eapply Forall_impl; [exact HP|]. intros e He Htouch.
        destruct (replay_event_touch _ _ _ _ He Htouch) as (m & Hm & Ht).
        rewrite Hh1, replay_log_backward in Ht.
        by apply (Hquiet [] k l m); [|right|].
      * injection Hlog as <- Hlog.
        destruct (app_split_acc _ _ _ _ _ Haccs Hlog) as (e1' & -> & Hevs).
        apply (IH s1 evs' e1' n e2); [|done..].
        intros l1 j l2 m -> Hm. rewrite Hh1, replay_log_backward.
        by apply (Hquiet (k :: l1) j l2 m).
    + simpl in Hlog. rewrite Hl1 in Hlog. apply app_inv_head in Hlog.
      rewrite <- Hlog in Hsplit. clear Hlog. rename Hsplit into Hlog.
      destruct e1 as [|y e1]; simpl in Hlog.
      * by injection Hlog as <- <-.
      * injection Hlog as <- Hlog.
        rewrite <- (app_nil_r accs) in Hlog.
        destruct (app_split_acc _ _ _ _ _ Haccs Hlog) as (e1' & _ & Hnil).
        by destruct e1'.
Qed.

(** X6.  On a well-formed store with local closures, [backward] calls the
    closure of a node only after every contribution to that node's
    [grad]: in the log, no entry after the call of [n] writes the [grad]
    of [n]. *)
Theorem backward_no_late_contribution rt s root evs e1 n e2 :
  wf_heap (heap s) -> set_iter_ok rt -> root < length (heap s) ->
  closures_local (heap s) ->
  log (backward rt root s).2 = log s ++ evs ->
  evs = e1 ++ EvCall n :: e2 ->
  Forall (fun e => ~ touches n e) e2.
Proof.
  intros Hwf Hiter Hroot Hloc Hlog Hsplit.
  destruct (build_topo_root rt (heap s) root Hwf Hiter Hroot)
    as (visited & T & Htopo & Hnd & Hord & _ & _).
  rewrite (backward_unfold _ _ _ _ Htopo) in Hlog. cbn [snd] in Hlog.
  rewrite bind_run in Hlog. unfold seed_grad at 1 in Hlog.
  set (s0 := mkState (alter (with_grad 1%float) root (heap s))
                     (log s ++ [EvSeed root])) in Hlog.
  destruct (replay_events rt (rev (T ++ [root])) s0) as (evs' & Hl & _).
  rewrite Hl in Hlog. simpl in Hlog. rewrite <- app_assoc in Hlog.
  apply app_inv_head in Hlog. simpl in Hlog.
  rewrite <- Hlog in Hsplit. clear Hlog. rename Hsplit into Hlog.
  destruct e1 as [|y e1]; simpl in Hlog; [done|]. injection Hlog as <- Hevs.
  apply (replay_no_late rt (rev (T ++ [root])) s0 evs' e1 n e2); [|done..].
  intros l1 k l2 m Hrev Hm. simpl.
  rewrite (lookup_total_alter_proj _backward) by done.
  by apply (rev_topo_targets_quiet (heap s) (T ++ [root]) l1 k l2 m).
Qed.

Lemma backward_no_late_contribution_witness :
  Forall (fun e => ~ touches 2 e)
    [EvAcc 0 3%float; EvAcc 1 2%float; EvCall 0; EvCall 1].
Proof.
  apply (backward_no_late_contribution model_rt ex_state 3
           [EvSeed 3; EvCall 3; EvAcc 2 1%float; EvAcc 0 1%float;
            EvCall 2; EvAcc 0 3%float; EvAcc 1 2%float; EvCall 0; EvCall 1]
           [EvSeed 3; EvCall 3; EvAcc 2 1%float; EvAcc 0 1%float] 2).
  - apply wf_ex_heap.
  - apply set_iter_ok_model.
  - simpl. lia.
  - apply local_ex_heap.
  - vm_compute. reflexivity.
  - reflexivity.
Defined.

(** ** The log of a run that returns *)

Lemma block_events rt hf n e :
  e ∈ block rt hf n ->
  e = EvCall n \/ acc_into (closure_targets (_backward (hf !!! n))) e.
Proof.
  unfold block. intros [->|He]%elem_of_cons; [by left|]. right.
  destruct (contributions rt hf _) as [l|] eqn:Hl; [|by apply elem_of_nil in He].
  apply list_elem_of_fmap in He as (p & -> & Hp).
  exists p.1, p.2. split; [done|]. by eapply contributions_targets.
Qed.

Lemma blocks_not_seed rt hf l : Forall not_seed (l ≫= block rt hf).
Proof.
  apply Forall_forall. intros e He.
  apply list_elem_of_bind in He as (n & He & _).
  apply block_events in He as [->|He]; [done|].
  by eapply is_acc_not_seed, acc_into_is_acc.
Qed.

(** A replay whose closures read their own node, and in which no node is
    written once its closure has been called: every closure saw the
    [grad] its node has at the end. *)
Lemma replay_final rt l :
  forall s s',
    (forall n, n ∈ l ->
       forall r, r ∈ closure_reads (_backward (heap s !!! n)) -> r = n) ->
    (forall l1 n l2 m, l = l1 ++ n :: l2 -> m ∈ n :: l2 ->
       n ∉ closure_targets (_backward (heap s !!! m))) ->
    for_each l (call_backward rt) s = (Ok tt, s') ->
    log s' = log s ++ (l ≫= block rt (heap s')) /\
    heap s' = replay_log (heap s) (l ≫= block rt (heap s')).
Proof.
  induction l as [|n l IH]; intros s s' Hreads Hquiet Hrun.
  - simpl in Hrun. injection Hrun as <-. simpl. by rewrite app_nil_r.
  - simpl in Hrun. rewrite bind_run, call_backward_unfold in Hrun.
    assert (Hself : n ∉ closure_targets (_backward (heap s !!! n))).
    { apply (Hquiet [] n l n); [done|left]. }
    rewrite call_as_contributions in Hrun; cycle 1.
    { intros r Hr. simpl in Hr. apply Hreads in Hr as ->; [done|left]. }
    simpl heap in Hrun. simpl log in Hrun.
    destruct (contributions rt (heap s) _) as [l0|e] eqn:Hl0; [|done].
    set (s1 := mkState _ _) in Hrun.
    assert (Hclos : forall i, _backward (heap s1 !!! i) = _backward (heap s !!! i)).
    { intros i. apply replay_log_backward. }
    destruct (IH s1 s') as [Hlog Hheap].
    { intros m Hm r. rewrite Hclos. apply Hreads. by right. }
    { intros l1 m l2 k -> Hk. rewrite Hclos.
      apply (Hquiet (n :: l1) m l2 k); [done|done]. }
    { exact Hrun. }
    assert (Hblock : block rt (heap s') n = EvCall n :: acc_events l0).
    { unfold block. rewrite Hheap, replay_log_backward, Hclos.
      rewrite (contributions_view rt (heap s)), Hl0; [done|..].
      - intros i. rewrite replay_log_data. apply replay_log_data.
      - intros r Hr. apply Hreads in Hr as ->; [|left].
        rewrite replay_log_grad_untouched.
        + apply replay_log_grad_untouched, acc_events_untouched.
          intros p Hp Heq. apply Hself.
          pose proof (contributions_targets _ _ _ _ _ Hl0 Hp) as Ht.
          by rewrite Heq in Ht.
        + apply Forall_forall. intros e He Htouch.
          apply list_elem_of_bind in He as (m & He & Hm).
          apply block_events in He as [->|(t & c & -> & Ht)]; [done|].
          simpl in Htouch. subst t.
          rewrite Hheap, replay_log_backward, Hclos in Ht.
          apply (Hquiet [] n l m); [done|by right|done]. }
    change ((n :: l) ≫= block rt (heap s'))
      with (block rt (heap s') n ++ (l ≫= block rt (heap s'))).
    rewrite Hblock. split.
    + rewrite Hlog. simpl. by rewrite <- !app_assoc.
    + etrans; [exact Hheap|]. by rewrite replay_log_app.
Qed.

(** A successful [backward] on a store with local closures: the log is
    the seed and then, call by call, what each closure adds given the
    [grad] its node has at the end. *)
Lemma backward_log_blocks rt s root s' :
  wf_heap (heap s) -> set_iter_ok rt -> root < length (heap s) ->
  closures_local (heap s) ->
  backward rt root s = (Ok tt, s') ->
  exists visited T,
    build_topo rt (S (length (heap s))) (heap s) root (∅, [])
    = Some (visited, T ++ [root]) /\
    NoDup (T ++ [root]) /\
    (forall n, n ∈ T ++ [root] <-> reachable (heap s) root n) /\
    log s' = log s ++ EvSeed root :: (rev (T ++ [root]) ≫= block rt (heap s')) /\
    heap s' = replay_log (alter (with_grad 1%float) root (heap s))
                (rev (T ++ [root]) ≫= block rt (heap s')).
Proof.
  intros Hwf Hiter Hroot Hloc Hrun.
  destruct (build_topo_root rt (heap s) root Hwf Hiter Hroot)
    as (visited & T & Htopo & Hnd & Hord & Hreach & _).
  exists visited, T. split_and!; [done..| |].
  all: rewrite (backward_unfold _ _ _ _ Htopo) in Hrun; cbn [snd] in Hrun.
  all: rewrite bind_run in Hrun; unfold seed_grad at 1 in Hrun.
  all: set (s0 := mkState (alter (with_grad 1%float) root (heap s))
                     (log s ++ [EvSeed root])) in Hrun.
  all: assert (Hclos : forall i, _backward (heap s0 !!! i) = _backward (heap s !!! i))
         by (intros i; simpl; by apply lookup_total_alter_proj).
  all: destruct (replay_final rt (rev (T ++ [root])) s0 s') as [Hlog Hheap];
    [ intros n _ r; rewrite Hclos; by apply closures_local_total
    | intros l1 n l2 m Hl Hm; rewrite Hclos;
      by apply (rev_topo_targets_quiet (heap s) (T ++ [root]) l1 n l2 m)
    | exact Hrun
    | ].
  - rewrite Hlog. simpl. by rewrite <- app_assoc.
  - exact Hheap.
Qed.

(** X7.  When [backward] returns on a well-formed store with local
    closures, the log is the seed followed, for the nodes of [topo] from
    the last to the first, by the call of the node's closure and the
    contributions of that closure computed from the final store: each
    closure saw its node's final [grad].  So the root's [grad] is [1.0]
    and that of any other node is its old [grad] plus those
    contributions, added in the order of the calls. *)
Theorem backward_equations rt s root s' :
  wf_heap (heap s) -> set_iter_ok rt -> root < length (heap s) ->
  closures_local (heap s) ->
  backward rt root s = (Ok tt, s') ->
  exists visited topo,
    build_topo rt (S (length (heap s))) (heap s) root (∅, [])
    = Some (visited, topo) /\
    log s' = log s ++ EvSeed root :: (rev topo ≫= block rt (heap s')) /\
    grad (heap s' !!! root) = 1%float /\
    forall t, t < length (heap s) -> t <> root ->
      grad (heap s' !!! t)
      = fold_left PrimFloat.add
          (contribs t (rev topo ≫= block rt (heap s')))
          (grad (heap s !!! t)).
Proof.
  intros Hwf Hiter Hroot Hloc Hrun.
  destruct (backward_log_blocks rt s root s' Hwf Hiter Hroot Hloc Hrun)
    as (visited & T & Htopo & _ & _ & Hlog & Hheap).
  exists visited, (T ++ [root]). split_and!; [done..| |].
  - pose proof (root_grad_one rt s root Hwf Hiter Hroot) as Hg.
    by rewrite Hrun in Hg.
  - intros t Ht Hne. etrans; [by rewrite Hheap|].
    rewrite replay_log_grad_acc.
    + by rewrite grad_alter_ne.
    + by rewrite length_alter.
    + apply blocks_not_seed.
Qed.

Lemma backward_equations_witness :
  grad (heap (backward model_rt 3 ex_state).2 !!! 3) = 1%float /\
  grad (heap (backward model_rt 3 ex_state).2 !!! 0) = 4%float.
Proof.
  destruct (backward_equations model_rt ex_state 3 (backward model_rt 3 ex_state).2)
    as (visited & topo & _ & _ & Hroot & Hgrads).
  - apply wf_ex_heap.
  - apply set_iter_ok_model.
  - simpl. lia.
  - apply local_ex_heap.
  - vm_compute. reflexivity.
  - split; [exact Hroot|]. vm_compute. reflexivity.
Defined.

(** * When [backward] returns *)

Lemma for_each_ok {A} (l : list A) (body : A -> M unit) s :
  (forall x s, x ∈ l -> (body x s).1 = Ok tt) ->
  (for_each l body s).1 = Ok tt.
Proof.
  revert s. induction l as [|x l IH]; intros s Hbody; [done|].
  simpl. rewrite bind_run.
  pose proof (Hbody x s (list_elem_of_here _ _)) as Hx.
  destruct (body x s) as [[[]|e] s1]; [|done].
  apply IH. intros y s2 Hy. apply Hbody. by right.
Qed.

Lemma softmax_backward_ok values out s :
  (softmax_backward values out s).1 = Ok tt.
Proof.
  unfold softmax_backward. apply for_each_ok. intros i s1 _.
  apply for_each_ok. intros j s2 _. munfold. by destruct (decide (i = j)).
Qed.

Lemma call_total_or_raise rt c s :
  (closure_total rt (heap s) c /\ (call rt c s).1 = Ok tt) \/
  (~ closure_total rt (heap s) c /\ exists e, call rt c s = (Raise e, s)).
Proof.
  destruct c as [|x y o|x y o|x n o|x o|x t o|values out]; simpl;
    try (left; split; [exact I|reflexivity]).
  - munfold. destruct (float_pow rt _ _) as [p|e] eqn:Hp.
    + left. split; [by exists p|done].
    + right. split; [intros [p Hp']; congruence|by exists e].
  - munfold. destruct (float_pow rt _ _) as [p|e] eqn:Hp.
    + left. split; [by exists p|done].
    + right. split; [intros [p Hp']; congruence|by exists e].
  - left. split; [exact I|apply softmax_backward_ok].
Qed.

Lemma closure_total_replay rt h evs n :
  closure_total rt (replay_log h evs) (_backward (replay_log h evs !!! n))
  <-> closure_total rt h (_backward (h !!! n)).
Proof.
  rewrite replay_log_backward.
  destruct (_backward (h !!! n)); simpl; try done.
  by rewrite replay_log_data.
Qed.

Lemma replay_ok_iff rt l :
  forall s,
    (for_each l (call_backward rt) s).1 = Ok tt
    <-> forall n, n ∈ l -> closure_total rt (heap s) (_backward (heap s !!! n)).
Proof.
  induction l as [|k l IH]; intros s.
  - split; [|done]. intros _ n Hn. by apply elem_of_nil in Hn.
  - simpl. rewrite bind_run.
    destruct (call_backward_events rt k s) as (accs & _ & Hh1 & _).
    rewrite call_backward_unfold in Hh1 |- *.
    destruct (call_total_or_raise rt (_backward (heap s !!! k))
                (mkState (heap s) (log s ++ [EvCall k])))
      as [[Htot Hok]|[Hnot (e & Hraise)]].
    + simpl in Htot. destruct (call rt _ _) as [[[]|e] s1]; [|done]. simpl in Hh1.
      rewrite IH. split.
      * intros Hall n [->|Hn]%elem_of_cons; [done|].
        apply Hall in Hn. by rewrite Hh1, closure_total_replay in Hn.
      * intros Hall n Hn. rewrite Hh1, closure_total_replay.
        apply Hall. by right.
    + simpl in Hnot. rewrite Hraise. simpl. split; [done|].
      intros Hall. destruct Hnot. apply Hall. left.
Qed.

Lemma backward_returns_iff rt s root :
  wf_heap (heap s) -> set_iter_ok rt -> root < length (heap s) ->
  (backward rt root s).1 = Ok tt
  <-> forall n, reachable (heap s) root n ->
        closure_total rt (heap s) (_backward (heap s !!! n)).
Proof.
  intros Hwf Hiter Hroot.
  destruct (build_topo_root rt (heap s) root Hwf Hiter Hroot)
    as (visited & T & Htopo & _ & _ & Hreach & _).
  rewrite (backward_unfold _ _ _ _ Htopo). cbn [snd].
  rewrite bind_run. unfold seed_grad at 1.
  rewrite replay_ok_iff. simpl heap.
  change (alter (with_grad 1%float) root (heap s))
    with (replay_log (heap s) [EvSeed root]).
  split.
  - intros Hall n Hn. apply Hreach, list_elem_of_In, in_rev, list_elem_of_In in Hn.
    apply Hall in Hn. by rewrite closure_total_replay in Hn.
  - intros Hall n Hn. rewrite closure_total_replay. apply Hall, Hreach.
    by apply list_elem_of_In, in_rev, list_elem_of_In.
Qed.

Lemma call_raise_inv rt c s e :
  (call rt c s).1 = Raise e -> closure_raises rt (heap s) c e.
Proof.
  destruct c as [|x y o|x y o|x n o|x o|x t o|values out]; simpl; try done.
  - munfold. by destruct (float_pow rt _ _) as [p|e'] eqn:Hp; [|intros [= <-]].
  - munfold. by destruct (float_pow rt _ _) as [p|e'] eqn:Hp; [|intros [= <-]].
  - by rewrite softmax_backward_ok.
Qed.

Lemma closure_raises_replay rt h evs n e :
  closure_raises rt (replay_log h evs) (_backward (replay_log h evs !!! n)) e
  <-> closure_raises rt h (_backward (h !!! n)) e.
Proof.
  rewrite replay_log_backward.
  destruct (_backward (h !!! n)); simpl; try done.
  by rewrite replay_log_data.
Qed.

Lemma replay_raise_inv rt l :
  forall s e,
    (for_each l (call_backward rt) s).1 = Raise e ->
    exists n, n ∈ l /\ closure_raises rt (heap s) (_backward (heap s !!! n)) e.
Proof.
  induction l as [|k l IH]; intros s e; [done|].
  simpl. rewrite bind_run.
  destruct (call_backward_events rt k s) as (accs & _ & Hh1 & _).
  pose proof (call_raise_inv rt (_backward (heap s !!! k))
                (mkState (heap s) (log s ++ [EvCall k]))) as Hinv.
  rewrite call_backward_unfold in Hh1 |- *.
  destruct (call rt _ _) as [[[]|e'] s1]; simpl in Hh1.
  - intros Hr. destruct (IH s1 e Hr) as (n & Hn & Hraise).
    exists n. split; [by right|].
    by rewrite Hh1, closure_raises_replay in Hraise.
  - intros [= <-]. exists k. split; [left|]. by apply Hinv.
Qed.

(** X8.  On a well-formed store [backward] returns exactly when, for the
    root and each of its ancestors that carries the closure of a [**] or
    of a [tanh], the power that closure evaluates ([self.data **
    (exponent - 1)], [t ** 2]) returns.  When [backward] raises, it
    raises the error of such a power. *)
Theorem backward_returns rt s root :
  wf_heap (heap s) -> set_iter_ok rt -> root < length (heap s) ->
  ((backward rt root s).1 = Ok tt
   <-> forall n, reachable (heap s) root n ->
         closure_total rt (heap s) (_backward (heap s !!! n))) /\
  (forall e, (backward rt root s).1 = Raise e ->
     exists n, reachable (heap s) root n /\
               closure_raises rt (heap s) (_backward (heap s !!! n)) e).
Proof.
  intros Hwf Hiter Hroot. split; [by apply backward_returns_iff|].
  intros e.
  destruct (build_topo_root rt (heap s) root Hwf Hiter Hroot)
    as (visited & T & Htopo & _ & _ & Hreach & _).
  rewrite (backward_unfold _ _ _ _ Htopo). cbn [snd].
  rewrite bind_run. unfold seed_grad at 1.
  intros Hr. apply replay_raise_inv in Hr as (n & Hn & Hraise).
  exists n. split.
  - by apply Hreach, list_elem_of_In, in_rev, list_elem_of_In.
  - simpl heap in Hraise.
    change (alter (with_grad 1%float) root (heap s))
      with (replay_log (heap s) [EvSeed root]) in Hraise.
    by rewrite closure_raises_replay in Hraise.
Qed.

Lemma backward_returns_witness :
  (backward model_rt 3 ex_state).1 = Ok tt
  <-> forall n, reachable ex_heap 3 n ->
        closure_total model_rt ex_heap (_backward (ex_heap !!! n)).
Proof.
  refine (proj1 (backward_returns model_rt ex_state 3 _ _ _)).
  - apply wf_ex_heap.
  - apply set_iter_ok_model.
  - simpl. lia.
Defined.

(** * More IEEE identities *)

Lemma SFmul_comm (x y : spec_float) : SF64mul x y = SF64mul y x.
Proof.
  unfold SF64mul, SFmul.
  destruct x as [sx|sx| |sx mx ex], y as [sy|sy| |sy my ey];
    rewrite ?(xorb_comm sx sy); try reflexivity.
  by rewrite (Pos.mul_comm mx my), (Z.add_comm ex ey).
Qed.

Lemma mul_comm (x y : float) : (x * y)%float = (y * x)%float.
Proof.
  apply Prim2SF_inj. rewrite !FloatAxioms.mul_spec. apply SFmul_comm.
Qed.

Lemma mul_one_r (x : float) : (x * 1)%float = x.
Proof. rewrite mul_comm. apply mul_one_l. Qed.

Lemma SFadd_comm (x y : spec_float) : SF64add x y = SF64add y x.
Proof.
  unfold SF64add, SFadd.
  destruct x as [sx|sx| |sx mx ex], y as [sy|sy| |sy my ey];
    try reflexivity; try (by destruct sx, sy).
  cbv zeta. by rewrite (Z.min_comm ex ey), Z.add_comm.
Qed.

Lemma add_comm (x y : float) : (x + y)%float = (y + x)%float.
Proof.
  apply Prim2SF_inj. rewrite !FloatAxioms.add_spec. apply SFadd_comm.
Qed.

Lemma SFadd_opp (x y : spec_float) : SF64add x (SFopp y) = SF64sub x y.
Proof.
  unfold SF64add, SFadd, SF64sub, SFsub, SFopp.
  destruct x as [sx|sx| |sx mx ex], y as [sy|sy| |sy my ey];
    try reflexivity; by destruct sx, sy.
Qed.

Lemma add_opp (x y : float) : (x + - y)%float = (x - y)%float.
Proof.
  apply Prim2SF_inj.
  rewrite FloatAxioms.add_spec, FloatAxioms.opp_spec, FloatAxioms.sub_spec.
  apply SFadd_opp.
Qed.

Lemma SFmul_neg_one_l (y : spec_float) :
  valid_binary y = true ->
  SF64mul (S754_finite true 4503599627370496 (-52)) y = SFopp y.
Proof.
  destruct y as [s|s| |s m e]; intros Hv; try reflexivity.
  unfold SF64mul, SFmul, SFopp. cbn [xorb].
  unfold valid_binary, bounded, canonical_mantissa in Hv.
  apply andb_prop in Hv as [Hc He].
  apply Z.eqb_eq in Hc.
  unfold binary_round_aux.
  change (Z.pos (4503599627370496 * m)) with
    (Z.pos (m~0~0~0~0~0~0~0~0~0~0~0~0~0~0~0~0~0~0~0~0~0~0~0~0~0~0
             ~0~0~0~0~0~0~0~0~0~0~0~0~0~0~0~0~0~0~0~0~0~0~0~0~0~0)).
  unfold shr_fexp at 1. unfold Zdigits2 at 1.
  rewrite digits_shift52.
  replace (Z.pos (digits2_pos m) + 52 + (-52 + e))%Z
    with (Z.pos (digits2_pos m) + e)%Z by lia.
  rewrite Hc.
  replace (e - (-52 + e))%Z with 52%Z by lia.
  unfold shr at 1. cbn [SpecFloat.iter_pos shr_1 shr_record_of_loc orb].
  cbn [shr_m loc_of_shr_record shr_r shr_s round_nearest_even].
  replace (-52 + e + 52)%Z with e by lia.
  unfold shr_fexp, Zdigits2. rewrite Hc.
  replace (e - e)%Z with 0%Z by lia. cbn [shr shr_record_of_loc shr_m].
  change (1024 - 53)%Z with 971%Z in *.
  rewrite He. reflexivity.
Qed.

Lemma mul_neg_one_r (x : float) : (x * -1)%float = (- x)%float.
Proof.
  rewrite mul_comm. apply Prim2SF_inj.
  rewrite FloatAxioms.mul_spec, FloatAxioms.opp_spec.
  change (Prim2SF (-1)) with (S754_finite true 4503599627370496 (-52)).
  apply SFmul_neg_one_l, Prim2SF_valid.
Qed.

(** The composite subtraction is the subtraction of the floats. *)
Lemma add_mul_neg_one (a b : float) : (a + b * -1)%float = (a - b)%float.
Proof. by rewrite mul_neg_one_r, add_opp. Qed.

Lemma SFeqb_refl (x : spec_float) : x <> S754_nan -> SFeqb x x = true.
Proof.
  unfold SFeqb, SFcompare. destruct x as [s|s| |s m e]; intros Hx;
    try done; destruct s; try done;
    by rewrite Z.compare_refl, pos_compare_cont_eq, Z.compare_refl.
Qed.

Lemma ltb_zero_pos (d : float) :
  (0 <? d)%float = true -> (d <? 0)%float = false /\ (d =? d)%float = true.
Proof.
  rewrite !FloatAxioms.ltb_spec, FloatAxioms.eqb_spec.
  change (Prim2SF 0) with (S754_zero false).
  destruct (Prim2SF d) as [s|s| |s m e] eqn:Hd; try done.
  - destruct s; [done|]. intros _. by split.
  - destruct s; [done|]. intros _. split; [done|]. by apply SFeqb_refl.
Qed.

Lemma eqb_nan_ltb (d : float) :
  (d =? d)%float = false -> (0 <? d)%float = false.
Proof.
  intros Hnan. destruct (0 <? d)%float eqn:Hlt; [|done].
  apply ltb_zero_pos in Hlt as [_ Heq]. congruence.
Qed.

(** * Gradients of the operators *)

Lemma wf_heap_prefix h news : wf_heap (h ++ news) -> wf_heap h.
Proof.
  intros Hwf i v Hi. apply (Hwf i v). by apply lookup_app_l_Some.
Qed.

Lemma reachable_app h news p n :
  wf_heap h -> p < length h ->
  reachable (h ++ news) p n <-> reachable h p n.
Proof.
  intros Hwf Hp. split.
  - intros Hr. induction Hr as [p|p q n Hq _ IH]; [apply rtc_refl|].
    rewrite lookup_total_app_l in Hq by done.
    eapply rtc_l; [exact Hq|]. apply IH.
    apply (wf_parent_lt _ _ _ Hwf) in Hq. lia.
  - intros Hr. induction Hr as [p|p q n Hq _ IH]; [apply rtc_refl|].
    eapply rtc_l; [by rewrite lookup_total_app_l|]. apply IH.
    apply (wf_parent_lt _ _ _ Hwf) in Hq. lia.
Qed.

Lemma feeds_app h news p t :
  wf_heap h -> p < length h ->
  feeds (h ++ news) p t <-> feeds h p t.
Proof.
  intros Hwf Hp. split.
  - intros (n & Hn & Ht). apply reachable_app in Hn; [|done..].
    pose proof (reachable_le _ _ _ Hwf Hn).
    rewrite lookup_total_app_l in Ht by lia. by exists n.
  - intros (n & Hn & Ht). pose proof (reachable_le _ _ _ Hwf Hn).
    exists n. split; [by apply reachable_app|].
    by rewrite lookup_total_app_l by lia.
Qed.

Lemma feeds_push_old s v p t :
  wf_heap (heap s) -> p < length (heap s) -> ~ feeds (heap s) p t ->
  ~ feeds (heap (push s v)) p t.
Proof. intros Hwf Hp Hf Hf'. apply Hf. by apply (feeds_app _ v). Qed.

(** [backward], with the call of the root's closure set apart. *)
Lemma backward_first_call rt s root :
  wf_heap (heap s) -> set_iter_ok rt -> root < length (heap s) ->
  exists T,
    (forall n, n ∈ T -> exists p, p ∈ _prev (heap s !!! root) /\
                                  reachable (heap s) p n) /\
    backward rt root s
    = (call rt (_backward (heap s !!! root)) ;; for_each (rev T) (call_backward rt))
        (mkState (alter (with_grad 1%float) root (heap s))
                 (log s ++ [EvSeed root; EvCall root])).
Proof.
  intros Hwf Hiter Hroot.
  destruct (build_topo_root rt (heap s) root Hwf Hiter Hroot)
    as (visited & T & Htopo & _ & _ & _ & HT).
  exists T. split; [exact HT|].
  rewrite (backward_unfold _ _ _ _ Htopo). simpl snd.
  rewrite rev_unit. simpl for_each.
  rewrite bind_run. unfold seed_grad at 1.
  rewrite !bind_run, call_backward_unfold.
  simpl heap. simpl log. rewrite <- app_assoc. simpl app.
  by rewrite (lookup_total_alter_proj _backward).
Qed.

(** When no closure below the root adds to [x.grad], what [backward]
    leaves there is what the root's closure left. *)
Lemma backward_grad_root_only rt s root x :
  wf_heap (heap s) -> set_iter_ok rt -> root < length (heap s) ->
  (forall p, p ∈ _prev (heap s !!! root) -> ~ feeds (heap s) p x) ->
  grad (heap (backward rt root s).2 !!! x)
  = grad (heap (call rt (_backward (heap s !!! root))
                  (mkState (alter (with_grad 1%float) root (heap s))
                           (log s ++ [EvSeed root; EvCall root]))).2 !!! x).
Proof.
  intros Hwf Hiter Hroot Hfeeds.
  destruct (backward_first_call rt s root Hwf Hiter Hroot) as (T & HT & ->).
  rewrite bind_run.
  set (s1 := mkState _ (log s ++ [EvSeed root; EvCall root])).
  destruct (writes_call rt (_backward (heap s !!! root)) s1) as (accs & _ & Hh1 & _).
  destruct (call rt (_backward (heap s !!! root)) s1) as [[[]|e] s2]; [|done].
  simpl in Hh1 |- *.
  destruct (replay_events rt (rev T) s2) as (evs & _ & Hh & HP & _).
  rewrite Hh. apply replay_log_grad_untouched.
  eapply Forall_impl; [exact HP|]. intros e He Htouch.
  destruct (replay_event_touch _ _ _ _ He Htouch) as (n & Hn & Ht).
  rewrite Hh1, replay_log_backward in Ht.
  rewrite (lookup_total_alter_proj _backward) in Ht by done.
  apply list_elem_of_In, in_rev, list_elem_of_In in Hn.
  destruct (HT n Hn) as (p & Hp & Hr).
  apply (Hfeeds p Hp). by exists n.
Qed.

(** The same, with the closure read as its list of contributions. *)
Lemma backward_grad_fresh rt s root x l :
  wf_heap (heap s) -> set_iter_ok rt -> root < length (heap s) ->
  x < root ->
  (forall p, p ∈ _prev (heap s !!! root) -> ~ feeds (heap s) p x) ->
  closure_reads (_backward (heap s !!! root)) = [root] ->
  contributions rt (alter (with_grad 1%float) root (heap s))
    (_backward (heap s !!! root)) = Ok l ->
  grad (heap (backward rt root s).2 !!! x)
  = fold_left PrimFloat.add (contribs x (acc_events l)) (grad (heap s !!! x)).
Proof.
  intros Hwf Hiter Hroot Hx Hfeeds Hreads Hl.
  rewrite backward_grad_root_only by done.
  rewrite call_as_contributions; cycle 1.
  { intros r Hr Ht. rewrite Hreads in Hr.
    apply list_elem_of_singleton in Hr as ->.
    apply (wf_target_lt _ _ _ Hwf) in Ht. lia. }
  simpl heap. rewrite Hl. simpl.
  rewrite replay_log_grad_acc.
  - rewrite grad_alter_ne by lia. done.
  - rewrite length_alter. lia.
  - apply Forall_fmap, Forall_forall. by intros p _ r.
Qed.

(** A failing first call ends [backward] with the seed alone. *)
Lemma backward_first_raise rt s root e :
  wf_heap (heap s) -> set_iter_ok rt -> root < length (heap s) ->
  closure_reads (_backward (heap s !!! root)) = [root] ->
  contributions rt (alter (with_grad 1%float) root (heap s))
    (_backward (heap s !!! root)) = Raise e ->
  backward rt root s
  = (Raise e, mkState (alter (with_grad 1%float) root (heap s))
                      (log s ++ [EvSeed root; EvCall root])).
Proof.
  intros Hwf Hiter Hroot Hreads Hl.
  destruct (backward_first_call rt s root Hwf Hiter Hroot) as (T & _ & ->).
  rewrite bind_run, call_as_contributions; cycle 1.
  { intros r Hr Ht. rewrite Hreads in Hr.
    apply list_elem_of_singleton in Hr as ->.
    apply (wf_target_lt _ _ _ Hwf) in Ht. lia. }
  simpl heap. by rewrite Hl.
Qed.

Lemma seeded_grad (h : list Value) (z : ref) :
  z < length h -> grad (alter (with_grad 1%float) z h !!! z) = 1%float.
Proof. intros Hz. by rewrite grad_alter_eq. Qed.

Lemma seeded_data (h : list Value) (z i : ref) :
  data (alter (with_grad 1%float) z h !!! i) = data (h !!! i).
Proof. by apply lookup_total_alter_proj. Qed.

Lemma unary_not_feeds s (v : Value) x p :
  wf_heap (heap s) -> x < length (heap s) ->
  p ∈ ({[x]} : gset ref) -> ~ feeds (heap (push s [v])) p x.
Proof.
  intros Hwf Hx ->%elem_of_singleton.
  apply feeds_push_old; [done..|]. by apply wf_not_feeds_self.
Qed.

Lemma push_lookup s news i v :
  news !! i = Some v -> heap (push s news) !!! (length (heap s) + i) = v.
Proof.
  intros Hi. unfold push. simpl.
  rewrite lookup_total_app_r by lia.
  replace (length (heap s) + i - length (heap s)) with i by lia.
  by apply list_lookup_total_correct.
Qed.

Lemma push_old s news i :
  i < length (heap s) -> heap (push s news) !!! i = heap s !!! i.
Proof. intros Hi. unfold push. simpl. by rewrite lookup_total_app_l. Qed.

Lemma push_length s news :
  length (heap (push s news)) = length (heap s) + length news.
Proof. unfold push. simpl. apply length_app. Qed.

Lemma push_lookup_1 s (a b : Value) :
  heap (push s [a; b]) !!! S (length (heap s)) = b.
Proof. apply lookup_total_app2_second. Qed.

Lemma backward_data rt root s i :
  data (heap (backward rt root s).2 !!! i) = data (heap s !!! i).
Proof.
  destruct (backward_heap_replay rt root s) as [evs ->]. apply replay_log_data.
Qed.

(** ** One step below the root *)

(** X9.  [z = x + y] for two distinct nodes neither of which is fed by
    the other or by the other's ancestors: [z.data] is [x.data + y.data],
    and after [z.backward()] the [grad] of [z] is [1.0] and those of [x]
    and [y] have grown by [1.0]. *)
Theorem add_backward rt s x y :
  wf_heap (heap s) -> set_iter_ok rt ->
  x < length (heap s) -> y < length (heap s) -> x <> y ->
  ~ feeds (heap s) y x -> ~ feeds (heap s) x y ->
  let z := length (heap s) in
  exists s1,
    __add__ x (ONode y) s = (Ok z, s1) /\
    data (heap s1 !!! z) = (data (heap s !!! x) + data (heap s !!! y))%float /\
    grad (heap (backward rt z s1).2 !!! z) = 1%float /\
    grad (heap (backward rt z s1).2 !!! x) = (grad (heap s !!! x) + 1)%float /\
    grad (heap (backward rt z s1).2 !!! y) = (grad (heap s !!! y) + 1)%float.
Proof.
  intros Hwf Hiter Hx Hy Hne Hyx Hxy z.
  eexists. split; [apply add_node_spec|].
  set (s1 := push s _).
  assert (Hz : heap s1 !!! z = mkValue (data (heap s !!! x) + data (heap s !!! y))
            0%float (list_to_set [x; y]) OpAdd (AddBackward x y z)).
  { apply lookup_total_snoc_new. }
  assert (Hlen : length (heap s1) = S z).
  { unfold s1, push. simpl. by rewrite length_snoc. }
  assert (Hwf1 : wf_heap (heap s1)).
  { unfold s1, push. simpl. apply wf_heap_snoc; [done|..]; simpl; refs_lt. }
  assert (Hold : forall i, i < z -> grad (heap s1 !!! i) = grad (heap s !!! i)).
  { intros i Hi. unfold s1, push. simpl. by rewrite lookup_total_snoc_old. }
  assert (Hfeed : forall t, t < z -> (t = x -> ~ feeds (heap s) y x) ->
            (t = y -> ~ feeds (heap s) x y) -> t = x \/ t = y ->
            forall p, p ∈ _prev (heap s1 !!! z) -> ~ feeds (heap s1) p t).
  { intros t Ht Htx Hty Hcase p Hp. rewrite Hz in Hp. simpl in Hp.
    unfold s1. set_unfold in Hp. destruct Hp as [->|[->|[]]].
    - destruct Hcase as [->| ->].
      + apply feeds_push_old; [done..|]. by apply wf_not_feeds_self.
      + apply feeds_push_old; [done..|]. by apply Hty.
    - destruct Hcase as [->| ->].
      + apply feeds_push_old; [done..|]. by apply Htx.
      + apply feeds_push_old; [done..|]. by apply wf_not_feeds_self. }
  split_and!.
  - by rewrite Hz.
  - apply root_grad_one; [done..|lia].
  - rewrite (backward_grad_fresh rt s1 z x [(x, 1%float); (y, 1%float)]);
      [| done | done | lia | done | by apply Hfeed; auto | by rewrite Hz | ].
    + simpl. rewrite decide_True by done. rewrite decide_False by done.
      simpl. by rewrite Hold.
    + rewrite Hz. cbn [_backward contributions]. by rewrite seeded_grad by lia.
  - rewrite (backward_grad_fresh rt s1 z y [(x, 1%float); (y, 1%float)]);
      [| done | done | lia | done | by apply Hfeed; auto | by rewrite Hz | ].
    + simpl. rewrite decide_False by done. rewrite decide_True by done.
      simpl. by rewrite Hold.
    + rewrite Hz. cbn [_backward contributions]. by rewrite seeded_grad by lia.
Qed.

Lemma add_backward_witness :
  exists s1,
    __add__ 0 (ONode 1) ex_state = (Ok 4, s1) /\
    grad (heap (backward model_rt 4 s1).2 !!! 0) = 1%float /\
    grad (heap (backward model_rt 4 s1).2 !!! 1) = 1%float.
Proof.
  destruct (add_backward model_rt ex_state 0 1)
    as (s1 & Hrun & _ & _ & Hx & Hy).
  - apply wf_ex_heap.
  - apply set_iter_ok_model.
  - simpl. lia.
  - simpl. lia.
  - lia.
  - apply ex_leaf_1.
  - apply ex_leaf_0.
  - exists s1. split_and!; [exact Hrun|exact Hx|exact Hy].
Defined.

(** X10.  [z = x * y] for two such nodes: [z.data] is [x.data * y.data],
    and after [z.backward()] the [grad] of [x] has grown by [y.data] and
    that of [y] by [x.data] (each times [z.grad], which is [1.0]). *)
Theorem mul_backward rt s x y :
  wf_heap (heap s) -> set_iter_ok rt ->
  x < length (heap s) -> y < length (heap s) -> x <> y ->
  ~ feeds (heap s) y x -> ~ feeds (heap s) x y ->
  let z := length (heap s) in
  exists s1,
    __mul__ x (ONode y) s = (Ok z, s1) /\
    data (heap s1 !!! z) = (data (heap s !!! x) * data (heap s !!! y))%float /\
    grad (heap (backward rt z s1).2 !!! z) = 1%float /\
    grad (heap (backward rt z s1).2 !!! x)
    = (grad (heap s !!! x) + data (heap s !!! y))%float /\
    grad (heap (backward rt z s1).2 !!! y)
    = (grad (heap s !!! y) + data (heap s !!! x))%float.
Proof.
  intros Hwf Hiter Hx Hy Hne Hyx Hxy z.
  eexists. split; [apply mul_node_spec|].
  set (s1 := push s _).
  assert (Hz : heap s1 !!! z = mkValue (data (heap s !!! x) * data (heap s !!! y))
            0%float (list_to_set [x; y]) OpMul (MulBackward x y z)).
  { apply lookup_total_snoc_new. }
  assert (Hlen : length (heap s1) = S z).
  { unfold s1, push. simpl. by rewrite length_snoc. }
  assert (Hwf1 : wf_heap (heap s1)).
  { unfold s1, push. simpl. apply wf_heap_snoc; [done|..]; simpl; refs_lt. }
  assert (Hold : forall i, i < z -> heap s1 !!! i = heap s !!! i).
  { intros i Hi. unfold s1, push. simpl. by rewrite lookup_total_snoc_old. }
  assert (Hfeed : forall t, t < z -> (t = x -> ~ feeds (heap s) y x) ->
            (t = y -> ~ feeds (heap s) x y) -> t = x \/ t = y ->
            forall p, p ∈ _prev (heap s1 !!! z) -> ~ feeds (heap s1) p t).
  { intros t Ht Htx Hty Hcase p Hp. rewrite Hz in Hp. simpl in Hp.
    unfold s1. set_unfold in Hp. destruct Hp as [->|[->|[]]].
    - destruct Hcase as [->| ->].
      + apply feeds_push_old; [done..|]. by apply wf_not_feeds_self.
      + apply feeds_push_old; [done..|]. by apply Hty.
    - destruct Hcase as [->| ->].
      + apply feeds_push_old; [done..|]. by apply Htx.
      + apply feeds_push_old; [done..|]. by apply wf_not_feeds_self. }
  assert (Hl : contributions rt (alter (with_grad 1%float) z (heap s1))
                 (_backward (heap s1 !!! z))
               = Ok [(x, data (heap s !!! y)); (y, data (heap s !!! x))]).
  { rewrite Hz. cbn [_backward contributions].
    rewrite seeded_grad, !seeded_data, !Hold, !mul_one_r by lia. done. }
  split_and!.
  - by rewrite Hz.
  - apply root_grad_one; [done..|lia].
  - rewrite (backward_grad_fresh rt s1 z x _ Hwf1 Hiter
               ltac:(lia) ltac:(lia)
               ltac:(apply Hfeed; auto) ltac:(by rewrite Hz) Hl).
    simpl. rewrite decide_True by done. rewrite decide_False by done.
    simpl. by rewrite Hold.
  - rewrite (backward_grad_fresh rt s1 z y _ Hwf1 Hiter
               ltac:(lia) ltac:(lia)
               ltac:(apply Hfeed; auto) ltac:(by rewrite Hz) Hl).
    simpl. rewrite decide_False by done. rewrite decide_True by done.
    simpl. by rewrite Hold.
Qed.

Lemma mul_backward_witness :
  exists s1,
    __mul__ 0 (ONode 1) ex_state = (Ok 4, s1) /\
    grad (heap (backward model_rt 4 s1).2 !!! 0) = 3%float /\
    grad (heap (backward model_rt 4 s1).2 !!! 1) = 2%float.
Proof.
  destruct (mul_backward model_rt ex_state 0 1)
    as (s1 & Hrun & _ & _ & Hx & Hy).
  - apply wf_ex_heap.
  - apply set_iter_ok_model.
  - simpl. lia.
  - simpl. lia.
  - lia.
  - apply ex_leaf_1.
  - apply ex_leaf_0.
  - exists s1. split_and!; [exact Hrun|exact Hx|exact Hy].
Defined.

(** X11.  [z = x * x]: both contributions go to [x], whose [grad] ends as
    [(g + x.data) + x.data]. *)
Theorem mul_self_backward rt s x :
  wf_heap (heap s) -> set_iter_ok rt -> x < length (heap s) ->
  let z := length (heap s) in
  exists s1,
    __mul__ x (ONode x) s = (Ok z, s1) /\
    data (heap s1 !!! z) = (data (heap s !!! x) * data (heap s !!! x))%float /\
    grad (heap (backward rt z s1).2 !!! x)
    = (grad (heap s !!! x) + data (heap s !!! x) + data (heap s !!! x))%float.
Proof.
  intros Hwf Hiter Hx z.
  eexists. split; [apply mul_node_spec|].
  set (s1 := push s _).
  assert (Hz : heap s1 !!! z = mkValue (data (heap s !!! x) * data (heap s !!! x))
            0%float (list_to_set [x; x]) OpMul (MulBackward x x z)).
  { apply lookup_total_snoc_new. }
  assert (Hlen : length (heap s1) = S z).
  { unfold s1, push. simpl. by rewrite length_snoc. }
  assert (Hwf1 : wf_heap (heap s1)).
  { unfold s1, push. simpl. apply wf_heap_snoc; [done|..]; simpl; refs_lt. }
  assert (Hold : forall i, i < z -> heap s1 !!! i = heap s !!! i).
  { intros i Hi. unfold s1, push. simpl. by rewrite lookup_total_snoc_old. }
  assert (Hl : contributions rt (alter (with_grad 1%float) z (heap s1))
                 (_backward (heap s1 !!! z))
               = Ok [(x, data (heap s !!! x)); (x, data (heap s !!! x))]).
  { rewrite Hz. cbn [_backward contributions].
    rewrite seeded_grad, !seeded_data, !Hold, !mul_one_r by lia. done. }
  split; [by rewrite Hz|].
  assert (Hfeed : forall p, p ∈ _prev (heap s1 !!! z) -> ~ feeds (heap s1) p x).
  { intros p Hp. rewrite Hz in Hp. simpl in Hp. unfold s1.
    set_unfold in Hp. destruct Hp as [->|[->|[]]];
      (apply feeds_push_old; [done..|]; by apply wf_not_feeds_self). }
  rewrite (backward_grad_fresh rt s1 z x _ Hwf1 Hiter
             ltac:(lia) ltac:(lia) Hfeed ltac:(by rewrite Hz) Hl).
  simpl. rewrite !decide_True by done. simpl. by rewrite Hold.
Qed.

Lemma mul_self_backward_witness :
  exists s1,
    __mul__ 1 (ONode 1) ex_state = (Ok 4, s1) /\
    data (heap s1 !!! 4) = 9%float /\
    grad (heap (backward model_rt 4 s1).2 !!! 1) = 6%float.
Proof.
  destruct (mul_self_backward model_rt ex_state 1) as (s1 & Hrun & Hd & Hx).
  - apply wf_ex_heap.
  - apply set_iter_ok_model.
  - simpl. lia.
  - exists s1. split_and!; [exact Hrun|exact Hd|exact Hx].
Defined.

(** X12.  [z = x ** n] for a number [n] whose power [x.data ** n]
    evaluates to [p0]: [z.data] is [p0].  When [x.data ** (n - 1)]
    evaluates to [p], [z.backward()] leaves [z.grad] at [1.0] and has
    added [n * p] to [x.grad]; when it raises, [z.backward()] raises the
    same error after the seed and the call, with every other [grad]
    as it was. *)
Theorem pow_backward rt s x n p0 :
  wf_heap (heap s) -> set_iter_ok rt -> x < length (heap s) ->
  float_pow rt (data (heap s !!! x)) n = Ok p0 ->
  let z := length (heap s) in
  exists s1,
    __pow__ rt x (PyNum n) s = (Ok z, s1) /\
    data (heap s1 !!! z) = p0 /\
    match float_pow rt (data (heap s !!! x)) (n - 1)%float with
    | Ok p =>
        grad (heap (backward rt z s1).2 !!! z) = 1%float /\
        grad (heap (backward rt z s1).2 !!! x) = (grad (heap s !!! x) + n * p)%float
    | Raise e =>
        backward rt z s1
        = (Raise e, mkState (alter (with_grad 1%float) z (heap s1))
                            (log s1 ++ [EvSeed z; EvCall z]))
    end.
Proof.
  intros Hwf Hiter Hx Hp0 z.
  eexists. split; [by rewrite pow_num_spec, Hp0|].
  set (s1 := push s _).
  assert (Hz : heap s1 !!! z
               = mkValue p0 0%float (list_to_set [x]) (OpPow n) (PowBackward x n z)).
  { apply lookup_total_snoc_new. }
  assert (Hlen : length (heap s1) = S z).
  { unfold s1, push. simpl. by rewrite length_snoc. }
  assert (Hwf1 : wf_heap (heap s1)).
  { unfold s1, push. simpl. apply wf_heap_snoc; [done|..]; simpl; refs_lt. }
  assert (Hold : forall i, i < z -> heap s1 !!! i = heap s !!! i).
  { intros i Hi. unfold s1, push. simpl. by rewrite lookup_total_snoc_old. }
  assert (Hfeed : forall p, p ∈ _prev (heap s1 !!! z) -> ~ feeds (heap s1) p x).
  { intros p Hp. rewrite Hz in Hp. simpl in Hp. rewrite (right_id_L ∅ (∪)) in Hp.
    by apply unary_not_feeds. }
  split; [by rewrite Hz|].
  destruct (float_pow rt (data (heap s !!! x)) (n - 1)%float) as [p|e] eqn:Hp.
  - assert (Hl : contributions rt (alter (with_grad 1%float) z (heap s1))
                   (_backward (heap s1 !!! z)) = Ok [(x, (n * p)%float)]).
    { rewrite Hz. cbn [_backward contributions].
      rewrite seeded_grad, !seeded_data, !Hold, Hp, !mul_one_r by lia. done. }
    split; [apply root_grad_one; [done..|lia]|].
    rewrite (backward_grad_fresh rt s1 z x _ Hwf1 Hiter
               ltac:(lia) ltac:(lia) Hfeed ltac:(by rewrite Hz) Hl).
    simpl. rewrite decide_True by done. simpl. by rewrite Hold.
  - apply backward_first_raise; [done|done|lia|by rewrite Hz|].
    rewrite Hz. cbn [_backward contributions].
    by rewrite !seeded_data, !Hold, Hp by lia.
Qed.

Lemma pow_backward_witness :
  exists s1,
    __pow__ model_rt 0 (PyNum 1%float) ex_state = (Ok 4, s1) /\
    data (heap s1 !!! 4) = 2%float /\
    grad (heap (backward model_rt 4 s1).2 !!! 0) = 1%float.
Proof.
  destruct (pow_backward model_rt ex_state 0 1%float 2%float)
    as (s1 & Hrun & Hd & _ & Hx).
  - apply wf_ex_heap.
  - apply set_iter_ok_model.
  - simpl. lia.
  - reflexivity.
  - exists s1. split_and!; [exact Hrun|exact Hd|exact Hx].
Defined.

(** X13.  [z = x.tanh()]: [z.data] is [t = math.tanh(x.data)].  When
    [t ** 2] evaluates to [p], [z.backward()] leaves [z.grad] at [1.0]
    and has added [1 - p] to [x.grad]; when it raises, [z.backward()]
    raises the same error after the seed and the call. *)
Theorem tanh_backward rt s x :
  wf_heap (heap s) -> set_iter_ok rt -> x < length (heap s) ->
  let z := length (heap s) in
  let t := math_tanh rt (data (heap s !!! x)) in
  exists s1,
    tanh rt x s = (Ok z, s1) /\
    data (heap s1 !!! z) = t /\
    match float_pow rt t 2%float with
    | Ok p =>
        grad (heap (backward rt z s1).2 !!! z) = 1%float /\
        grad (heap (backward rt z s1).2 !!! x) = (grad (heap s !!! x) + (1 - p))%float
    | Raise e =>
        backward rt z s1
        = (Raise e, mkState (alter (with_grad 1%float) z (heap s1))
                            (log s1 ++ [EvSeed z; EvCall z]))
    end.
Proof.
  intros Hwf Hiter Hx z t.
  eexists. split; [apply tanh_spec|].
  set (s1 := push s _).
  assert (Hz : heap s1 !!! z
               = mkValue t 0%float (list_to_set [x]) OpTanh (TanhBackward x t z)).
  { apply lookup_total_snoc_new. }
  assert (Hlen : length (heap s1) = S z).
  { unfold s1, push. simpl. by rewrite length_snoc. }
  assert (Hwf1 : wf_heap (heap s1)).
  { unfold s1, push. simpl. apply wf_heap_snoc; [done|..]; simpl; refs_lt. }
  assert (Hold : forall i, i < z -> heap s1 !!! i = heap s !!! i).
  { intros i Hi. unfold s1, push. simpl. by rewrite lookup_total_snoc_old. }
  assert (Hfeed : forall p, p ∈ _prev (heap s1 !!! z) -> ~ feeds (heap s1) p x).
  { intros p Hp. rewrite Hz in Hp. simpl in Hp. rewrite (right_id_L ∅ (∪)) in Hp.
    by apply unary_not_feeds. }
  split; [by rewrite Hz|].
  destruct (float_pow rt t 2%float) as [p|e] eqn:Hp.
  - assert (Hl : contributions rt (alter (with_grad 1%float) z (heap s1))
                   (_backward (heap s1 !!! z)) = Ok [(x, (1 - p)%float)]).
    { rewrite Hz. cbn [_backward contributions].
      rewrite seeded_grad, Hp, !mul_one_r by lia. done. }
    split; [apply root_grad_one; [done..|lia]|].
    rewrite (backward_grad_fresh rt s1 z x _ Hwf1 Hiter
               ltac:(lia) ltac:(lia) Hfeed ltac:(by rewrite Hz) Hl).
    simpl. rewrite decide_True by done. simpl. by rewrite Hold.
  - apply backward_first_raise; [done|done|lia|by rewrite Hz|].
    rewrite Hz. cbn [_backward contributions]. by rewrite Hp.
Qed.

Lemma tanh_backward_witness :
  exists s1,
    tanh model_rt 0 ex_state = (Ok 4, s1) /\
    data (heap s1 !!! 4) = model_tanh 2%float.
Proof.
  destruct (tanh_backward model_rt ex_state 0) as (s1 & Hrun & Hd & _).
  - apply wf_ex_heap.
  - apply set_iter_ok_model.
  - simpl. lia.
  - exists s1. split; [exact Hrun|exact Hd].
Defined.

(** ** A number as an operand *)

(** The store after an operator made a number a leaf and built a node
    over it: the facts [backward] needs. *)
Lemma push2_facts s (c : float) (v : Value) :
  wf_heap (heap s) ->
  (forall p, p ∈ _prev v -> p < S (length (heap s))) ->
  (forall t, t ∈ closure_targets (_backward v) -> t < S (length (heap s))) ->
  let s1 := push s [leaf c; v] in
  heap s1 !!! length (heap s) = leaf c /\
  heap s1 !!! S (length (heap s)) = v /\
  length (heap s1) = S (S (length (heap s))) /\
  wf_heap (heap s1) /\
  (forall i, i < length (heap s) -> heap s1 !!! i = heap s !!! i) /\
  (forall t, ~ feeds (heap s1) (length (heap s)) t).
Proof.
  intros Hwf Hp Ht s1.
  assert (Hleaf : heap s1 !!! length (heap s) = leaf c).
  { apply push_lookup_0. }
  split_and!.
  - exact Hleaf.
  - apply lookup_total_app2_second.
  - apply length_app2.
  - unfold s1, push. simpl. apply wf_heap_app; [done|].
    intros k w Hk. destruct k as [|[|k]]; simpl in Hk; [| |done].
    + injection Hk as <-. split; simpl; intros p Hp'; [set_solver|].
      by apply elem_of_nil in Hp'.
    + injection Hk as <-. rewrite Nat.add_1_r. by split.
  - intros i Hi. unfold s1, push. simpl. by rewrite lookup_total_app_l.
  - intros t. apply leaf_not_feeds; by rewrite Hleaf.
Qed.

Lemma mul_num_grads rt s x c :
  wf_heap (heap s) -> set_iter_ok rt -> x < length (heap s) ->
  let k := length (heap s) in
  let s1 := (__mul__ x (ONum c) s).2 in
  __mul__ x (ONum c) s = (Ok (S k), s1) /\
  heap s1 !!! k = leaf c /\
  data (heap s1 !!! S k) = (data (heap s !!! x) * c)%float /\
  grad (heap (backward rt (S k) s1).2 !!! S k) = 1%float /\
  grad (heap (backward rt (S k) s1).2 !!! x) = (grad (heap s !!! x) + c)%float /\
  grad (heap (backward rt (S k) s1).2 !!! k) = (0 + data (heap s !!! x))%float.
Proof.
  intros Hwf Hiter Hx k s1. subst k s1.
  rewrite mul_num_spec by done. cbn [snd]. split; [done|].
  set (v := mkValue _ _ _ _ _).
  destruct (push2_facts s c v Hwf) as (Hk & Hz & Hlen & Hwf1 & Hold & Hleaf).
  { unfold v. simpl. refs_lt. }
  { unfold v. simpl. refs_lt. }
  set (s1 := push s [leaf c; v]) in *.
  set (k := length (heap s)) in *.
  assert (Hfeed : forall p, p ∈ _prev (heap s1 !!! S k) -> ~ feeds (heap s1) p x).
  { intros p Hp. rewrite Hz in Hp. simpl in Hp. set_unfold in Hp.
    destruct Hp as [->|[->|[]]]; [|apply Hleaf].
    apply feeds_push_old; [done..|]. by apply wf_not_feeds_self. }
  assert (Hfeedk : forall p, p ∈ _prev (heap s1 !!! S k) -> ~ feeds (heap s1) p k).
  { intros p Hp. rewrite Hz in Hp. simpl in Hp. set_unfold in Hp.
    destruct Hp as [->|[->|[]]]; [|apply Hleaf].
    intros (m & Hm & Ht).
    apply (reachable_le _ _ _ Hwf1) in Hm.
    apply (wf_target_lt _ _ _ Hwf1) in Ht. lia. }
  assert (Hl : contributions rt (alter (with_grad 1%float) (S k) (heap s1))
                 (_backward (heap s1 !!! S k))
               = Ok [(x, c); (k, data (heap s !!! x))]).
  { rewrite Hz. cbn [_backward contributions v].
    rewrite seeded_grad, !seeded_data, Hk, !Hold, !mul_one_r by lia. done. }
  split_and!.
  - exact Hk.
  - by rewrite Hz.
  - apply root_grad_one; [done..|lia].
  - rewrite (backward_grad_fresh rt s1 (S k) x _ Hwf1 Hiter
               ltac:(lia) ltac:(lia) Hfeed ltac:(by rewrite Hz) Hl).
    rewrite !contribs_acc_cons, contribs_acc_nil.
    rewrite decide_True by done. rewrite decide_False by lia.
    cbn [fold_left]. by rewrite Hold.
  - rewrite (backward_grad_fresh rt s1 (S k) k _ Hwf1 Hiter
               ltac:(lia) ltac:(lia) Hfeedk ltac:(by rewrite Hz) Hl).
    rewrite !contribs_acc_cons, contribs_acc_nil.
    rewrite decide_False by lia. rewrite decide_True by done.
    cbn [fold_left]. by rewrite Hk.
Qed.

Lemma add_num_grads rt s x c :
  wf_heap (heap s) -> set_iter_ok rt -> x < length (heap s) ->
  let k := length (heap s) in
  let s1 := (__add__ x (ONum c) s).2 in
  __add__ x (ONum c) s = (Ok (S k), s1) /\
  heap s1 !!! k = leaf c /\
  data (heap s1 !!! S k) = (data (heap s !!! x) + c)%float /\
  grad (heap (backward rt (S k) s1).2 !!! S k) = 1%float /\
  grad (heap (backward rt (S k) s1).2 !!! x) = (grad (heap s !!! x) + 1)%float /\
  grad (heap (backward rt (S k) s1).2 !!! k) = 1%float.
Proof.
  intros Hwf Hiter Hx k s1. subst k s1.
  rewrite add_num_spec by done. cbn [snd]. split; [done|].
  set (v := mkValue _ _ _ _ _).
  destruct (push2_facts s c v Hwf) as (Hk & Hz & Hlen & Hwf1 & Hold & Hleaf).
  { unfold v. simpl. refs_lt. }
  { unfold v. simpl. refs_lt. }
  set (s1 := push s [leaf c; v]) in *.
  set (k := length (heap s)) in *.
  assert (Hfeed : forall p, p ∈ _prev (heap s1 !!! S k) -> ~ feeds (heap s1) p x).
  { intros p Hp. rewrite Hz in Hp. simpl in Hp. set_unfold in Hp.
    destruct Hp as [->|[->|[]]]; [|apply Hleaf].
    apply feeds_push_old; [done..|]. by apply wf_not_feeds_self. }
  assert (Hfeedk : forall p, p ∈ _prev (heap s1 !!! S k) -> ~ feeds (heap s1) p k).
  { intros p Hp. rewrite Hz in Hp. simpl in Hp. set_unfold in Hp.
    destruct Hp as [->|[->|[]]]; [|apply Hleaf].
    intros (m & Hm & Ht).
    apply (reachable_le _ _ _ Hwf1) in Hm.
    apply (wf_target_lt _ _ _ Hwf1) in Ht. lia. }
  assert (Hl : contributions rt (alter (with_grad 1%float) (S k) (heap s1))
                 (_backward (heap s1 !!! S k))
               = Ok [(x, 1%float); (k, 1%float)]).
  { rewrite Hz. cbn [_backward contributions v].
    rewrite seeded_grad by lia. done. }
  split_and!.
  - exact Hk.
  - by rewrite Hz.
  - apply root_grad_one; [done..|lia].
  - rewrite (backward_grad_fresh rt s1 (S k) x _ Hwf1 Hiter
               ltac:(lia) ltac:(lia) Hfeed ltac:(by rewrite Hz) Hl).
    rewrite !contribs_acc_cons, contribs_acc_nil.
    rewrite decide_True by done. rewrite decide_False by lia.
    cbn [fold_left]. by rewrite Hold.
  - rewrite (backward_grad_fresh rt s1 (S k) k _ Hwf1 Hiter
               ltac:(lia) ltac:(lia) Hfeedk ltac:(by rewrite Hz) Hl).
    rewrite !contribs_acc_cons, contribs_acc_nil.
    rewrite decide_False by lia. rewrite decide_True by done.
    cbn [fold_left]. by rewrite Hk.
Qed.

Lemma rsub_spec x c s :
  x < length (heap s) ->
  let k := length (heap s) in
  __rsub__ x c s
  = (Ok (S (S (S k))),
     push s [leaf (-1)%float;
             mkValue (data (heap s !!! x) * -1)%float
               0%float (list_to_set [x; k]) OpMul (MulBackward x k (S k));
             leaf c;
             mkValue (data (heap s !!! x) * -1 + c)%float
               0%float (list_to_set [S k; S (S k)]) OpAdd
               (AddBackward (S k) (S (S k)) (S (S (S k))))]).
Proof.
  intros Hx k. unfold __rsub__, __radd__.
  rewrite bind_run, neg_spec by done.
  rewrite add_num_spec; cycle 1.
  { rewrite push_length. simpl. lia. }
  rewrite push_length. simpl length.
  replace (length (heap s) + 2) with (S (S k)) by (unfold k; lia).
  rewrite push_lookup_1. by rewrite push_push.
Qed.

Lemma rtruediv_spec rt x c s :
  x < length (heap s) ->
  let k := length (heap s) in
  __rtruediv__ rt x c s
  = match float_pow rt (data (heap s !!! x)) (-1)%float with
    | Ok r =>
        (Ok (S (S k)),
         push s [mkValue r 0%float (list_to_set [x]) (OpPow (-1)%float)
                   (PowBackward x (-1)%float k);
                 leaf c;
                 mkValue (r * c)%float
                   0%float (list_to_set [k; S k]) OpMul
                   (MulBackward k (S k) (S (S k)))])
    | Raise e => (Raise e, s)
    end.
Proof.
  intros Hx k. unfold __rtruediv__, __rmul__.
  rewrite bind_run, pow_num_spec.
  destruct (float_pow rt _ _) as [r|e]; [|done].
  rewrite mul_num_spec; cycle 1.
  { rewrite push_length. simpl. lia. }
  rewrite push_length. simpl length.
  replace (length (heap s) + 1) with (S k) by (unfold k; lia).
  rewrite push_lookup_0.
  by rewrite push_push.
Qed.

(** X14.  [z = -x] is [x * -1]: [z.data] is the float [-x.data], and after
    [z.backward()] the [grad] of [x] is [g - 1]. *)
Theorem neg_backward rt s x :
  wf_heap (heap s) -> set_iter_ok rt -> x < length (heap s) ->
  let z := S (length (heap s)) in
  exists s1,
    __neg__ x s = (Ok z, s1) /\
    data (heap s1 !!! z) = (- data (heap s !!! x))%float /\
    grad (heap (backward rt z s1).2 !!! z) = 1%float /\
    grad (heap (backward rt z s1).2 !!! x) = (grad (heap s !!! x) - 1)%float.
Proof.
  intros Hwf Hiter Hx z. subst z.
  destruct (mul_num_grads rt s x (-1)%float Hwf Hiter Hx)
    as (Hrun & _ & Hd & Hgz & Hgx & _).
  exists (__mul__ x (ONum (-1)%float) s).2. split_and!.
  - exact Hrun.
  - rewrite Hd. apply mul_neg_one_r.
  - exact Hgz.
  - rewrite Hgx. apply (add_opp _ 1%float).
Qed.

Lemma neg_backward_witness :
  exists s1,
    __neg__ 1 ex_state = (Ok 5, s1) /\
    data (heap s1 !!! 5) = (-3)%float /\
    grad (heap (backward model_rt 5 s1).2 !!! 1) = (-1)%float.
Proof.
  destruct (neg_backward model_rt ex_state 1) as (s1 & Hrun & Hd & _ & Hx).
  - apply wf_ex_heap.
  - apply set_iter_ok_model.
  - simpl. lia.
  - exists s1. split_and!; [exact Hrun|exact Hd|exact Hx].
Defined.

(** X15.  [x + c] and [c + x] for a number [c] build the same two
    objects, the leaf [Value(c)] and a node over [x] and that leaf whose
    [data] is [x.data + c], which is [c + x.data]; after [backward] the
    [grad] of [x] has grown by [1.0] and that of the leaf is [1.0].
    For a float [c], [x - c] is [x + (-c)]: its [data] is the float
    [x.data - c]. *)
Theorem add_num_backward rt s x c :
  wf_heap (heap s) -> set_iter_ok rt -> x < length (heap s) ->
  let k := length (heap s) in
  let z := S (length (heap s)) in
  (exists s1,
     __add__ x (ONum c) s = (Ok z, s1) /\
     __radd__ x c s = (Ok z, s1) /\
     heap s1 !!! k = leaf c /\
     data (heap s1 !!! z) = (data (heap s !!! x) + c)%float /\
     data (heap s1 !!! z) = (c + data (heap s !!! x))%float /\
     grad (heap (backward rt z s1).2 !!! z) = 1%float /\
     grad (heap (backward rt z s1).2 !!! x) = (grad (heap s !!! x) + 1)%float /\
     grad (heap (backward rt z s1).2 !!! k) = 1%float) /\
  (exists s1,
     __sub__ x (ONum c) s = (Ok z, s1) /\
     heap s1 !!! k = leaf (- c)%float /\
     data (heap s1 !!! z) = (data (heap s !!! x) - c)%float /\
     grad (heap (backward rt z s1).2 !!! x) = (grad (heap s !!! x) + 1)%float).
Proof.
  intros Hwf Hiter Hx k z. subst k z. split.
  - destruct (add_num_grads rt s x c Hwf Hiter Hx)
      as (Hrun & Hleaf & Hd & Hgz & Hgx & Hgk).
    exists (__add__ x (ONum c) s).2. split_and!; try done.
    rewrite Hd. apply add_comm.
  - destruct (add_num_grads rt s x (- c)%float Hwf Hiter Hx)
      as (Hrun & Hleaf & Hd & Hgz & Hgx & Hgk).
    exists (__add__ x (ONum (- c)%float) s).2. split_and!; try done.
    rewrite Hd. apply add_opp.
Qed.

Lemma add_num_backward_witness :
  exists s1,
    __radd__ 1 5%float ex_state = (Ok 5, s1) /\
    data (heap s1 !!! 5) = 8%float /\
    grad (heap (backward model_rt 5 s1).2 !!! 1) = 1%float.
Proof.
  destruct (add_num_backward model_rt ex_state 1 5%float)
    as [(s1 & _ & Hrun & _ & _ & Hd & _ & Hx & _) _].
  - apply wf_ex_heap.
  - apply set_iter_ok_model.
  - simpl. lia.
  - exists s1. split_and!; [exact Hrun|exact Hd|exact Hx].
Defined.

(** X16.  [x * c] and [c * x] for a number [c] build the same two
    objects, the leaf [Value(c)] and a node over [x] and that leaf whose
    [data] is [x.data * c], which is [c * x.data]; after [backward] the
    [grad] of [x] has grown by [c] and that of the leaf is [0.0 +
    x.data]. *)
Theorem mul_num_backward rt s x c :
  wf_heap (heap s) -> set_iter_ok rt -> x < length (heap s) ->
  let k := length (heap s) in
  let z := S (length (heap s)) in
  exists s1,
    __mul__ x (ONum c) s = (Ok z, s1) /\
    __rmul__ x c s = (Ok z, s1) /\
    heap s1 !!! k = leaf c /\
    data (heap s1 !!! z) = (data (heap s !!! x) * c)%float /\
    data (heap s1 !!! z) = (c * data (heap s !!! x))%float /\
    grad (heap (backward rt z s1).2 !!! z) = 1%float /\
    grad (heap (backward rt z s1).2 !!! x) = (grad (heap s !!! x) + c)%float /\
    grad (heap (backward rt z s1).2 !!! k) = (0 + data (heap s !!! x))%float.
Proof.
  intros Hwf Hiter Hx k z. subst k z.
  destruct (mul_num_grads rt s x c Hwf Hiter Hx)
    as (Hrun & Hleaf & Hd & Hgz & Hgx & Hgk).
  exists (__mul__ x (ONum c) s).2. split_and!; try done.
  rewrite Hd. apply mul_comm.
Qed.

Lemma mul_num_backward_witness :
  exists s1,
    __rmul__ 1 5%float ex_state = (Ok 5, s1) /\
    data (heap s1 !!! 5) = 15%float /\
    grad (heap (backward model_rt 5 s1).2 !!! 1) = 5%float.
Proof.
  destruct (mul_num_backward model_rt ex_state 1 5%float)
    as (s1 & _ & Hrun & _ & _ & Hd & _ & Hx & _).
  - apply wf_ex_heap.
  - apply set_iter_ok_model.
  - simpl. lia.
  - exists s1. split_and!; [exact Hrun|exact Hd|exact Hx].
Defined.

(** X17.  [x / c] for a number [c] first evaluates [c ** -1]: when that
    raises, the division raises the same error and leaves the state as
    it was; otherwise it is [x * r] for the result [r], and [backward]
    adds [r] to [x.grad].  Where zero to the power [-1] raises
    [ZeroDivisionError], so do [x / 0.0] and [c / x] for an [x] whose
    [data] is zero, both without a trace in the state. *)
Theorem truediv_num_backward rt s x c :
  wf_heap (heap s) -> set_iter_ok rt -> x < length (heap s) ->
  let k := length (heap s) in
  let z := S (length (heap s)) in
  match float_pow rt c (-1)%float with
  | Ok r =>
      exists s1,
        __truediv__ rt x (ONum c) s = (Ok z, s1) /\
        heap s1 !!! k = leaf r /\
        data (heap s1 !!! z) = (data (heap s !!! x) * r)%float /\
        grad (heap (backward rt z s1).2 !!! x) = (grad (heap s !!! x) + r)%float
  | Raise e => __truediv__ rt x (ONum c) s = (Raise e, s)
  end /\
  (pow_zero_raises rt ->
   ((c =? 0)%float = true ->
    __truediv__ rt x (ONum c) s = (Raise ZeroDivisionError, s)) /\
   ((data (heap s !!! x) =? 0)%float = true ->
    __rtruediv__ rt x c s = (Raise ZeroDivisionError, s))).
Proof.
  intros Hwf Hiter Hx k z. subst k z. split.
  - unfold __truediv__. rewrite bind_run. unfold lift at 1.
    destruct (float_pow rt c (-1)%float) as [r|e]; [|done].
    destruct (mul_num_grads rt s x r Hwf Hiter Hx)
      as (Hrun & Hleaf & Hd & Hgz & Hgx & Hgk).
    exists (__mul__ x (ONum r) s).2. by split_and!.
  - intros Hpow. split.
    + intros Hc. unfold __truediv__. rewrite bind_run. unfold lift at 1.
      by rewrite (Hpow c Hc).
    + intros Hd. rewrite rtruediv_spec by done. by rewrite (Hpow _ Hd).
Qed.

Lemma truediv_num_backward_witness :
  __truediv__ model_rt 1 (ONum 0%float) ex_state
  = (Raise ZeroDivisionError, ex_state) /\
  __rtruediv__ model_rt 0 5%float zero_base_state
  = (Raise ZeroDivisionError, zero_base_state).
Proof.
  split.
  - refine (proj1 (truediv_num_backward model_rt ex_state 1 0%float _ _ _)).
    + apply wf_ex_heap.
    + apply set_iter_ok_model.
    + simpl. lia.
  - destruct (truediv_num_backward model_rt zero_base_state 0 5%float)
      as [_ Hzero].
    + intros i v Hi. destruct i as [|i]; simpl in Hi; simplify_eq.
      split; simpl; intros p Hp; set_unfold in Hp; tauto.
    + apply set_iter_ok_model.
    + simpl. lia.
    + apply Hzero; [apply pow_zero_raises_model|reflexivity].
Defined.

(** ** Two steps below the root *)

Lemma contribs_block rt hf n t :
  contribs t (block rt hf n)
  = match contributions rt hf (_backward (hf !!! n)) with
    | Ok l => contribs t (acc_events l)
    | Raise _ => []
    end.
Proof. unfold block. simpl. by destruct (contributions rt hf _). Qed.

Lemma contribs_untargeted t evs :
  Forall (fun e => ~ touches t e) evs -> contribs t evs = [].
Proof.
  induction 1 as [|e evs He _ IH]; [done|]. simpl.
  destruct e as [r|n|u c]; simpl in *; [done..|].
  by rewrite decide_False.
Qed.

Lemma contribs_block_other rt hf n t :
  t ∉ closure_targets (_backward (hf !!! n)) ->
  contribs t (block rt hf n) = [].
Proof.
  intros Ht. apply contribs_untargeted, Forall_forall. intros e He Htouch.
  apply block_events in He as [->|(u & c & -> & Hu)]; [done|].
  simpl in Htouch. by subst u.
Qed.

(** One node alone among the called ones adds to [t.grad]. *)
Lemma contribs_blocks_single rt hf l m t :
  NoDup l -> m ∈ l ->
  (forall n, n ∈ l -> n <> m -> t ∉ closure_targets (_backward (hf !!! n))) ->
  contribs t (l ≫= block rt hf) = contribs t (block rt hf m).
Proof.
  induction l as [|n l IH]; intros Hnd Hm Hothers.
  - by apply elem_of_nil in Hm.
  - change ((n :: l) ≫= block rt hf) with (block rt hf n ++ (l ≫= block rt hf)).
    rewrite contribs_app. apply NoDup_cons in Hnd as [Hn Hnd].
    apply elem_of_cons in Hm as [->|Hm].
    + rewrite (contribs_untargeted t (l ≫= block rt hf)), app_nil_r; [done|].
      apply Forall_forall. intros e He Htouch.
      apply list_elem_of_bind in He as (k & He & Hk).
      apply block_events in He as [->|(u & c & -> & Hu)]; [done|].
      simpl in Htouch. subst u.
      apply (Hothers k); [by right| |done]. intros ->. done.
    + rewrite contribs_block_other.
      * apply IH; [done..|]. intros k Hk. apply Hothers. by right.
      * apply Hothers; [left|]. intros ->. done.
Qed.

(** The [grad] of a node [t] to which, of all the nodes below the root,
    only the closure of [m], a parent of the root, adds. *)
Lemma chain_target rt s z m t s' lm :
  wf_heap (heap s) -> set_iter_ok rt -> z < length (heap s) ->
  closures_local (heap s) ->
  backward rt z s = (Ok tt, s') ->
  t < length (heap s) -> t <> z ->
  m ∈ _prev (heap s !!! z) ->
  t ∉ closure_targets (_backward (heap s !!! z)) ->
  (forall p, p ∈ _prev (heap s !!! z) -> p <> m -> ~ feeds (heap s) p t) ->
  (forall p, p ∈ _prev (heap s !!! m) -> ~ feeds (heap s) p t) ->
  contributions rt (heap s') (_backward (heap s !!! m)) = Ok lm ->
  grad (heap s' !!! t)
  = fold_left PrimFloat.add (contribs t (acc_events lm)) (grad (heap s !!! t)).
Proof.
  intros Hwf Hiter Hz Hloc Hrun Ht Htz Hm Hzt Hsib Hbelow Hlm.
  destruct (backward_log_blocks rt s z s' Hwf Hiter Hz Hloc Hrun)
    as (visited & T & _ & Hnd & Hreach & _ & Hheap).
  assert (Hclos : forall i, _backward (heap s' !!! i) = _backward (heap s !!! i)).
  { intros i. rewrite Hheap, replay_log_backward.
    by apply lookup_total_alter_proj. }
  etrans; [by rewrite Hheap|].
  rewrite replay_log_grad_acc;
    [|by rewrite length_alter|apply blocks_not_seed].
  rewrite grad_alter_ne by done. f_equal.
  rewrite (contribs_blocks_single rt (heap s') _ m t).
  - by rewrite contribs_block, Hclos, Hlm.
  - apply NoDup_ListNoDup, NoDup_rev, NoDup_ListNoDup, Hnd.
  - apply list_elem_of_In, in_rev. rewrite rev_involutive.
    apply list_elem_of_In, Hreach. eapply rtc_l; [exact Hm|apply rtc_refl].
  - intros n Hn Hnm. rewrite Hclos.
    apply list_elem_of_In, in_rev, list_elem_of_In, Hreach in Hn.
    apply reachable_root_inv in Hn as [->|(p & Hp & Hr)]; [done|].
    destruct (decide (p = m)) as [->|Hpm].
    + apply reachable_root_inv in Hr as [->|(q & Hq & Hr)]; [done|].
      intros Hin. apply (Hbelow q Hq). by exists n.
    + intros Hin. apply (Hsib p Hp Hpm). by exists n.
Qed.

(** X18.  [z = x - y] for two distinct nodes neither of which is fed by
    the other, on a store with local closures: [z.data] is the float
    [x.data - y.data]; [z.backward()] adds [1.0] to [x.grad] and, when it
    returns, has subtracted [1.0] from [y.grad]. *)
Theorem sub_backward rt s x y :
  wf_heap (heap s) -> set_iter_ok rt -> closures_local (heap s) ->
  x < length (heap s) -> y < length (heap s) -> x <> y ->
  ~ feeds (heap s) y x -> ~ feeds (heap s) x y ->
  let z := S (S (length (heap s))) in
  exists s1,
    __sub__ x (ONode y) s = (Ok z, s1) /\
    data (heap s1 !!! z) = (data (heap s !!! x) - data (heap s !!! y))%float /\
    grad (heap (backward rt z s1).2 !!! x) = (grad (heap s !!! x) + 1)%float /\
    ((backward rt z s1).1 = Ok tt ->
     grad (heap (backward rt z s1).2 !!! y) = (grad (heap s !!! y) - 1)%float).
Proof.
  intros Hwf Hiter Hloc Hx Hy Hne Hyx Hxy z. subst z.
  pose proof (sub_stays node_local node_local_leaf node_local_node
                x (ONode y) s Hloc Hx Hy) as (Hloc1 & _ & _).
  rewrite sub_node_spec in Hloc1 |- * by done. cbn [snd] in Hloc1.
  eexists. split; [done|].
  set (k := length (heap s)) in *.
  set (vn := mkValue (data (heap s !!! y) * -1) _ _ _ _) in *.
  set (vz := mkValue (data (heap s !!! x) + data (heap s !!! y) * -1) _ _ _ _) in *.
  set (s1 := push s [leaf (-1)%float; vn; vz]) in *.
  assert (Hk : heap s1 !!! k = leaf (-1)%float).
  { apply push_lookup_0. }
  assert (Hn : heap s1 !!! S k = vn).
  { rewrite <- (Nat.add_1_r k). by apply push_lookup. }
  assert (Hz : heap s1 !!! S (S k) = vz).
  { replace (S (S k)) with (k + 2) by lia. by apply push_lookup. }
  assert (Hlen : length (heap s1) = S (S (S k))).
  { unfold s1. rewrite push_length. simpl. unfold k. lia. }
  assert (Hold : forall i, i < k -> heap s1 !!! i = heap s !!! i).
  { intros i Hi. by apply push_old. }
  assert (Hwf1 : wf_heap (heap s1)).
  { unfold s1, push. simpl. apply wf_heap_app; [done|].
    intros j w Hj. destruct j as [|[|[|j]]]; simpl in Hj; [| | |done];
      injection Hj as <-; split; simpl; refs_lt. }
  assert (Hfk : forall t, ~ feeds (heap s1) k t).
  { intros t. apply leaf_not_feeds; by rewrite Hk. }
  assert (Hfx : ~ feeds (heap s1) x y).
  { by apply feeds_push_old. }
  assert (Hfn : ~ feeds (heap s1) (S k) x).
  { intros [Hin|(q & Hq & Hf)]%feeds_inv.
    - rewrite Hn in Hin. simpl in Hin. set_unfold in Hin. lia.
    - rewrite Hn in Hq. simpl in Hq. set_unfold in Hq.
      destruct Hq as [->|[->|[]]]; [|by apply Hfk in Hf].
      revert Hf. by apply feeds_push_old. }
  assert (Hlz : contributions rt (alter (with_grad 1%float) (S (S k)) (heap s1))
                  (_backward (heap s1 !!! S (S k)))
                = Ok [(x, 1%float); (S k, 1%float)]).
  { rewrite Hz. cbn [_backward contributions vz]. by rewrite seeded_grad by lia. }
  assert (Hgn : grad (heap (backward rt (S (S k)) s1).2 !!! S k) = (0 + 1)%float).
  { rewrite (backward_grad_fresh rt s1 (S (S k)) (S k)
               [(x, 1%float); (S k, 1%float)] Hwf1 Hiter
               ltac:(lia) ltac:(lia)); [| |by rewrite Hz|exact Hlz].
    - rewrite !contribs_acc_cons, contribs_acc_nil.
      rewrite decide_False by lia. rewrite decide_True by done.
      cbn [fold_left]. by rewrite Hn.
    - intros p Hp Hf. apply (feeds_lt _ _ _ Hwf1) in Hf.
      apply (wf_parent_lt _ _ _ Hwf1) in Hp as Hlt.
      rewrite Hz in Hp. simpl in Hp. set_unfold in Hp. lia. }
  split_and!.
  - rewrite Hz. apply add_mul_neg_one.
  - rewrite (backward_grad_fresh rt s1 (S (S k)) x
               [(x, 1%float); (S k, 1%float)] Hwf1 Hiter
               ltac:(lia) ltac:(lia)); [| |by rewrite Hz|exact Hlz].
    + rewrite !contribs_acc_cons, contribs_acc_nil.
      rewrite decide_True by done. rewrite decide_False by lia.
      cbn [fold_left]. by rewrite Hold.
    + intros p Hp. rewrite Hz in Hp. simpl in Hp. set_unfold in Hp.
      destruct Hp as [->|[->|[]]]; [|done].
      apply feeds_push_old; [done..|]. by apply wf_not_feeds_self.
  - intros Hok.
    destruct (backward rt (S (S k)) s1) as [r s'] eqn:Hrun.
    simpl in Hok, Hgn |- *. subst r.
    rewrite (chain_target rt s1 (S (S k)) (S k) y s'
               [(y, (-1)%float); (k, (data (heap s !!! y) * (0 + 1))%float)]
               Hwf1 Hiter ltac:(lia) Hloc1 Hrun ltac:(lia) ltac:(lia)).
    + rewrite !contribs_acc_cons, contribs_acc_nil.
      rewrite decide_True by done. rewrite decide_False by lia.
      cbn [fold_left]. rewrite Hold by done. apply (add_opp _ 1%float).
    + rewrite Hz. simpl. set_solver.
    + rewrite Hz. simpl. intros Hin. set_unfold in Hin. lia.
    + intros p Hp Hpn. rewrite Hz in Hp. simpl in Hp. set_unfold in Hp.
      destruct Hp as [->|[->|[]]]; done.
    + intros p Hp. rewrite Hn in Hp. simpl in Hp. set_unfold in Hp.
      destruct Hp as [->|[->|[]]]; [|done].
      apply feeds_push_old; [done..|]. by apply wf_not_feeds_self.
    + rewrite Hn. cbn [_backward contributions vn].
      pose proof (backward_data rt (S (S k)) s1) as Hd. rewrite Hrun in Hd.
      cbn [snd] in Hd. rewrite !Hd, Hgn, Hk, Hold by done. done.
Qed.

Lemma sub_backward_witness :
  exists s1,
    __sub__ 0 (ONode 1) ex_state = (Ok 6, s1) /\
    data (heap s1 !!! 6) = (-1)%float /\
    grad (heap (backward model_rt 6 s1).2 !!! 0) = 1%float /\
    grad (heap (backward model_rt 6 s1).2 !!! 1) = (-1)%float.
Proof.
  destruct (sub_backward model_rt ex_state 0 1)
    as (s1 & Hrun & Hd & Hx & Hy).
  - apply wf_ex_heap.
  - apply set_iter_ok_model.
  - apply local_ex_heap.
  - simpl. lia.
  - simpl. lia.
  - lia.
  - apply ex_leaf_1.
  - apply ex_leaf_0.
  - exists s1. split_and!; [exact Hrun|exact Hd|exact Hx|].
    apply Hy. injection Hrun as <-. vm_compute. reflexivity.
Defined.

(** X19.  [z = x / y] for two such nodes, where [y.data ** -1] evaluates
    to [r]: [z.data] is [x.data * r]; [z.backward()] adds [r] to
    [x.grad] and, when it returns, [y.data ** -2] evaluated to some [q]
    and [y.grad] has grown by [-1 * q * (0.0 + x.data)]. *)
Theorem truediv_backward rt s x y r :
  wf_heap (heap s) -> set_iter_ok rt -> closures_local (heap s) ->
  x < length (heap s) -> y < length (heap s) -> x <> y ->
  ~ feeds (heap s) y x -> ~ feeds (heap s) x y ->
  float_pow rt (data (heap s !!! y)) (-1)%float = Ok r ->
  let z := S (length (heap s)) in
  exists s1,
    __truediv__ rt x (ONode y) s = (Ok z, s1) /\
    data (heap s1 !!! z) = (data (heap s !!! x) * r)%float /\
    grad (heap (backward rt z s1).2 !!! x) = (grad (heap s !!! x) + r)%float /\
    ((backward rt z s1).1 = Ok tt ->
     exists q,
       float_pow rt (data (heap s !!! y)) (-2)%float = Ok q /\
       grad (heap (backward rt z s1).2 !!! y)
       = (grad (heap s !!! y) + -1 * q * (0 + data (heap s !!! x)))%float).
Proof.
  intros Hwf Hiter Hloc Hx Hy Hne Hyx Hxy Hr z. subst z.
  pose proof (truediv_stays node_local node_local_leaf node_local_node
                rt x (ONode y) s Hloc Hx Hy) as (Hloc1 & _ & _).
  rewrite truediv_node_spec, Hr in Hloc1 |- * by done. cbn [snd] in Hloc1.
  eexists. split; [done|].
  set (k := length (heap s)) in *.
  set (vp := mkValue r _ _ _ _) in *.
  set (vz := mkValue (data (heap s !!! x) * r) _ _ _ _) in *.
  set (s1 := push s [vp; vz]) in *.
  assert (Hk : heap s1 !!! k = vp).
  { apply push_lookup_0. }
  assert (Hz : heap s1 !!! S k = vz).
  { rewrite <- (Nat.add_1_r k). by apply push_lookup. }
  assert (Hlen : length (heap s1) = S (S k)).
  { unfold s1. rewrite push_length. simpl. unfold k. lia. }
  assert (Hold : forall i, i < k -> heap s1 !!! i = heap s !!! i).
  { intros i Hi. by apply push_old. }
  assert (Hwf1 : wf_heap (heap s1)).
  { unfold s1, push. simpl. apply wf_heap_app; [done|].
    intros j w Hj. destruct j as [|[|j]]; simpl in Hj; [| |done];
      injection Hj as <-; split; simpl; refs_lt. }
  assert (Hfx : ~ feeds (heap s1) x y).
  { by apply feeds_push_old. }
  assert (Hfk : ~ feeds (heap s1) k x).
  { intros [Hin|(q & Hq & Hf)]%feeds_inv.
    - rewrite Hk in Hin. simpl in Hin. set_unfold in Hin. lia.
    - rewrite Hk in Hq. simpl in Hq. set_unfold in Hq.
      destruct Hq as [->|[]]. revert Hf. by apply feeds_push_old. }
  assert (Hlz : contributions rt (alter (with_grad 1%float) (S k) (heap s1))
                  (_backward (heap s1 !!! S k))
                = Ok [(x, r); (k, data (heap s !!! x))]).
  { rewrite Hz. cbn [_backward contributions vz].
    rewrite seeded_grad, !seeded_data, Hk, Hold, !mul_one_r by lia. done. }
  assert (Hgk : grad (heap (backward rt (S k) s1).2 !!! k)
                = (0 + data (heap s !!! x))%float).
  { rewrite (backward_grad_fresh rt s1 (S k) k
               [(x, r); (k, data (heap s !!! x))] Hwf1 Hiter
               ltac:(lia) ltac:(lia)); [| |by rewrite Hz|exact Hlz].
    - rewrite !contribs_acc_cons, contribs_acc_nil.
      rewrite decide_False by lia. rewrite decide_True by done.
      cbn [fold_left]. by rewrite Hk.
    - intros p Hp Hf. apply (feeds_lt _ _ _ Hwf1) in Hf.
      rewrite Hz in Hp. simpl in Hp. set_unfold in Hp. lia. }
  split_and!.
  - by rewrite Hz.
  - rewrite (backward_grad_fresh rt s1 (S k) x
               [(x, r); (k, data (heap s !!! x))] Hwf1 Hiter
               ltac:(lia) ltac:(lia)); [| |by rewrite Hz|exact Hlz].
    + rewrite !contribs_acc_cons, contribs_acc_nil.
      rewrite decide_True by done. rewrite decide_False by lia.
      cbn [fold_left]. by rewrite Hold.
    + intros p Hp. rewrite Hz in Hp. simpl in Hp. set_unfold in Hp.
      destruct Hp as [->|[->|[]]]; [|done].
      apply feeds_push_old; [done..|]. by apply wf_not_feeds_self.
  - intros Hok.
    assert (Htot : closure_total rt (heap s1) (_backward (heap s1 !!! k))).
    { apply (backward_returns_iff rt s1 (S k) Hwf1 Hiter ltac:(lia)); [done|].
      eapply rtc_l; [|apply rtc_refl]. rewrite Hz. simpl. set_solver. }
    rewrite Hk in Htot. cbn [_backward closure_total vp] in Htot.
    rewrite Hold in Htot by done.
    change (-1 - 1)%float with (-2)%float in Htot.
    destruct Htot as [q Hq]. exists q. split; [done|].
    destruct (backward rt (S k) s1) as [res s'] eqn:Hrun.
    simpl in Hok, Hgk |- *. subst res.
    rewrite (chain_target rt s1 (S k) k y s'
               [(y, (-1 * q * (0 + data (heap s !!! x)))%float)]
               Hwf1 Hiter ltac:(lia) Hloc1 Hrun ltac:(lia) ltac:(lia)).
    + rewrite !contribs_acc_cons, contribs_acc_nil.
      rewrite decide_True by done. cbn [fold_left]. by rewrite Hold.
    + rewrite Hz. simpl. set_solver.
    + rewrite Hz. simpl. intros Hin. set_unfold in Hin. lia.
    + intros p Hp Hpn. rewrite Hz in Hp. simpl in Hp. set_unfold in Hp.
      destruct Hp as [->|[->|[]]]; done.
    + intros p Hp. rewrite Hk in Hp. simpl in Hp. set_unfold in Hp.
      destruct Hp as [->|[]].
      apply feeds_push_old; [done..|]. by apply wf_not_feeds_self.
    + rewrite Hk. cbn [_backward contributions vp].
      pose proof (backward_data rt (S k) s1) as Hd. rewrite Hrun in Hd.
      cbn [snd] in Hd. rewrite !Hd, Hgk, Hold by done.
      change (-1 - 1)%float with (-2)%float. by rewrite Hq.
Qed.

Lemma truediv_backward_witness :
  exists s1,
    __truediv__ model_rt 0 (ONode 1) ex_state = (Ok 5, s1) /\
    (backward model_rt 5 s1).1 = Ok tt /\
    exists q,
      float_pow model_rt 3%float (-2)%float = Ok q /\
      grad (heap (backward model_rt 5 s1).2 !!! 1)
      = (0 + -1 * q * (0 + 2))%float.
Proof.
  destruct (truediv_backward model_rt ex_state 0 1 nan)
    as (s1 & Hrun & _ & _ & Hy).
  - apply wf_ex_heap.
  - apply set_iter_ok_model.
  - apply local_ex_heap.
  - simpl. lia.
  - simpl. lia.
  - lia.
  - apply ex_leaf_1.
  - apply ex_leaf_0.
  - reflexivity.
  - assert (Hok : (backward model_rt 5 s1).1 = Ok tt).
    { injection Hrun as <-. vm_compute. reflexivity. }
    exists s1. split_and!; [exact Hrun|exact Hok|exact (Hy Hok)].
Defined.

(** X20.  [z = c - x] for a number [c] is [(-x) + c]: [z.data] is the
    float [c - x.data], and when [z.backward()] returns it has
    subtracted [1.0] from [x.grad]. *)
Theorem rsub_backward rt s x c :
  wf_heap (heap s) -> set_iter_ok rt -> closures_local (heap s) ->
  x < length (heap s) ->
  let z := S (S (S (length (heap s)))) in
  exists s1,
    __rsub__ x c s = (Ok z, s1) /\
    data (heap s1 !!! z) = (c - data (heap s !!! x))%float /\
    ((backward rt z s1).1 = Ok tt ->
     grad (heap (backward rt z s1).2 !!! x) = (grad (heap s !!! x) - 1)%float).
Proof.
  intros Hwf Hiter Hloc Hx z. subst z.
  pose proof (rsub_stays node_local node_local_leaf node_local_node
                x c s Hloc Hx) as (Hloc1 & _ & _).
  rewrite rsub_spec in Hloc1 |- * by done. cbn [snd] in Hloc1.
  eexists. split; [done|].
  set (k := length (heap s)) in *.
  set (vn := mkValue (data (heap s !!! x) * -1) _ _ _ _) in *.
  set (vz := mkValue (data (heap s !!! x) * -1 + c) _ _ _ _) in *.
  set (s1 := push s [leaf (-1)%float; vn; leaf c; vz]) in *.
  assert (Hk : heap s1 !!! k = leaf (-1)%float).
  { apply push_lookup_0. }
  assert (Hn : heap s1 !!! S k = vn).
  { rewrite <- (Nat.add_1_r k). by apply push_lookup. }
  assert (Hc : heap s1 !!! S (S k) = leaf c).
  { replace (S (S k)) with (k + 2) by lia. by apply push_lookup. }
  assert (Hz : heap s1 !!! S (S (S k)) = vz).
  { replace (S (S (S k))) with (k + 3) by lia. by apply push_lookup. }
  assert (Hlen : length (heap s1) = S (S (S (S k)))).
  { unfold s1. rewrite push_length. simpl. unfold k. lia. }
  assert (Hold : forall i, i < k -> heap s1 !!! i = heap s !!! i).
  { intros i Hi. by apply push_old. }
  assert (Hwf1 : wf_heap (heap s1)).
  { unfold s1, push. simpl. apply wf_heap_app; [done|].
    intros j w Hj. destruct j as [|[|[|[|j]]]]; simpl in Hj; [| | | |done];
      injection Hj as <-; split; simpl; refs_lt. }
  assert (Hfk : forall t, ~ feeds (heap s1) k t).
  { intros t. apply leaf_not_feeds; by rewrite Hk. }
  assert (Hfc : forall t, ~ feeds (heap s1) (S (S k)) t).
  { intros t. apply leaf_not_feeds; by rewrite Hc. }
  assert (Hlz : contributions rt (alter (with_grad 1%float) (S (S (S k))) (heap s1))
                  (_backward (heap s1 !!! S (S (S k))))
                = Ok [(S k, 1%float); (S (S k), 1%float)]).
  { rewrite Hz. cbn [_backward contributions vz]. by rewrite seeded_grad by lia. }
  assert (Hgn : grad (heap (backward rt (S (S (S k))) s1).2 !!! S k) = (0 + 1)%float).
  { rewrite (backward_grad_fresh rt s1 (S (S (S k))) (S k)
               [(S k, 1%float); (S (S k), 1%float)] Hwf1 Hiter
               ltac:(lia) ltac:(lia)); [| |by rewrite Hz|exact Hlz].
    - rewrite !contribs_acc_cons, contribs_acc_nil.
      rewrite decide_True by done. rewrite decide_False by lia.
      cbn [fold_left]. by rewrite Hn.
    - intros p Hp. rewrite Hz in Hp. simpl in Hp. set_unfold in Hp.
      destruct Hp as [->|[->|[]]]; [|done]. by apply wf_not_feeds_self. }
  split.
  - rewrite Hz. cbn [data vz].
    by rewrite mul_neg_one_r, add_comm, add_opp.
  - intros Hok.
    destruct (backward rt (S (S (S k))) s1) as [r s'] eqn:Hrun.
    simpl in Hok, Hgn |- *. subst r.
    rewrite (chain_target rt s1 (S (S (S k))) (S k) x s'
               [(x, (-1)%float); (k, (data (heap s !!! x) * (0 + 1))%float)]
               Hwf1 Hiter ltac:(lia) Hloc1 Hrun ltac:(lia) ltac:(lia)).
    + rewrite !contribs_acc_cons, contribs_acc_nil.
      rewrite decide_True by done. rewrite decide_False by lia.
      cbn [fold_left]. rewrite Hold by done. apply (add_opp _ 1%float).
    + rewrite Hz. simpl. set_solver.
    + rewrite Hz. simpl. intros Hin. set_unfold in Hin. lia.
    + intros p Hp Hpn. rewrite Hz in Hp. simpl in Hp. set_unfold in Hp.
      destruct Hp as [->|[->|[]]]; done.
    + intros p Hp. rewrite Hn in Hp. simpl in Hp. set_unfold in Hp.
      destruct Hp as [->|[->|[]]]; [|done].
      apply feeds_push_old; [done..|]. by apply wf_not_feeds_self.
    + rewrite Hn. cbn [_backward contributions vn].
      pose proof (backward_data rt (S (S (S k))) s1) as Hd. rewrite Hrun in Hd.
      cbn [snd] in Hd. rewrite !Hd, Hgn, Hk, Hold by done. done.
Qed.

Lemma rsub_backward_witness :
  exists s1,
    __rsub__ 1 5%float ex_state = (Ok 7, s1) /\
    data (heap s1 !!! 7) = 2%float /\
    grad (heap (backward model_rt 7 s1).2 !!! 1) = (-1)%float.
Proof.
  destruct (rsub_backward model_rt ex_state 1 5%float) as (s1 & Hrun & Hd & Hx).
  - apply wf_ex_heap.
  - apply set_iter_ok_model.
  - apply local_ex_heap.
  - simpl. lia.
  - exists s1. split_and!; [exact Hrun|exact Hd|].
    apply Hx. injection Hrun as <-. vm_compute. reflexivity.
Defined.

(** X21.  [z = c / x] for a number [c], where [x.data ** -1] evaluates to
    [r], is [(x ** -1) * c]: [z.data] is [r * c], and when
    [z.backward()] returns, [x.data ** -2] evaluated to some [q] and
    [x.grad] has grown by [-1 * q * (0.0 + c)]. *)
Theorem rtruediv_backward rt s x c r :
  wf_heap (heap s) -> set_iter_ok rt -> closures_local (heap s) ->
  x < length (heap s) ->
  float_pow rt (data (heap s !!! x)) (-1)%float = Ok r ->
  let z := S (S (length (heap s))) in
  exists s1,
    __rtruediv__ rt x c s = (Ok z, s1) /\
    data (heap s1 !!! z) = (r * c)%float /\
    ((backward rt z s1).1 = Ok tt ->
     exists q,
       float_pow rt (data (heap s !!! x)) (-2)%float = Ok q /\
       grad (heap (backward rt z s1).2 !!! x)
       = (grad (heap s !!! x) + -1 * q * (0 + c))%float).
Proof.
  intros Hwf Hiter Hloc Hx Hr z. subst z.
  pose proof (rtruediv_stays node_local node_local_leaf node_local_node
                rt x c s Hloc Hx) as (Hloc1 & _ & _).
  rewrite rtruediv_spec, Hr in Hloc1 |- * by done. cbn [snd] in Hloc1.
  eexists. split; [done|].
  set (k := length (heap s)) in *.
  set (vp := mkValue r _ _ _ _) in *.
  set (vz := mkValue (r * c) _ _ _ _) in *.
  set (s1 := push s [vp; leaf c; vz]) in *.
  assert (Hk : heap s1 !!! k = vp).
  { apply push_lookup_0. }
  assert (Hc : heap s1 !!! S k = leaf c).
  { rewrite <- (Nat.add_1_r k). by apply push_lookup. }
  assert (Hz : heap s1 !!! S (S k) = vz).
  { replace (S (S k)) with (k + 2) by lia. by apply push_lookup. }
  assert (Hlen : length (heap s1) = S (S (S k))).
  { unfold s1. rewrite push_length. simpl. unfold k. lia. }
  assert (Hold : forall i, i < k -> heap s1 !!! i = heap s !!! i).
  { intros i Hi. by apply push_old. }
  assert (Hwf1 : wf_heap (heap s1)).
  { unfold s1, push. simpl. apply wf_heap_app; [done|].
    intros j w Hj. destruct j as [|[|[|j]]]; simpl in Hj; [| | |done];
      injection Hj as <-; split; simpl; refs_lt. }
  assert (Hfc : forall t, ~ feeds (heap s1) (S k) t).
  { intros t. apply leaf_not_feeds; by rewrite Hc. }
  assert (Hlz : contributions rt (alter (with_grad 1%float) (S (S k)) (heap s1))
                  (_backward (heap s1 !!! S (S k)))
                = Ok [(k, c); (S k, r)]).
  { rewrite Hz. cbn [_backward contributions vz].
    rewrite seeded_grad, !seeded_data, Hk, Hc, !mul_one_r by lia. done. }
  assert (Hgk : grad (heap (backward rt (S (S k)) s1).2 !!! k) = (0 + c)%float).
  { rewrite (backward_grad_fresh rt s1 (S (S k)) k
               [(k, c); (S k, r)] Hwf1 Hiter
               ltac:(lia) ltac:(lia)); [| |by rewrite Hz|exact Hlz].
    - rewrite !contribs_acc_cons, contribs_acc_nil.
      rewrite decide_True by done. rewrite decide_False by lia.
      cbn [fold_left]. by rewrite Hk.
    - intros p Hp. rewrite Hz in Hp. simpl in Hp. set_unfold in Hp.
      destruct Hp as [->|[->|[]]]; [|done]. by apply wf_not_feeds_self. }
  split.
  - by rewrite Hz.
  - intros Hok.
    assert (Htot : closure_total rt (heap s1) (_backward (heap s1 !!! k))).
    { apply (backward_returns_iff rt s1 (S (S k)) Hwf1 Hiter ltac:(lia)); [done|].
      eapply rtc_l; [|apply rtc_refl]. rewrite Hz. simpl. set_solver. }
    rewrite Hk in Htot. cbn [_backward closure_total vp] in Htot.
    rewrite Hold in Htot by done.
    change (-1 - 1)%float with (-2)%float in Htot.
    destruct Htot as [q Hq]. exists q. split; [done|].
    destruct (backward rt (S (S k)) s1) as [res s'] eqn:Hrun.
    simpl in Hok, Hgk |- *. subst res.
    rewrite (chain_target rt s1 (S (S k)) k x s'
               [(x, (-1 * q * (0 + c))%float)]
               Hwf1 Hiter ltac:(lia) Hloc1 Hrun ltac:(lia) ltac:(lia)).
    + rewrite !contribs_acc_cons, contribs_acc_nil.
      rewrite decide_True by done. cbn [fold_left]. by rewrite Hold.
    + rewrite Hz. simpl. set_solver.
    + rewrite Hz. simpl. intros Hin. set_unfold in Hin. lia.
    + intros p Hp Hpn. rewrite Hz in Hp. simpl in Hp. set_unfold in Hp.
      destruct Hp as [->|[->|[]]]; done.
    + intros p Hp. rewrite Hk in Hp. simpl in Hp. set_unfold in Hp.
      destruct Hp as [->|[]].
      apply feeds_push_old; [done..|]. by apply wf_not_feeds_self.
    + rewrite Hk. cbn [_backward contributions vp].
      pose proof (backward_data rt (S (S k)) s1) as Hd. rewrite Hrun in Hd.
      cbn [snd] in Hd. rewrite !Hd, Hgk, Hold by done.
      change (-1 - 1)%float with (-2)%float. by rewrite Hq.
Qed.

Lemma rtruediv_backward_witness :
  exists s1,
    __rtruediv__ model_rt 1 5%float ex_state = (Ok 6, s1) /\
    (backward model_rt 6 s1).1 = Ok tt /\
    exists q,
      float_pow model_rt 3%float (-2)%float = Ok q /\
      grad (heap (backward model_rt 6 s1).2 !!! 1)
      = (0 + -1 * q * (0 + 5))%float.
Proof.
  destruct (rtruediv_backward model_rt ex_state 1 5%float nan)
    as (s1 & Hrun & _ & Hx).
  - apply wf_ex_heap.
  - apply set_iter_ok_model.
  - apply local_ex_heap.
  - simpl. lia.
  - reflexivity.
  - assert (Hok : (backward model_rt 6 s1).1 = Ok tt).
    { injection Hrun as <-. vm_compute. reflexivity. }
    exists s1. split_and!; [exact Hrun|exact Hok|exact (Hx Hok)].
Defined.

(** ** Below one output of [softmax] *)

Lemma list_fmap_ext_in {A B} (f g : A -> B) (l : list A) :
  (forall x, x ∈ l -> f x = g x) -> f <$> l = g <$> l.
Proof.
  intros H. apply list_eq. intros i. rewrite !list_lookup_fmap.
  destruct (l !! i) as [x|] eqn:Hx; [|done]. simpl. f_equal.
  apply H. by eapply list_elem_of_lookup_2.
Qed.

Lemma wf_two_ones : wf_heap (heap two_ones_state).
Proof.
  intros i v Hi. destruct i as [|[|i]]; simpl in Hi; simplify_eq;
    split; simpl; intros p Hp; set_unfold in Hp; tauto.
Qed.

(** X23.  [backward] from the output at position [k] of a [softmax] over
    distinct inputs, where the input at [k] and its ancestors do not feed
    the input at [j]: the root's [grad] is [1.0] and the [grad] of input
    [j] has received one contribution per output [i], computed with
    [out[k].grad == 1.0] and [out[i].grad == 0.0] for the others:
    [g_i * out[i].data * (1 - out[j].data)] for [i = j] and
    [-g_i * out[i].data * out[j].data] otherwise.  Input [j] is written
    to whether or not it is an ancestor of the root. *)
Theorem softmax_output_backward rt s values outs s1 k j :
  wf_heap (heap s) -> set_iter_ok rt -> NoDup values ->
  (forall v, v ∈ values -> v < length (heap s)) ->
  softmax rt values s = (Ok outs, s1) ->
  k < length values -> j < length values ->
  ~ feeds (heap s) (values !!! k) (values !!! j) ->
  let root := length (heap s) + k in
  let d := fun i => data (heap s1 !!! (length (heap s) + i)) in
  let g := fun i => if decide (i = k) then 1%float else 0%float in
  let term := fun i =>
    if decide (i = j) then (g i * d i * (1 - d j))%float
    else (- g i * d i * d j)%float in
  outs !! k = Some root /\
  grad (heap (backward rt root s1).2 !!! root) = 1%float /\
  grad (heap (backward rt root s1).2 !!! (values !!! j))
  = fold_left PrimFloat.add (term <$> seq 0 (length values))
      (grad (heap s !!! (values !!! j))).
Proof.
  intros Hwf Hiter Hnd Hin Hrun Hk Hj Hfeed root d g term.
  pose proof (softmax_stays_wf rt values s Hwf Hin) as (Hwf1 & _ & _).
  rewrite Hrun in Hwf1. cbn [snd] in Hwf1.
  rewrite softmax_spec in Hrun.
  destruct (py_max _) as [max_val|e]; [|done].
  destruct (softmax_exps rt _ max_val) as [exps|e] eqn:Hexps; [|done].
  destruct (_ =? 0)%float; [done|]. cbn zeta in Hrun.
  injection Hrun as <- <-.
  apply result_map_length in Hexps. unfold datas_of in Hexps.
  rewrite length_fmap in Hexps.
  set (n := length (heap s)) in *.
  set (outs := seq n (length values)) in *.
  set (c := SoftmaxBackward values outs) in *.
  set (s1 := push s (softmax_node (py_sum exps) c <$> zip exps values)) in *.
  assert (Hnode : forall i, i < length values ->
            exists e, heap s1 !!! (n + i)
                      = softmax_node (py_sum exps) c (e, values !!! i)).
  { intros i Hi.
    destruct (lookup_lt_is_Some_2 exps i) as [e He]; [lia|].
    exists e. apply push_lookup. rewrite list_lookup_fmap.
    assert (Hz : zip exps values !! i = Some (e, values !!! i)).
    { apply lookup_zip_with_Some. exists e, (values !!! i).
      split_and!; [done..|]. apply list_lookup_lookup_total_lt. lia. }
    by rewrite Hz. }
  assert (Hlen : length (heap s1) = n + length values).
  { unfold s1. rewrite push_length, length_fmap, length_zip_with. lia. }
  assert (Hout : forall i, i < length values -> outs !!! i = n + i).
  { intros i Hi. apply list_lookup_total_correct. by apply lookup_seq. }
  destruct (Hnode k Hk) as [ek Hroot].
  assert (Hvj : values !!! j < n).
  { by apply Hin, list_elem_of_lookup_total_2. }
  split; [by apply lookup_seq|].
  split; [apply root_grad_one; [done..|unfold root; lia]|].
  rewrite backward_grad_root_only; [|done|done|unfold root; lia|]; cycle 1.
  { intros p Hp. fold root in Hroot. rewrite Hroot in Hp. simpl in Hp.
    rewrite (right_id_L ∅ (∪)) in Hp. apply elem_of_singleton in Hp as ->.
    apply feeds_push_old; [done| |done].
    by apply Hin, list_elem_of_lookup_total_2. }
  fold root in Hroot. rewrite Hroot. cbn [_backward softmax_node].
  rewrite call_as_contributions; cycle 1.
  { intros r Hr Ht. simpl in Hr, Ht.
    apply list_elem_of_fmap in Hr as (i & -> & Hi). apply elem_of_seq in Hi.
    rewrite Hout in Ht by lia. apply Hin in Ht. lia. }
  cbn [heap]. unfold c at 1. cbn [contributions snd heap].
  rewrite replay_log_grad_acc; cycle 1.
  { rewrite length_alter. lia. }
  { apply Forall_fmap, Forall_forall. by intros p _ r. }
  rewrite softmax_contribs_row by done.
  rewrite grad_alter_ne by (unfold root; lia).
  assert (Hold : heap s1 !!! (values !!! j) = heap s !!! (values !!! j))
    by (by apply push_old).
  rewrite Hold.
  f_equal. apply list_fmap_ext_in. intros i Hi. apply elem_of_seq in Hi.
  rewrite !seeded_data, !Hout by lia.
  assert (Hg : grad (alter (with_grad 1%float) root (heap s1) !!! (n + i)) = g i).
  { unfold g. destruct (decide (i = k)) as [->|Hne].
    - apply seeded_grad. unfold root. lia.
    - rewrite grad_alter_ne by (unfold root; lia).
      destruct (Hnode i) as [e ->]; [lia|]. done. }
  rewrite Hg. done.
Qed.

Lemma softmax_output_backward_witness :
  grad (heap (backward model_rt 2 (softmax model_rt [0; 1] two_ones_state).2).2
        !!! 1)
  = (-0.25)%float.
Proof.
  destruct (softmax_output_backward model_rt two_ones_state [0; 1] [2; 3]
              (softmax model_rt [0; 1] two_ones_state).2 0 1)
    as (_ & _ & Hg).
  - apply wf_two_ones.
  - apply set_iter_ok_model.
  - decide_eval.
  - intros v Hv. set_unfold in Hv. simpl. lia.
  - vm_compute. reflexivity.
  - simpl. lia.
  - simpl. lia.
  - by apply leaf_not_feeds.
  - etrans; [exact Hg|]. vm_compute. reflexivity.
Defined.

(** * The value of [relu] *)

(** X22.  The [data] of [x.relu()] is never below zero and never NaN: a
    NaN or a negative [x.data] gives [0]. *)
Theorem relu_value s x :
  let z := length (heap s) in
  let d := data (heap s !!! x) in
  exists s1,
    relu x s = (Ok z, s1) /\
    (data (heap s1 !!! z) <? 0)%float = false /\
    (data (heap s1 !!! z) =? data (heap s1 !!! z))%float = true /\
    ((d =? d)%float = false -> data (heap s1 !!! z) = 0%float) /\
    ((d <? 0)%float = true -> data (heap s1 !!! z) = 0%float).
Proof.
  intros z d. subst z. eexists. split; [apply relu_spec|].
  rewrite push_lookup_0. cbn [data]. fold d. unfold max0.
  destruct (0 <? d)%float eqn:Hlt.
  - apply ltb_zero_pos in Hlt as [Hneg Heq]. split_and!; [done..| |]; congruence.
  - by split_and!.
Qed.
